(** * MTG draft environment ([src/game.py]): a shallow embedding

    The Python class [DraftEnv] is modelled as a record of its attributes
    together with its methods, written in a state-and-exception monad.
    Python dictionaries with open key sets are [gmap]s, lists are lists
    updated by index, [None] is [option]'s [None], and the module-global
    generator of [random] is a field of the state. *)

From Stdlib Require Import ZArith Floats Uint63 Ascii String Sorted OrdersEx.
From stdpp Require Import gmap strings list pretty.

Local Open Scope string_scope.
Local Open Scope list_scope.
Local Open Scope nat_scope.

(** ** Python substrate: exceptions, results, floats, strings *)

Module Py.

(** An exception, identified by the name of its class. *)
Inductive exn : Type := PyExc (cls : string).

Definition KeyError : exn := PyExc "KeyError".
Definition IndexError : exn := PyExc "IndexError".
Definition ValueError : exn := PyExc "ValueError".
Definition AttributeError : exn := PyExc "AttributeError".
Definition ZeroDivisionError : exn := PyExc "ZeroDivisionError".

(** Outcome of a call: a returned value or a raised exception. *)
Inductive result (A : Type) : Type :=
| Ok (a : A)
| Raise (e : exn).
Arguments Ok {A} a.
Arguments Raise {A} e.

Definition is_ok {A} (r : result A) : bool :=
  match r with Ok _ => true | Raise _ => false end.

(** [seq[i]] for a non-negative index. *)
Definition index {A} (l : list A) (i : nat) : result A :=
  match l !! i with
  | Some x => Ok x
  | None => Raise IndexError
  end.

(** [float(n)] for a small non-negative integer. *)
Definition float_of_nat (n : nat) : float :=
  PrimFloat.of_uint63 (Uint63.of_Z (Z.of_nat n)).

(** [a / b] on integers (true division); the caller checks [b <> 0]. *)
Definition truediv (a b : nat) : float :=
  PrimFloat.div (float_of_nat a) (float_of_nat b).

(** Nearest integer to the rational [m / d], ties to the even one. *)
Definition nearest_even (m d : Z) : Z :=
  let q := (m / d)%Z in
  let r := (m mod d)%Z in
  if (2 * r <? d)%Z then q
  else if (d <? 2 * r)%Z then (q + 1)%Z
  else if Z.even q then q else (q + 1)%Z.

(** [int(round(x))] for a finite float: Python rounds half to even. *)
Definition round (x : float) : Z :=
  match Prim2SF x with
  | S754_finite s m e =>
      let v := if (0 <=? e)%Z then (Z.pos m * 2 ^ e)%Z
               else nearest_even (Z.pos m) (2 ^ (- e)) in
      if s then (- v)%Z else v
  | _ => 0%Z
  end.

(** [str.lower()] on the ASCII letters. *)
Definition lower_ascii (c : ascii) : ascii :=
  let n := nat_of_ascii c in
  if (65 <=? n) && (n <=? 90) then ascii_of_nat (n + 32) else c.

Fixpoint lower (s : string) : string :=
  match s with
  | EmptyString => EmptyString
  | String c s' => String (lower_ascii c) (lower s')
  end.

End Py.
Import Py.

(** ** State-and-exception monad

    [M S A] is a computation over a mutable state [S] that returns an [A]
    or raises; the state reached when the exception is raised is kept, as
    mutations made before a Python exception are. *)

Definition M (S A : Type) : Type := S -> result A * S.

Definition ret {S A} (a : A) : M S A := fun s => (Ok a, s).

Definition raise {S A} (e : exn) : M S A := fun s => (Raise e, s).

Definition bind {S A B} (c : M S A) (k : A -> M S B) : M S B :=
  fun s =>
    match c s with
    | (Ok a, s') => k a s'
    | (Raise e, s') => (Raise e, s')
    end.

Definition gets {S A} (f : S -> A) : M S A := fun s => (Ok (f s), s).

Definition modify {S} (f : S -> S) : M S unit := fun s => (Ok tt, f s).

Definition lift {S A} (r : result A) : M S A := fun s => (r, s).

Declare Scope py_scope.
Delimit Scope py_scope with py.
Notation "'let*' x ':=' c 'in' k" := (bind c (fun x => k))
  (at level 10, x pattern, c at level 100, k at level 200) : py_scope.
Local Open Scope py_scope.

(** [for x in xs: body x] *)
Fixpoint for_each {S A} (xs : list A) (body : A -> M S unit) : M S unit :=
  match xs with
  | [] => ret tt
  | x :: xs' => let* _ := body x in for_each xs' body
  end.

(** ** The [random] module *)

(** The generator behind [random]: a state, seeding, and the primitive
    [_randbelow(n)], which returns an index below [n]. *)
Class RandomSource : Type := {
  rng : Type;
  rng_seed : Z -> rng;
  randbelow : nat -> rng -> nat * rng;
  randbelow_lt : forall n g, 0 < n -> (randbelow n g).1 < n
}.

(** A linear congruential generator, used to run the model on concrete
    catalogs. *)
Definition lcg_next (g : Z) : Z := ((1103515245 * g + 12345) mod 2147483648)%Z.

Definition lcg_randbelow (n : nat) (g : Z) : nat * Z :=
  (Z.to_nat (lcg_next g / 65536) mod n, lcg_next g).

Lemma lcg_randbelow_lt n g : 0 < n -> (lcg_randbelow n g).1 < n.
Proof. intros Hn. cbn. apply Nat.mod_upper_bound. lia. Qed.

Definition lcg : RandomSource :=
  {| rng := Z;
     rng_seed := fun seed => (seed mod 2147483648)%Z;
     randbelow := lcg_randbelow;
     randbelow_lt := lcg_randbelow_lt |}.

Section Random.
Context {RS : RandomSource}.

(** [random.choice(seq)]: [seq[_randbelow(len(seq))]]; [IndexError] on
    an empty sequence. *)
Definition choice {A} (l : list A) : M rng A :=
  fun g =>
    match l with
    | [] => (Raise IndexError, g)
    | _ => let '(j, g') := randbelow (length l) g in (index l j, g')
    end.

(** The selection loop of [random.sample]: draw a position of the live
    pool, take its element, and move the last live element into the
    vacancy. (For large populations CPython tracks the chosen positions
    in a set instead; both draw [k] distinct positions.) *)
Fixpoint sample_loop {A} (k : nat) (pool : list A) (g : rng) : list A * rng :=
  match k with
  | 0 => ([], g)
  | S k' =>
      let n := length pool in
      let '(j, g1) := randbelow n g in
      match pool !! j, pool !! (n - 1) with
      | Some x, Some y =>
          let '(rest, g2) := sample_loop k' (take (n - 1) (<[j := y]> pool)) g1 in
          (x :: rest, g2)
      | _, _ => ([], g1)
      end
  end.

(** [random.sample(population, k)]: [k] positions chosen without
    replacement; [ValueError] when the sample is larger than the
    population. *)
Definition sample {A} (population : list A) (k : nat) : M rng (list A) :=
  fun g =>
    if decide (k <= length population)
    then let '(r, g') := sample_loop k population g in (Ok r, g')
    else (Raise ValueError, g).

End Random.

(** ** Card catalog: [_build_maps] *)

(** A card record of the JSON catalog; [None] is an absent key. *)
Record CardRecord : Type := {
  name : option string;
  color_identity : option (list string);
  rarity : option string;
  is_basic_land : option bool
}.

(** The keys of the [rarity_pools] dictionary. *)
Inductive pool_key : Type := Common | Uncommon | Rare | Mythic | BasicLand.

#[global] Instance pool_key_eq_dec : EqDecision pool_key.
Proof. solve_decision. Defined.

Definition pool_keys : list pool_key := [Common; Uncommon; Rare; Mythic; BasicLand].

(** [rar in rarity_pools]: the key named by a string, if any. *)
Definition pool_key_of (rar : string) : option pool_key :=
  if String.eqb rar "common" then Some Common
  else if String.eqb rar "uncommon" then Some Uncommon
  else if String.eqb rar "rare" then Some Rare
  else if String.eqb rar "mythic" then Some Mythic
  else if String.eqb rar "basic_land" then Some BasicLand
  else None.

(** The [rarity_pools] dictionary: one list of identities per key. *)
Record RarityPools : Type := {
  common : list nat;
  uncommon : list nat;
  rare : list nat;
  mythic : list nat;
  basic_land : list nat
}.

Definition empty_pools : RarityPools :=
  {| common := []; uncommon := []; rare := []; mythic := []; basic_land := [] |}.

Definition pool (p : RarityPools) (k : pool_key) : list nat :=
  match k with
  | Common => common p
  | Uncommon => uncommon p
  | Rare => rare p
  | Mythic => mythic p
  | BasicLand => basic_land p
  end.

(** [rarity_pools[k].append(cid)] *)
Definition pool_append (p : RarityPools) (k : pool_key) (cid : nat) : RarityPools :=
  match k with
  | Common => {| common := common p ++ [cid]; uncommon := uncommon p; rare := rare p;
                 mythic := mythic p; basic_land := basic_land p |}
  | Uncommon => {| common := common p; uncommon := uncommon p ++ [cid]; rare := rare p;
                   mythic := mythic p; basic_land := basic_land p |}
  | Rare => {| common := common p; uncommon := uncommon p; rare := rare p ++ [cid];
               mythic := mythic p; basic_land := basic_land p |}
  | Mythic => {| common := common p; uncommon := uncommon p; rare := rare p;
                 mythic := mythic p ++ [cid]; basic_land := basic_land p |}
  | BasicLand => {| common := common p; uncommon := uncommon p; rare := rare p;
                    mythic := mythic p; basic_land := basic_land p ++ [cid] |}
  end.

(** The four structures built by [_build_maps], with the running [idx]. *)
Record Maps : Type := {
  m_card_id_map : gmap string nat;
  m_id_card_map : gmap nat string;
  m_rarity_pools : RarityPools;
  m_card_color_identity : gmap nat (list string);
  m_idx : nat
}.

Definition empty_maps : Maps :=
  {| m_card_id_map := ∅; m_id_card_map := ∅; m_rarity_pools := empty_pools;
     m_card_color_identity := ∅; m_idx := 0 |}.

(** The pool a record is filed under: the basic-land flag first, then the
    lower-cased rarity label when it is a key of [rarity_pools]. *)
Definition bucket_of (card : CardRecord) : option pool_key :=
  if default false (is_basic_land card) then Some BasicLand
  else pool_key_of (lower (default "" (rarity card))).

(** [if card_name not in card_id_map: ...]: register a new name. *)
Definition register_name (card_name : string) (m : Maps) : Maps :=
  match m_card_id_map m !! card_name with
  | Some _ => m
  | None =>
      {| m_card_id_map := <[card_name := m_idx m]> (m_card_id_map m);
         m_id_card_map := <[m_idx m := card_name]> (m_id_card_map m);
         m_rarity_pools := m_rarity_pools m;
         m_card_color_identity := m_card_color_identity m;
         m_idx := S (m_idx m) |}
  end.

(** One iteration of the loop of [_build_maps]. *)
Definition build_card (m : Maps) (card : CardRecord) : result Maps :=
  match name card with
  | None => Raise KeyError
  | Some card_name =>
      let m1 := register_name card_name m in
      match m_card_id_map m1 !! card_name with
      | None => Raise KeyError
      | Some cid =>
          let c_identity := default [] (color_identity card) in
          Ok {| m_card_id_map := m_card_id_map m1;
                m_id_card_map := m_id_card_map m1;
                m_rarity_pools :=
                  match bucket_of card with
                  | Some k => pool_append (m_rarity_pools m1) k cid
                  | None => m_rarity_pools m1
                  end;
                m_card_color_identity := <[cid := c_identity]> (m_card_color_identity m1);
                m_idx := m_idx m1 |}
      end
  end.

Fixpoint build_loop (m : Maps) (cards_data : list CardRecord) : result Maps :=
  match cards_data with
  | [] => Ok m
  | card :: rest =>
      match build_card m card with
      | Ok m' => build_loop m' rest
      | Raise e => Raise e
      end
  end.

Definition _build_maps (cards_data : list CardRecord) : result Maps :=
  build_loop empty_maps cards_data.

(** ** Colors and dictionaries keyed by the five color symbols *)

Module Color.

Inductive t : Type := W | U | B | R | G.

(** Insertion order of the keys of [color_counts]. *)
Definition all : list t := [W; U; B; R; G].

(** [c in color_counts]: the key named by a symbol, if any. *)
Definition of_symbol (c : string) : option t :=
  if String.eqb c "W" then Some W
  else if String.eqb c "U" then Some U
  else if String.eqb c "B" then Some B
  else if String.eqb c "R" then Some R
  else if String.eqb c "G" then Some G
  else None.

End Color.

#[global] Instance color_eq_dec : EqDecision Color.t.
Proof. solve_decision. Defined.

(** A dictionary whose keys are exactly ['W'], ['U'], ['B'], ['R'], ['G']
    ([basic_land_ids], [color_counts]). *)
Record by_color (A : Type) : Type := ByColor {
  at_W : A; at_U : A; at_B : A; at_R : A; at_G : A
}.
Arguments ByColor {A}.
Arguments at_W {A}.
Arguments at_U {A}.
Arguments at_B {A}.
Arguments at_R {A}.
Arguments at_G {A}.

Definition cget {A} (d : by_color A) (c : Color.t) : A :=
  match c with
  | Color.W => at_W d
  | Color.U => at_U d
  | Color.B => at_B d
  | Color.R => at_R d
  | Color.G => at_G d
  end.

Definition cset {A} (d : by_color A) (c : Color.t) (v : A) : by_color A :=
  match c with
  | Color.W => ByColor v (at_U d) (at_B d) (at_R d) (at_G d)
  | Color.U => ByColor (at_W d) v (at_B d) (at_R d) (at_G d)
  | Color.B => ByColor (at_W d) (at_U d) v (at_R d) (at_G d)
  | Color.R => ByColor (at_W d) (at_U d) (at_B d) v (at_G d)
  | Color.G => ByColor (at_W d) (at_U d) (at_B d) (at_R d) v
  end.

(** [d.items()], in insertion order. *)
Definition items {A} (d : by_color A) : list (Color.t * A) :=
  map (fun c => (c, cget d c)) Color.all.

(** ** The environment *)

Definition num_players : nat := 8.
Definition num_packs : nat := 3.
Definition cards_per_pack : nat := 15.

(** A pack: slots holding a card identity or [None]. *)
Abbreviation Pack := (list (option nat)).

(** The observation: a matrix of [0.0] and [1.0], as a list of rows. *)
Abbreviation Obs := (list (list float)).

(** What [step] returns: the four-element tuple of the early returns or
    the five-element tuple of the accepted path ([info] is always [{}]). *)
Inductive StepReturn : Type :=
| Tuple4 (obs : Obs) (reward : float) (done : bool)
| Tuple5 (obs : Obs) (reward : float) (done : bool) (truncated : bool).

Definition TypeError : exn := PyExc "TypeError".

Section Env.
Context {RS : RandomSource}.

(** The attributes of a [DraftEnv] object, and the state of the global
    generator of [random]. The attributes that only [reset] creates are
    [None] until then. *)
Record DraftEnv : Type := {
  card_id_map : gmap string nat;
  id_card_map : gmap nat string;
  rarity_pools : RarityPools;
  card_color_identity : gmap nat (list string);
  num_cards_total : nat;
  user_picks : list nat;
  basic_land_ids : by_color (option nat);
  round_idx : nat;
  pick_idx : nat;
  done_drafting : bool;
  all_packs_by_round : option (list (list Pack));
  pack_holder : option (list (option nat));
  random_state : rng
}.

Definition set_user_picks (v : list nat) (s : DraftEnv) : DraftEnv :=
  {| card_id_map := card_id_map s; id_card_map := id_card_map s;
     rarity_pools := rarity_pools s; card_color_identity := card_color_identity s;
     num_cards_total := num_cards_total s; user_picks := v;
     basic_land_ids := basic_land_ids s; round_idx := round_idx s;
     pick_idx := pick_idx s; done_drafting := done_drafting s;
     all_packs_by_round := all_packs_by_round s; pack_holder := pack_holder s;
     random_state := random_state s |}.

Definition set_basic_land_ids (v : by_color (option nat)) (s : DraftEnv) : DraftEnv :=
  {| card_id_map := card_id_map s; id_card_map := id_card_map s;
     rarity_pools := rarity_pools s; card_color_identity := card_color_identity s;
     num_cards_total := num_cards_total s; user_picks := user_picks s;
     basic_land_ids := v; round_idx := round_idx s;
     pick_idx := pick_idx s; done_drafting := done_drafting s;
     all_packs_by_round := all_packs_by_round s; pack_holder := pack_holder s;
     random_state := random_state s |}.

Definition set_round_idx (v : nat) (s : DraftEnv) : DraftEnv :=
  {| card_id_map := card_id_map s; id_card_map := id_card_map s;
     rarity_pools := rarity_pools s; card_color_identity := card_color_identity s;
     num_cards_total := num_cards_total s; user_picks := user_picks s;
     basic_land_ids := basic_land_ids s; round_idx := v;
     pick_idx := pick_idx s; done_drafting := done_drafting s;
     all_packs_by_round := all_packs_by_round s; pack_holder := pack_holder s;
     random_state := random_state s |}.

Definition set_pick_idx (v : nat) (s : DraftEnv) : DraftEnv :=
  {| card_id_map := card_id_map s; id_card_map := id_card_map s;
     rarity_pools := rarity_pools s; card_color_identity := card_color_identity s;
     num_cards_total := num_cards_total s; user_picks := user_picks s;
     basic_land_ids := basic_land_ids s; round_idx := round_idx s;
     pick_idx := v; done_drafting := done_drafting s;
     all_packs_by_round := all_packs_by_round s; pack_holder := pack_holder s;
     random_state := random_state s |}.

Definition set_done_drafting (v : bool) (s : DraftEnv) : DraftEnv :=
  {| card_id_map := card_id_map s; id_card_map := id_card_map s;
     rarity_pools := rarity_pools s; card_color_identity := card_color_identity s;
     num_cards_total := num_cards_total s; user_picks := user_picks s;
     basic_land_ids := basic_land_ids s; round_idx := round_idx s;
     pick_idx := pick_idx s; done_drafting := v;
     all_packs_by_round := all_packs_by_round s; pack_holder := pack_holder s;
     random_state := random_state s |}.

Definition set_all_packs_by_round (v : option (list (list Pack))) (s : DraftEnv) : DraftEnv :=
  {| card_id_map := card_id_map s; id_card_map := id_card_map s;
     rarity_pools := rarity_pools s; card_color_identity := card_color_identity s;
     num_cards_total := num_cards_total s; user_picks := user_picks s;
     basic_land_ids := basic_land_ids s; round_idx := round_idx s;
     pick_idx := pick_idx s; done_drafting := done_drafting s;
     all_packs_by_round := v; pack_holder := pack_holder s;
     random_state := random_state s |}.

Definition set_pack_holder (v : option (list (option nat))) (s : DraftEnv) : DraftEnv :=
  {| card_id_map := card_id_map s; id_card_map := id_card_map s;
     rarity_pools := rarity_pools s; card_color_identity := card_color_identity s;
     num_cards_total := num_cards_total s; user_picks := user_picks s;
     basic_land_ids := basic_land_ids s; round_idx := round_idx s;
     pick_idx := pick_idx s; done_drafting := done_drafting s;
     all_packs_by_round := all_packs_by_round s; pack_holder := v;
     random_state := random_state s |}.

Definition set_random_state (v : rng) (s : DraftEnv) : DraftEnv :=
  {| card_id_map := card_id_map s; id_card_map := id_card_map s;
     rarity_pools := rarity_pools s; card_color_identity := card_color_identity s;
     num_cards_total := num_cards_total s; user_picks := user_picks s;
     basic_land_ids := basic_land_ids s; round_idx := round_idx s;
     pick_idx := pick_idx s; done_drafting := done_drafting s;
     all_packs_by_round := all_packs_by_round s; pack_holder := pack_holder s;
     random_state := v |}.

(** Reading an attribute that may not exist yet. *)
Definition attr {A} (f : DraftEnv -> option A) : M DraftEnv A :=
  fun s => match f s with
           | Some a => (Ok a, s)
           | None => (Raise AttributeError, s)
           end.

(** A call into [random], acting on the global generator. *)
Definition with_random {A} (c : M rng A) : M DraftEnv A :=
  fun s => let '(r, g) := c (random_state s) in (r, set_random_state g s).

(** [__init__], given the decoded JSON catalog and the state of the
    global generator when the object is created. *)
Definition init (cards : list CardRecord) (g : rng) : result DraftEnv :=
  match _build_maps cards with
  | Raise e => Raise e
  | Ok m =>
      Ok {| card_id_map := m_card_id_map m;
            id_card_map := m_id_card_map m;
            rarity_pools := m_rarity_pools m;
            card_color_identity := m_card_color_identity m;
            num_cards_total := size (m_card_id_map m);
            user_picks := [];
            basic_land_ids := ByColor None None None None None;
            round_idx := 0;
            pick_idx := 0;
            done_drafting := false;
            all_packs_by_round := None;
            pack_holder := None;
            random_state := g |}
  end.

(** *** [make_pack] *)

(** "1 basic land" *)
Definition draw_basic_land (pools : RarityPools) : M rng (list nat) :=
  match basic_land pools with
  | [] => ret []
  | _ => let* c := choice (basic_land pools) in ret [c]
  end.

(** "10 commons" *)
Definition draw_commons (pools : RarityPools) : M rng (list nat) :=
  if decide (10 <= length (common pools))
  then sample (common pools) 10
  else ret (common pools).

(** "3 uncommons" *)
Definition draw_uncommons (pools : RarityPools) : M rng (list nat) :=
  if decide (3 <= length (uncommon pools))
  then sample (uncommon pools) 3
  else ret (uncommon pools).

(** "1 rare/mythic" *)
Definition draw_rare_or_mythic (pools : RarityPools) : M rng (list nat) :=
  let rare_or_mythic := rare pools ++ mythic pools in
  match rare_or_mythic with
  | [] => ret []
  | _ => let* c := choice rare_or_mythic in ret [c]
  end.

(** "Ensure length = 15": truncate, then append [None] while short. *)
Definition ensure_length (pack_ids : list nat) : Pack :=
  let cut := take cards_per_pack pack_ids in
  (Some <$> cut) ++ replicate (cards_per_pack - length cut) None.

Definition make_pack_from (pools : RarityPools) : M rng Pack :=
  let* lands := draw_basic_land pools in
  let* commons := draw_commons pools in
  let* uncommons := draw_uncommons pools in
  let* rares := draw_rare_or_mythic pools in
  ret (ensure_length (lands ++ commons ++ uncommons ++ rares)).

Definition make_pack : M DraftEnv Pack :=
  let* pools := gets rarity_pools in
  with_random (make_pack_from pools).

(** *** Reading the table *)

(** A method that only reads [self]. *)
Definition reader {A} (f : DraftEnv -> result A) : M DraftEnv A :=
  fun s => (f s, s).

(** [pack_index = self.pack_holder[seat]] followed by
    [self.all_packs_by_round[self.round_idx][pack_index]]: the index and
    the pack that seat holds. *)
Definition seat_pack (seat : nat) (s : DraftEnv) : result (nat * Pack) :=
  match pack_holder s with
  | None => Raise AttributeError
  | Some holder =>
      match index holder seat with
      | Raise e => Raise e
      | Ok pack_index =>
          match all_packs_by_round s with
          | None => Raise AttributeError
          | Some packs =>
              match index packs (round_idx s) with
              | Raise e => Raise e
              | Ok round_packs =>
                  match pack_index with
                  | None => Raise TypeError
                  | Some i =>
                      match index round_packs i with
                      | Raise e => Raise e
                      | Ok pack => Ok (i, pack)
                      end
                  end
              end
          end
      end
  end.

(** [for i, x in enumerate(l)] *)
Definition enumerate {A} (l : list A) : list (nat * A) :=
  zip (seq 0 (length l)) l.

Fixpoint foldM {A B} (f : B -> A -> result B) (l : list A) (b : B) : result B :=
  match l with
  | [] => Ok b
  | x :: l' =>
      match f b x with
      | Ok b' => foldM f l' b'
      | Raise e => Raise e
      end
  end.

(** [np.zeros((rows, cols))] *)
Definition zeros (rows cols : nat) : Obs :=
  replicate rows (replicate cols 0%float).

(** [obs[i, c] = 1.0]; numpy raises [IndexError] out of bounds. *)
Definition set_one (obs : Obs) (i c : nat) : result Obs :=
  match obs !! i with
  | None => Raise IndexError
  | Some row =>
      if decide (c < length row)
      then Ok (<[i := <[c := 1%float]> row]> obs)
      else Raise IndexError
  end.

Definition mark_picks (picks : list nat) (obs : Obs) : result Obs :=
  foldM (fun obs '(i, card_id) =>
           if decide (i < 45) then set_one obs i card_id else Ok obs)
        (enumerate picks) obs.

Definition mark_pack (user_pack : Pack) (obs : Obs) : result Obs :=
  foldM (fun obs '(slot_i, cid) =>
           match cid with
           | Some c =>
               if decide (45 + slot_i < 60) then set_one obs (45 + slot_i) c else Ok obs
           | None => Ok obs
           end)
        (enumerate user_pack) obs.

Definition _build_observation (s : DraftEnv) : result Obs :=
  match mark_picks (user_picks s) (zeros 60 (num_cards_total s)) with
  | Raise e => Raise e
  | Ok obs =>
      if done_drafting s then Ok obs
      else
        match seat_pack 0 s with
        | Raise e => Raise e
        | Ok (_, user_pack) => mark_pack user_pack obs
        end
  end.

Definition slot_filled (c : option nat) : bool :=
  match c with Some _ => true | None => false end.

Definition get_mask (s : DraftEnv) : result (list bool) :=
  if done_drafting s then Ok (replicate 15 false)
  else
    match seat_pack 0 s with
    | Raise e => Raise e
    | Ok (_, user_pack) => Ok (slot_filled <$> user_pack)
    end.

(** *** [_populate_basic_land_ids] *)

(** The color whose basic land has exactly this color identity. *)
Definition land_color (ci : list string) : option Color.t :=
  if decide (ci = ["W"]) then Some Color.W
  else if decide (ci = ["U"]) then Some Color.U
  else if decide (ci = ["B"]) then Some Color.B
  else if decide (ci = ["R"]) then Some Color.R
  else if decide (ci = ["G"]) then Some Color.G
  else None.

Definition populate_land (land_id : nat) : M DraftEnv unit :=
  let* cci := gets card_color_identity in
  match cci !! land_id with
  | None => raise KeyError
  | Some ci =>
      match land_color ci with
      | Some c =>
          modify (fun s => set_basic_land_ids (cset (basic_land_ids s) c (Some land_id)) s)
      | None => ret tt
      end
  end.

Definition _populate_basic_land_ids : M DraftEnv unit :=
  let* pools := gets rarity_pools in
  for_each (basic_land pools) populate_land.

(** *** [reset] *)

(** [[self.make_pack() for __ in range(n)]] *)
Fixpoint make_packs (n : nat) : M DraftEnv (list Pack) :=
  match n with
  | 0 => ret []
  | S n' =>
      let* p := make_pack in
      let* ps := make_packs n' in
      ret (p :: ps)
  end.

Definition append_round (round_packs : list Pack) (s : DraftEnv) : DraftEnv :=
  set_all_packs_by_round ((fun packs => packs ++ [round_packs]) <$> all_packs_by_round s) s.

(** [gymnasium.error.Error] *)
Definition GymError : exn := PyExc "Error".

(** [super().reset(seed=seed)]: [gymnasium] derives its own generator
    from the seed, and refuses a negative one. *)
Definition super_reset (seed : option Z) : result unit :=
  match seed with
  | Some z => if (z <? 0)%Z then Raise GymError else Ok tt
  | None => Ok tt
  end.

(** [np.random.seed(seed)]: [numpy] takes a seed in [0, 2**32). *)
Definition np_random_seed (z : Z) : result unit :=
  if ((0 <=? z) && (z <? 2 ^ 32))%Z then Ok tt else Raise ValueError.

(** [if seed is not None: random.seed(seed); np.random.seed(seed)]: the
    generator of [random] has been seeded when [numpy] refuses. *)
Definition seed_generators (seed : option Z) : M DraftEnv unit :=
  match seed with
  | Some z =>
      let* _ := modify (set_random_state (rng_seed z)) in
      lift (np_random_seed z)
  | None => ret tt
  end.

(** [reset(seed)]; the returned [info] is always [{}]. *)
Definition reset (seed : option Z) : M DraftEnv Obs :=
  let* _ := lift (super_reset seed) in
  let* _ := seed_generators seed in
  let* _ := modify (set_round_idx 0) in
  let* _ := modify (set_pick_idx 0) in
  let* _ := modify (set_done_drafting false) in
  let* _ := modify (set_user_picks []) in
  let* _ := modify (set_all_packs_by_round (Some [])) in
  let* _ := for_each (seq 0 num_packs)
              (fun _ => let* round_packs := make_packs num_players in
                        modify (append_round round_packs)) in
  let* _ := modify (set_pack_holder (Some (Some <$> seq 0 num_players))) in
  let* _ := _populate_basic_land_ids in
  reader _build_observation.

(** *** [build_deck] *)

Definition count_card (counts : by_color nat) (colors : list string) : by_color nat :=
  foldl (fun counts c =>
           match Color.of_symbol c with
           | Some k => cset counts k (S (cget counts k))
           | None => counts
           end) counts colors.

Definition count_colors (cci : gmap nat (list string)) (main_deck : list nat) : by_color nat :=
  foldl (fun counts cid => count_card counts (default [] (cci !! cid)))
        (ByColor 0 0 0 0 0) main_deck.

(** [sum(color_counts.values())] *)
Definition total_of (counts : by_color nat) : nat :=
  sum_list (snd <$> items counts).

(** [int(round(fraction * land_count))] with [fraction = c_count / total_colors]. *)
Definition portion_of (c_count total_colors land_count : nat) : Z :=
  let fraction := truediv c_count total_colors in
  round (PrimFloat.mul fraction (float_of_nat land_count)).

(** The apportioning loop: the lands added and the running [used]. *)
Definition allocate (ids : by_color (option nat)) (counts : by_color nat)
    (total_colors land_count : nat) : list (option nat) * Z :=
  foldl (fun '(land_ids, used) '(c_symbol, c_count) =>
           let portion := portion_of c_count total_colors land_count in
           match cget ids c_symbol with
           | Some land_id => (land_ids ++ replicate (Z.to_nat portion) (Some land_id),
                           (used + portion)%Z)
           | None => (land_ids, used)
           end)
        ([], 0%Z) (items counts).

(** [max(color_counts, key=color_counts.get)]: the first key holding the
    largest count. *)
Definition top_color_of (counts : by_color nat) : Color.t :=
  foldl (fun best c => if cget counts best <? cget counts c then c else best)
        Color.W [Color.U; Color.B; Color.R; Color.G].

(** [x or y] on identities: [None] and [0] are falsy. *)
Definition py_or (x y : option nat) : option nat :=
  match x with
  | Some (S _) => x
  | _ => y
  end.

(** [build_deck(main_count=..., land_count=...)]; it only reads [self]. An
    entry of the result is an identity or [None]. *)
Definition build_deck (s : DraftEnv) (main_count land_count : nat) : list (option nat) :=
  let main_deck := take main_count (user_picks s) in
  let color_counts := count_colors (card_color_identity s) main_deck in
  let total_colors := total_of color_counts in
  let ids := basic_land_ids s in
  if decide (total_colors = 0)
  then (Some <$> main_deck) ++ replicate land_count (cget ids Color.U)
  else
    let '(land_ids, used) := allocate ids color_counts total_colors land_count in
    let diff := (Z.of_nat land_count - used)%Z in
    let land_ids :=
      if (0 <? diff)%Z
      then land_ids ++ replicate (Z.to_nat diff)
                         (py_or (cget ids (top_color_of color_counts)) (cget ids Color.U))
      else land_ids in
    (Some <$> main_deck) ++ land_ids.

(** *** The match arbiter *)

(** The external simulator run by [test_deck] on the saved deck: for each
    opposing deck a triple (deck name, winner, duration), or an exception. *)
Variable run_matches : list (option nat) -> result (list (string * nat * nat)).

(** [_save_deck_to_dck_file]: every entry is looked up in [id_card_map]
    (a [KeyError] for [None] or an unknown identity); the file written is
    not modelled. *)
Definition _save_deck_to_dck_file (s : DraftEnv) (deck_ids : list (option nat)) : result unit :=
  if forallb (fun e => match e with
                       | Some cid => bool_decide (is_Some (id_card_map s !! cid))
                       | None => false
                       end) deck_ids
  then Ok tt
  else Raise KeyError.

Definition test_in_parralell (s : DraftEnv) (d1 : list (option nat))
    : result (list (string * nat * nat)) :=
  match _save_deck_to_dck_file s d1 with
  | Raise e => Raise e
  | Ok _ => run_matches d1
  end.

(** *** [step] *)

(** [pack[i] = None] on the pack object [all_packs_by_round[round_idx][pack_index]]. *)
Definition clear_slot (pack_index i : nat) (s : DraftEnv) : DraftEnv :=
  set_all_packs_by_round
    (alter (alter (<[i := None]>) pack_index) (round_idx s) <$> all_packs_by_round s) s.

(** "2) Other seats pick randomly from their pack": one seat. *)
Definition other_seat_pick (seat : nat) : M DraftEnv unit :=
  let* (pack_index, pack_cards) := reader (seat_pack seat) in
  let valid_slots := (fst <$> filter (fun ic => slot_filled ic.2 = true) (enumerate pack_cards)) in
  match valid_slots with
  | [] => ret tt
  | _ =>
      let* chosen_idx := with_random (choice valid_slots) in
      modify (clear_slot pack_index chosen_idx)
  end.

(** "3) Pass all packs to the right": the new holder list. *)
Definition pass_right (holder : list (option nat)) : result (list (option nat)) :=
  foldM (fun new_holder seat =>
           match index holder seat with
           | Ok old_pack_index =>
               Ok (<[(seat + 1) mod num_players := old_pack_index]> new_holder)
           | Raise e => Raise e
           end)
        (seq 0 num_players) (replicate num_players None).

Definition pass_packs : M DraftEnv unit :=
  let* holder := attr pack_holder in
  let* new_holder := lift (pass_right holder) in
  modify (set_pack_holder (Some new_holder)).

(** "4) Advance pick index" *)
Definition advance (s : DraftEnv) : DraftEnv :=
  let s1 := set_pick_idx (S (pick_idx s)) s in
  if decide (cards_per_pack <= pick_idx s1)
  then
    let s2 := set_pick_idx 0 (set_round_idx (S (round_idx s1)) s1) in
    if decide (round_idx s2 < num_packs)
    then set_pack_holder (Some (Some <$> seq 0 num_players)) s2
    else s2
  else s1.

(** [wins / length] over the arbiter's results. *)
Definition win_rate (results : list (string * nat * nat)) : result float :=
  let wins := length (filter (fun r => r.1.2 = 1) results) in
  if decide (length results = 0) then Raise ZeroDivisionError
  else Ok (truediv wins (length results)).

(** "5) Check if we've done all 3 rounds" *)
Definition finish : M DraftEnv StepReturn :=
  let* r := gets round_idx in
  if decide (num_packs <= r)
  then
    let* _ := modify (set_done_drafting true) in
    let* deck := gets (fun s => build_deck s 33 27) in
    let* results := reader (fun s => test_in_parralell s deck) in
    let* reward := lift (win_rate results) in
    let* obs := reader _build_observation in
    ret (Tuple5 obs reward true false)
  else
    let* obs := reader _build_observation in
    ret (Tuple5 obs 0%float false false).

(** The invalid-pick return: reward [-1.0], not done. *)
Definition reject : M DraftEnv StepReturn :=
  let* obs := reader _build_observation in
  ret (Tuple4 obs (-1)%float false).

(** The picks and the passing that follow an accepted action. *)
Definition accept (user_pack_index : nat) (slot : nat) (card_id : nat) : M DraftEnv StepReturn :=
  let* _ := modify (fun s => set_user_picks (user_picks s ++ [card_id]) s) in
  let* _ := modify (clear_slot user_pack_index slot) in
  let* _ := for_each (seq 1 (num_players - 1)) other_seat_pick in
  let* _ := pass_packs in
  let* _ := modify advance in
  finish.

(** [step(action)]; the line it prints to standard output is not
    modelled. *)
Definition step (action : Z) : M DraftEnv StepReturn :=
  let* finished := gets done_drafting in
  if finished
  then
    let* obs := reader _build_observation in
    ret (Tuple4 obs 0%float true)
  else
    let* (user_pack_index, user_pack) := reader (seat_pack 0) in
    if decide (action < 0 \/ action >= Z.of_nat cards_per_pack)%Z
    then reject
    else
      let* slot := lift (index user_pack (Z.to_nat action)) in
      match slot with
      | None => reject
      | Some card_id => accept user_pack_index (Z.to_nat action) card_id
      end.

(** A run: the returns of [step] over a list of actions. *)
Fixpoint run (actions : list Z) (s : DraftEnv) : list (result StepReturn) * DraftEnv :=
  match actions with
  | [] => ([], s)
  | a :: rest =>
      let '(r, s1) := step a s in
      let '(rs, s2) := run rest s1 in
      (r :: rs, s2)
  end.

End Env.

(** * Properties *)

(** ** The catalog index *)

Section CatalogFacts.

Definition known_names (cards : list CardRecord) : list string :=
  omap name cards.

Definition all_pool_ids (p : RarityPools) : list nat :=
  common p ++ uncommon p ++ rare p ++ mythic p ++ basic_land p.

(** What the loop of [_build_maps] maintains after the records [seen]. *)
Record maps_inv (seen : list CardRecord) (m : Maps) : Prop := {
  inv_dom : dom (m_card_id_map m) = list_to_set (known_names seen);
  inv_there : forall n cid, m_card_id_map m !! n = Some cid -> m_id_card_map m !! cid = Some n;
  inv_back : forall n cid, m_id_card_map m !! cid = Some n -> m_card_id_map m !! n = Some cid;
  inv_below : forall n cid, m_card_id_map m !! n = Some cid -> cid < m_idx m;
  inv_size : size (m_card_id_map m) = m_idx m;
  inv_pool : forall k cid, cid ∈ pool (m_rarity_pools m) k <->
               exists card n, card ∈ seen /\ name card = Some n /\
                              m_card_id_map m !! n = Some cid /\ bucket_of card = Some k;
  inv_colors : forall n cid, m_card_id_map m !! n = Some cid ->
                 is_Some (m_card_color_identity m !! cid)
}.

Lemma maps_inv_empty : maps_inv [] empty_maps.
Proof.
  split; cbn; try done.
  intros k cid. split.
  - destruct k; cbn; intros H; inversion H.
  - intros (card & n & H & _). inversion H.
Qed.

Lemma elem_of_pool_append p k cid k' x :
  x ∈ pool (pool_append p k cid) k' <-> x ∈ pool p k' \/ (k' = k /\ x = cid).
Proof.
  destruct k, k'; cbn; rewrite ?elem_of_app, ?list_elem_of_singleton; naive_solver.
Qed.

Lemma all_pool_ids_append p k cid :
  all_pool_ids (pool_append p k cid) ≡ₚ cid :: all_pool_ids p.
Proof.
  unfold all_pool_ids.
  destruct k; cbn [pool_append common uncommon rare mythic basic_land];
    rewrite <- (Permutation_cons_append _ cid); cbn [app];
    by rewrite <- ?Permutation_middle.
Qed.

Lemma known_names_snoc seen card :
  known_names (seen ++ [card]) = known_names seen ++ from_option (fun n => [n]) [] (name card).
Proof.
  unfold known_names. rewrite omap_app. cbn. by destruct (name card).
Qed.

(** One iteration on a record that has a name succeeds and keeps the
    invariant. *)
Lemma build_card_inv seen m card n :
  maps_inv seen m -> name card = Some n ->
  exists m', build_card m card = Ok m' /\ maps_inv (seen ++ [card]) m' /\
    (n ∈ known_names seen ->
       m_card_id_map m' = m_card_id_map m /\ m_id_card_map m' = m_id_card_map m /\
       m_idx m' = m_idx m) /\
    (n ∉ known_names seen ->
       m_card_id_map m' !! n = Some (m_idx m) /\ m_idx m' = S (m_idx m) /\
       all_pool_ids (m_rarity_pools m') ≡ₚ
         from_option (fun _ => [m_idx m]) [] (bucket_of card) ++ all_pool_ids (m_rarity_pools m)).
Proof.
  intros Hinv Hname. unfold build_card. rewrite Hname.
  destruct (m_card_id_map m !! n) as [cid|] eqn:Hn.
  - (* a name seen before *)
    assert (Hseen : n ∈ known_names seen).
    { apply (elem_of_list_to_set (C:=gset string)). rewrite <- (inv_dom _ _ Hinv).
      apply elem_of_dom. eauto. }
    unfold register_name. rewrite Hn. rewrite Hn. eexists. split; [reflexivity|].
    split; [|split; [done|intros Hnot; by destruct Hnot]].
    split; cbn.
    + rewrite known_names_snoc, Hname. cbn. rewrite list_to_set_app_L.
      rewrite (inv_dom _ _ Hinv). cbn. set_solver.
    + apply (inv_there _ _ Hinv).
    + apply (inv_back _ _ Hinv).
    + apply (inv_below _ _ Hinv).
    + apply (inv_size _ _ Hinv).
    + intros k x. destruct (bucket_of card) as [kc|] eqn:Hb.
      * rewrite elem_of_pool_append, (inv_pool _ _ Hinv). split.
        -- intros [(c & n' & Hc & Hn' & Hl & Hk)|[-> ->]].
           ++ exists c, n'. rewrite elem_of_app. eauto.
           ++ exists card, n. rewrite elem_of_app, list_elem_of_singleton. eauto.
        -- intros (c & n' & Hc & Hn' & Hl & Hk).
           apply elem_of_app in Hc as [Hc|Hc%list_elem_of_singleton].
           ++ left. eauto 10.
           ++ subst c. right. rewrite Hname in Hn'. injection Hn' as <-.
              rewrite Hn in Hl. injection Hl as <-. rewrite Hb in Hk. by injection Hk as <-.
      * rewrite (inv_pool _ _ Hinv). split.
        -- intros (c & n' & Hc & Hn' & Hl & Hk). exists c, n'. rewrite elem_of_app. eauto.
        -- intros (c & n' & Hc & Hn' & Hl & Hk).
           apply elem_of_app in Hc as [Hc|Hc%list_elem_of_singleton]; [eauto 10|].
           subst c. congruence.
    + intros n' x Hl. destruct (decide (x = cid)) as [->|Hne].
      * rewrite lookup_insert_eq. eauto.
      * rewrite lookup_insert_ne by done. eapply (inv_colors _ _ Hinv); eauto.
  - (* a new name *)
    assert (Hnew : n ∉ known_names seen).
    { intros Hin. apply (elem_of_list_to_set (C:=gset string)) in Hin.
      rewrite <- (inv_dom _ _ Hinv) in Hin. apply elem_of_dom in Hin as [? Hin]. congruence. }
    assert (Hfresh : forall n', m_card_id_map m !! n' <> Some (m_idx m)).
    { intros n' Hl. apply (inv_below _ _ Hinv) in Hl. lia. }
    assert (Hfresh_id : m_id_card_map m !! m_idx m = None).
    { destruct (m_id_card_map m !! m_idx m) as [n'|] eqn:Hid; [|done].
      apply (inv_back _ _ Hinv) in Hid. by apply Hfresh in Hid. }
    unfold register_name. rewrite Hn. cbn. rewrite lookup_insert_eq.
    eexists. split; [reflexivity|].
    split; [|split; [intros Hin; by destruct Hnew|]].
    + split; cbn.
      * rewrite known_names_snoc, Hname. cbn. rewrite list_to_set_app_L, dom_insert_L.
        rewrite (inv_dom _ _ Hinv). cbn. set_solver.
      * intros n' x. destruct (decide (n' = n)) as [->|Hne].
        -- rewrite lookup_insert_eq. intros [= <-]. by rewrite lookup_insert_eq.
        -- rewrite lookup_insert_ne by done. intros Hl.
           rewrite lookup_insert_ne; [by apply (inv_there _ _ Hinv)|].
           intros <-. by apply Hfresh in Hl.
      * intros n' x. destruct (decide (x = m_idx m)) as [->|Hne].
        -- rewrite lookup_insert_eq. intros [= <-]. by rewrite lookup_insert_eq.
        -- rewrite lookup_insert_ne by done. intros Hl.
           apply (inv_back _ _ Hinv) in Hl as Hl'.
           rewrite lookup_insert_ne; [done|]. intros <-. congruence.
      * intros n' x. destruct (decide (n' = n)) as [->|Hne].
        -- rewrite lookup_insert_eq. intros [= <-]. lia.
        -- rewrite lookup_insert_ne by done. intros Hl%(inv_below _ _ Hinv). lia.
      * rewrite map_size_insert_None by done. by rewrite (inv_size _ _ Hinv).
      * intros k x.
        assert (Hold : (exists c n', c ∈ seen /\ name c = Some n' /\
                           <[n:=m_idx m]> (m_card_id_map m) !! n' = Some x /\ bucket_of c = Some k)
                       <-> x ∈ pool (m_rarity_pools m) k).
        { rewrite (inv_pool _ _ Hinv). split.
          - intros (c & n' & Hc & Hn' & Hl & Hk). exists c, n'.
            rewrite lookup_insert_ne in Hl; [done|]. intros <-. apply Hnew.
            unfold known_names. apply list_elem_of_omap. eauto.
          - intros (c & n' & Hc & Hn' & Hl & Hk). exists c, n'.
            rewrite lookup_insert_ne; [done|]. intros <-. congruence. }
        destruct (bucket_of card) as [kc|] eqn:Hb.
        -- rewrite elem_of_pool_append, <- Hold. split.
           ++ intros [(c & n' & Hc & Hn' & Hl & Hk)|[-> ->]].
              ** exists c, n'. rewrite elem_of_app. eauto.
              ** exists card, n. rewrite elem_of_app, list_elem_of_singleton, lookup_insert_eq. eauto.
           ++ intros (c & n' & Hc & Hn' & Hl & Hk).
              apply elem_of_app in Hc as [Hc|Hc%list_elem_of_singleton]; [left; eauto 10|].
              subst c. right. rewrite Hname in Hn'. injection Hn' as <-.
              rewrite lookup_insert_eq in Hl. injection Hl as <-.
              rewrite Hb in Hk. by injection Hk as <-.
        -- rewrite <- Hold. split.
           ++ intros (c & n' & Hc & Hn' & Hl & Hk). exists c, n'. rewrite elem_of_app. eauto.
           ++ intros (c & n' & Hc & Hn' & Hl & Hk).
              apply elem_of_app in Hc as [Hc|Hc%list_elem_of_singleton]; [eauto 10|].
              subst c. congruence.
      * intros n' x Hl. destruct (decide (n' = n)) as [->|Hne].
        -- rewrite lookup_insert_eq in Hl. injection Hl as <-. rewrite lookup_insert_eq. eauto.
        -- rewrite lookup_insert_ne in Hl by done.
           rewrite lookup_insert_ne by (intros <-; by apply Hfresh in Hl).
           eapply (inv_colors _ _ Hinv); eauto.
    + intros _. split; [cbn; apply lookup_insert_eq|]. split; [done|].
      destruct (bucket_of card); cbn; [apply all_pool_ids_append|done].
Qed.

Definition named (card : CardRecord) : Prop := is_Some (name card).

(** The loop either processes every record, keeping the invariant, or
    stops with [KeyError] at the first record that has no name. *)
Lemma build_loop_spec cards : forall seen m,
  maps_inv seen m ->
  match build_loop m cards with
  | Ok m' => Forall named cards /\ maps_inv (seen ++ cards) m'
  | Raise e => e = KeyError /\ Exists (fun c => name c = None) cards
  end.
Proof.
  induction cards as [|card rest IH]; intros seen m Hinv; cbn.
  - split; [constructor|]. by rewrite app_nil_r.
  - destruct (name card) as [n|] eqn:Hname.
    + destruct (build_card_inv seen m card n Hinv Hname) as (m1 & -> & Hinv1 & _).
      specialize (IH _ _ Hinv1). destruct (build_loop m1 rest) as [m'|e].
      * destruct IH as [Hall Hinv']. split.
        -- constructor; [unfold named; rewrite Hname; eauto|done].
        -- by rewrite <- (assoc_L (++)) in Hinv'.
      * destruct IH as [-> Hex]. split; [done|by apply Exists_cons_tl].
    + unfold build_card. rewrite Hname. split; [done|by apply Exists_cons_hd].
Qed.

Lemma build_maps_inv cards m : _build_maps cards = Ok m -> Forall named cards /\ maps_inv cards m.
Proof.
  intros H. pose proof (build_loop_spec cards [] empty_maps maps_inv_empty) as Hs.
  unfold _build_maps in H. by rewrite H in Hs.
Qed.

Lemma pool_ids_below seen m k cid :
  maps_inv seen m -> cid ∈ pool (m_rarity_pools m) k ->
  cid < m_idx m /\ is_Some (m_card_color_identity m !! cid).
Proof.
  intros Hinv (card & n & _ & _ & Hl & _)%(inv_pool _ _ Hinv).
  split; [by eapply inv_below|by eapply inv_colors].
Qed.

Lemma elem_of_all_pool_ids p cid :
  cid ∈ all_pool_ids p <-> exists k, cid ∈ pool p k.
Proof.
  unfold all_pool_ids. rewrite !elem_of_app. split.
  - intros [H|[H|[H|[H|H]]]];
      [by exists Common|by exists Uncommon|by exists Rare|by exists Mythic|by exists BasicLand].
  - intros [[] H]; cbn in H; tauto.
Qed.

(** With pairwise distinct names no identity is filed twice. *)
Lemma build_loop_distinct cards : forall seen m m',
  maps_inv seen m -> NoDup (all_pool_ids (m_rarity_pools m)) ->
  NoDup (known_names (seen ++ cards)) ->
  build_loop m cards = Ok m' -> NoDup (all_pool_ids (m_rarity_pools m')).
Proof.
  induction cards as [|card rest IH]; intros seen m m' Hinv Hnd Hnames; cbn.
  - by intros [= <-].
  - destruct (build_card m card) as [m1|e] eqn:Hcard; [|done]. intros Hloop.
    destruct (name card) as [n|] eqn:Hname; [|unfold build_card in Hcard; by rewrite Hname in Hcard].
    destruct (build_card_inv seen m card n Hinv Hname) as (m1' & Hcard' & Hinv1 & _ & Hfresh).
    rewrite Hcard in Hcard'. injection Hcard' as <-.
    assert (Hnew : n ∉ known_names seen).
    { unfold known_names in *. rewrite omap_app in Hnames. cbn in Hnames. rewrite Hname in Hnames.
      apply NoDup_app in Hnames as (_ & Hdisj & _). intros Hin. apply (Hdisj _ Hin). left. }
    destruct (Hfresh Hnew) as (_ & _ & Hperm).
    apply (IH (seen ++ [card]) m1 m' Hinv1); [|by rewrite <- (assoc_L (++))|done].
    rewrite Hperm. destruct (bucket_of card); cbn; [|done].
    apply NoDup_cons. split; [|done].
    intros (k & Hin)%elem_of_all_pool_ids. apply (pool_ids_below _ _ _ _ Hinv) in Hin. lia.
Qed.

Lemma omap_NoDup_inj {A B} (f : A -> option B) (l : list A) x y b :
  NoDup (omap f l) -> x ∈ l -> y ∈ l -> f x = Some b -> f y = Some b -> x = y.
Proof.
  induction l as [|a l IH]; intros Hnd Hx Hy Hfx Hfy; [by inversion Hx|].
  cbn in Hnd. apply elem_of_cons in Hx, Hy.
  destruct (f a) as [b'|] eqn:Hfa.
  - apply NoDup_cons in Hnd as [Hnotin Hnd].
    destruct Hx as [->|Hx], Hy as [->|Hy]; [done| | |by apply IH].
    + exfalso. apply Hnotin. apply list_elem_of_omap. exists y. split; [done|congruence].
    + exfalso. apply Hnotin. apply list_elem_of_omap. exists x. split; [done|congruence].
  - destruct Hx as [->|Hx]; [congruence|]. destruct Hy as [->|Hy]; [congruence|]. by apply IH.
Qed.

(** A record with the four keys present. *)
Definition card_record (n : string) (ci : list string) (r : string) (flag : bool) : CardRecord :=
  {| name := Some n; color_identity := Some ci; rarity := Some r; is_basic_land := Some flag |}.

(** A record whose [name] key is missing. *)
Definition nameless_record : CardRecord :=
  {| name := None; color_identity := Some ["G"]; rarity := Some "common"; is_basic_land := None |}.

Lemma named_not_nameless (l : list CardRecord) :
  Forall named l -> Exists (fun c => name c = None) l -> False.
Proof.
  intros Hall (c & Hin & Hc)%Exists_exists. rewrite Forall_forall in Hall.
  destruct (Hall c Hin) as [n Hn]. congruence.
Qed.

(** C6 (as amended): a catalog containing a record without a [name] key
    makes [_build_maps], and with it the construction of the environment,
    raise the built-in [KeyError] of the failed lookup, whatever records
    come before or after; when every record has a name the build returns
    its four structures. *)
Theorem build_maps_failure_mode (cards : list CardRecord) :
  (Exists (fun c => name c = None) cards ->
     _build_maps cards = Raise KeyError /\
     forall (RS : RandomSource) (g : rng), init cards g = Raise KeyError) /\
  (Forall named cards -> exists m, _build_maps cards = Ok m).
Proof.
  pose proof (build_loop_spec cards [] empty_maps maps_inv_empty) as Hs.
  fold (_build_maps cards) in Hs. split.
  - intros Hex. destruct (_build_maps cards) as [m|e] eqn:Hb.
    + destruct Hs as [Hall _]. by destruct (named_not_nameless _ Hall Hex).
    + destruct Hs as [-> _]. split; [done|]. intros RS g. unfold init. by rewrite Hb.
  - intros Hall. destruct (_build_maps cards) as [m|e]; [eauto|].
    destruct Hs as [_ Hex]. by destruct (named_not_nameless _ Hall Hex).
Qed.

Lemma build_maps_failure_mode_witness :
  (_build_maps [card_record "Forest" ["G"] "common" true; nameless_record] = Raise KeyError /\
   forall (RS : RandomSource) (g : rng),
     init [card_record "Forest" ["G"] "common" true; nameless_record] g = Raise KeyError) /\
  exists m, _build_maps [card_record "Forest" ["G"] "common" true] = Ok m.
Proof.
  split.
  - apply (proj1 (build_maps_failure_mode _)).
    apply Exists_cons_tl, Exists_cons_hd. reflexivity.
  - apply (proj2 (build_maps_failure_mode _)).
    repeat constructor. unfold named. cbn. eauto.
Defined.

(** C6, as stated, fails: the exception raised for a nameless record is
    the built-in [KeyError], not a dedicated catalog error class. *)
Lemma build_maps_raises_no_CatalogError :
  Exists (fun c => name c = None) [nameless_record] /\
  _build_maps [nameless_record] = Raise (PyExc "KeyError") /\
  _build_maps [nameless_record] <> Raise (PyExc "CatalogError").
Proof.
  split; [by apply Exists_cons_hd|]. split; [reflexivity|]. cbn. discriminate.
Qed.

(** C7: when the build returns, the two maps are inverse to each other on
    the names of the catalog, the number of identities is the number of
    distinct names, and a record whose name was seen before changes
    neither map nor the next identity. *)
Theorem build_maps_round_trip (cards : list CardRecord) (m : Maps) :
  _build_maps cards = Ok m ->
  (forall n, n ∈ known_names cards ->
     exists cid, m_card_id_map m !! n = Some cid /\ m_id_card_map m !! cid = Some n) /\
  (forall cid n, m_id_card_map m !! cid = Some n -> m_card_id_map m !! n = Some cid) /\
  m_idx m = size (list_to_set (known_names cards) : gset string) /\
  (forall l1 card l2 n m1,
     cards = l1 ++ card :: l2 -> name card = Some n -> n ∈ known_names l1 ->
     _build_maps l1 = Ok m1 ->
     exists m2, build_card m1 card = Ok m2 /\
       m_card_id_map m2 = m_card_id_map m1 /\ m_id_card_map m2 = m_id_card_map m1 /\
       m_idx m2 = m_idx m1).
Proof.
  intros Hb. destruct (build_maps_inv _ _ Hb) as [_ Hinv]. repeat split.
  - intros n Hn. apply (elem_of_list_to_set (C:=gset string)) in Hn.
    rewrite <- (inv_dom _ _ Hinv) in Hn. apply elem_of_dom in Hn as [cid Hcid].
    exists cid. split; [done|by apply (inv_there _ _ Hinv)].
  - intros cid n. apply (inv_back _ _ Hinv).
  - rewrite <- (inv_size _ _ Hinv), <- (inv_dom _ _ Hinv). symmetry. apply size_dom.
  - intros l1 card l2 n m1 _ Hname Hseen Hb1.
    destruct (build_maps_inv _ _ Hb1) as [_ Hinv1].
    destruct (build_card_inv l1 m1 card n Hinv1 Hname) as (m2 & Hc & _ & Hsame & _).
    exists m2. split; [done|]. by apply Hsame.
Qed.

Lemma build_maps_round_trip_witness :
  exists m,
    _build_maps [card_record "Opt" ["U"] "common" false;
                 card_record "Shock" ["R"] "common" false;
                 card_record "Opt" ["U"] "uncommon" false] = Ok m /\
    m_card_id_map m !! "Opt" = Some 0 /\ m_id_card_map m !! 0 = Some "Opt" /\
    m_idx m = 2.
Proof.
  eexists. split; [reflexivity|].
  pose proof (build_maps_round_trip
                [card_record "Opt" ["U"] "common" false;
                 card_record "Shock" ["R"] "common" false;
                 card_record "Opt" ["U"] "uncommon" false] _ eq_refl) as (_ & _ & Hidx & _).
  split; [reflexivity|]. split; [reflexivity|]. rewrite Hidx. reflexivity.
Defined.

End CatalogFacts.
(** ** Sampling *)

Section RandomFacts.
Context {RS : RandomSource}.

Lemma choice_spec {A} (l : list A) (g : rng) :
  l <> [] -> exists x g', choice l g = (Ok x, g') /\ x ∈ l.
Proof.
  intros Hne. unfold choice. destruct l as [|a l]; [done|].
  pose proof (randbelow_lt (length (a :: l)) g ltac:(cbn; lia)) as Hlt.
  destruct (randbelow (length (a :: l)) g) as [j g'] eqn:Hr. cbn [fst] in Hlt.
  destruct (lookup_lt_is_Some_2 (a :: l) j Hlt) as [x Hx].
  exists x, g'. unfold index. rewrite Hx. split; [done|].
  by eapply list_elem_of_lookup_2.
Qed.

(** Taking the element at [j] and moving the last one into its place
    removes exactly that element from the pool. *)
Lemma swap_out_Permutation {A} (pool : list A) (j : nat) (x y : A) :
  pool !! j = Some x -> pool !! (length pool - 1) = Some y ->
  x :: take (length pool - 1) (<[j := y]> pool) ≡ₚ pool.
Proof.
  intros Hj Hlast.
  pose proof (Permutation_insert_swap pool j (length pool - 1) x y Hj Hlast) as Hperm.
  assert (Hlen : 0 < length pool) by (apply lookup_lt_Some in Hj; lia).
  rewrite insert_take_drop in Hperm by (rewrite length_insert; lia).
  rewrite drop_ge in Hperm by (rewrite length_insert; lia).
  etrans; [apply Permutation_cons_append|]. exact Hperm.
Qed.

Lemma sample_loop_spec {A} (k : nat) : forall (pool : list A) (g : rng),
  k <= length pool ->
  exists rest, length (sample_loop k pool g).1 = k /\ (sample_loop k pool g).1 ++ rest ≡ₚ pool.
Proof.
  induction k as [|k IH]; intros pool g Hk; cbn [sample_loop].
  - exists pool. by split.
  - pose proof (randbelow_lt (length pool) g ltac:(lia)) as Hlt.
    destruct (randbelow (length pool) g) as [j g1]. cbn [fst] in Hlt.
    destruct (lookup_lt_is_Some_2 pool j Hlt) as [x Hx].
    destruct (lookup_lt_is_Some_2 pool (length pool - 1) ltac:(lia)) as [y Hy].
    rewrite Hx, Hy.
    destruct (IH (take (length pool - 1) (<[j := y]> pool)) g1) as (rest & Hlen & Hperm).
    { rewrite length_take, length_insert. lia. }
    destruct (sample_loop k _ g1) as [r g2]. cbn [fst] in *.
    exists rest. split; [by rewrite <- Hlen|].
    cbn. rewrite Hperm. by apply swap_out_Permutation.
Qed.

Lemma sample_spec {A} (population : list A) (k : nat) (g : rng) :
  k <= length population ->
  exists r g' rest, sample population k g = (Ok r, g') /\ length r = k /\ r ++ rest ≡ₚ population.
Proof.
  intros Hk. unfold sample. rewrite decide_True by done.
  destruct (sample_loop_spec k population g Hk) as (rest & Hlen & Hperm).
  destruct (sample_loop k population g) as [r g']. cbn [fst] in *. by exists r, g', rest.
Qed.

End RandomFacts.
(** ** Pack generation *)

Section PackFacts.
Context {RS : RandomSource}.

Lemma draw_basic_land_spec (pools : RarityPools) (g : rng) :
  exists lands g', draw_basic_land pools g = (Ok lands, g') /\
    length lands = length (basic_land pools) `min` 1 /\ lands ⊆ basic_land pools.
Proof.
  unfold draw_basic_land. destruct (basic_land pools) as [|a l] eqn:Hp.
  - exists [], g. split; [done|]. split; [done|]. by intros y Hy.
  - destruct (choice_spec (a :: l) g ltac:(done)) as (x & g' & Hc & Hx).
    exists [x], g'. unfold bind. rewrite Hc. split; [done|]. split; [cbn; lia|].
    intros y ->%list_elem_of_singleton. done.
Qed.

Lemma draw_rare_or_mythic_spec (pools : RarityPools) (g : rng) :
  exists rares g', draw_rare_or_mythic pools g = (Ok rares, g') /\
    length rares = length (rare pools ++ mythic pools) `min` 1 /\
    rares ⊆ rare pools ++ mythic pools.
Proof.
  unfold draw_rare_or_mythic. destruct (rare pools ++ mythic pools) as [|a l] eqn:Hp.
  - exists [], g. split; [done|]. split; [done|]. by intros y Hy.
  - destruct (choice_spec (a :: l) g ltac:(done)) as (x & g' & Hc & Hx).
    exists [x], g'. unfold bind. rewrite Hc. split; [done|]. split; [cbn; lia|].
    intros y ->%list_elem_of_singleton. done.
Qed.

(** Up to [k] members of a pool, chosen by position without replacement:
    all of them when the pool has fewer than [k]. *)
Lemma draw_up_to_spec (population : list nat) (k : nat) (g : rng) :
  exists drawn g' rest,
    (if decide (k <= length population) then sample population k else ret population) g
      = (Ok drawn, g') /\
    length drawn = length population `min` k /\
    drawn ++ rest ≡ₚ population /\
    (length population < k -> drawn = population).
Proof.
  destruct (decide (k <= length population)) as [Hk|Hk].
  - destruct (sample_spec population k g Hk) as (r & g' & rest & Hs & Hlen & Hperm).
    exists r, g', rest. repeat split; [done|lia|done|lia].
  - exists population, g, []. repeat split; [lia|by rewrite app_nil_r].
Qed.

Lemma ensure_length_length (pack_ids : list nat) :
  length (ensure_length pack_ids) = cards_per_pack.
Proof.
  unfold ensure_length. rewrite length_app, length_fmap, length_replicate, length_take.
  unfold cards_per_pack. lia.
Qed.

Lemma ensure_length_short (pack_ids : list nat) :
  length pack_ids <= cards_per_pack ->
  ensure_length pack_ids
    = (Some <$> pack_ids) ++ replicate (cards_per_pack - length pack_ids) None.
Proof. intros H. unfold ensure_length. by rewrite take_ge. Qed.

(** The four draws of [make_pack] never raise, and never fill more than
    the fifteen slots. *)
Lemma make_pack_from_spec (pools : RarityPools) (g : rng) :
  exists lands commons uncommons rares g1 g2 g3 g' rest_c rest_u,
    draw_basic_land pools g = (Ok lands, g1) /\
    draw_commons pools g1 = (Ok commons, g2) /\
    draw_uncommons pools g2 = (Ok uncommons, g3) /\
    draw_rare_or_mythic pools g3 = (Ok rares, g') /\
    make_pack_from pools g
      = (Ok ((Some <$> lands ++ commons ++ uncommons ++ rares)
             ++ replicate (cards_per_pack - length (lands ++ commons ++ uncommons ++ rares)) None),
         g') /\
    length (lands ++ commons ++ uncommons ++ rares) <= cards_per_pack /\
    (length lands = length (basic_land pools) `min` 1 /\ lands ⊆ basic_land pools) /\
    (length commons = length (common pools) `min` 10 /\ commons ++ rest_c ≡ₚ common pools /\
     (length (common pools) < 10 -> commons = common pools)) /\
    (length uncommons = length (uncommon pools) `min` 3 /\ uncommons ++ rest_u ≡ₚ uncommon pools /\
     (length (uncommon pools) < 3 -> uncommons = uncommon pools)) /\
    (length rares = length (rare pools ++ mythic pools) `min` 1 /\
     rares ⊆ rare pools ++ mythic pools).
Proof.
  destruct (draw_basic_land_spec pools g) as (lands & g1 & Hl & Hl1 & Hl2).
  destruct (draw_up_to_spec (common pools) 10 g1) as (commons & g2 & rest_c & Hc & Hc1 & Hc2 & Hc3).
  destruct (draw_up_to_spec (uncommon pools) 3 g2) as (uncommons & g3 & rest_u & Hu & Hu1 & Hu2 & Hu3).
  destruct (draw_rare_or_mythic_spec pools g3) as (rares & g' & Hr & Hr1 & Hr2).
  exists lands, commons, uncommons, rares, g1, g2, g3, g', rest_c, rest_u.
  assert (Hlen : length (lands ++ commons ++ uncommons ++ rares) <= cards_per_pack).
  { rewrite !length_app. unfold cards_per_pack. lia. }
  split; [done|]. split; [done|]. split; [done|]. split; [done|].
  split; [|done].
  unfold make_pack_from, bind, ret. rewrite Hl.
  unfold draw_commons, draw_uncommons in *. rewrite Hc, Hu, Hr.
  by rewrite ensure_length_short.
Qed.

Lemma NoDup_drawn (drawn rest population : list nat) :
  drawn ++ rest ≡ₚ population -> NoDup population -> NoDup drawn /\ drawn ⊆ population.
Proof.
  intros Hperm Hnd. rewrite <- Hperm in Hnd. apply NoDup_app in Hnd as (Hnd & _ & _).
  split; [done|]. intros x Hx. rewrite <- Hperm. apply elem_of_app. by left.
Qed.

Lemma make_pack_unfold (s : DraftEnv) (pack : Pack) (g' : rng) :
  make_pack_from (rarity_pools s) (random_state s) = (Ok pack, g') ->
  make_pack s = (Ok pack, set_random_state g' s).
Proof. intros H. unfold make_pack, bind, gets, with_random. by rewrite H. Qed.

(** C5: on any environment, whatever its pools hold, [make_pack] returns
    (it never raises) a pack of exactly fifteen slots: the identities
    drawn, then [None] in the slots left. A pool smaller than its nominal
    draw contributes all its members, and an empty basic-land pool
    contributes nothing. *)
Theorem make_pack_fifteen_slots (s : DraftEnv) :
  exists (lands commons uncommons rares : list nat) (g' : rng),
    let pools := rarity_pools s in
    let drawn := lands ++ commons ++ uncommons ++ rares in
    let pack := (Some <$> drawn) ++ replicate (cards_per_pack - length drawn) None in
    make_pack s = (Ok pack, set_random_state g' s) /\
    length pack = 15 /\
    length lands = length (basic_land pools) `min` 1 /\
    length commons = length (common pools) `min` 10 /\
    length uncommons = length (uncommon pools) `min` 3 /\
    length rares = length (rare pools ++ mythic pools) `min` 1 /\
    (basic_land pools = [] -> lands = []) /\
    (length (common pools) < 10 -> commons = common pools) /\
    (length (uncommon pools) < 3 -> uncommons = uncommon pools).
Proof.
  destruct (make_pack_from_spec (rarity_pools s) (random_state s))
    as (lands & commons & uncommons & rares & g1 & g2 & g3 & g' & rest_c & rest_u &
        _ & _ & _ & _ & Hpack & Hlen & (Hl & _) & (Hc & _ & Hc') & (Hu & _ & Hu') & (Hr & _)).
  exists lands, commons, uncommons, rares, g'. cbn zeta.
  split; [by apply make_pack_unfold|].
  split. { rewrite length_app, length_fmap, length_replicate. unfold cards_per_pack in *. lia. }
  repeat (split; [done|]). split; [|done].
  intros Hnil. rewrite Hnil in Hl. by destruct lands.
Qed.

(** C4 (as amended): for a catalog whose records carry pairwise distinct
    names, the commons drawn into a pack are pairwise distinct members of
    the common pool and the uncommons drawn are pairwise distinct members
    of the uncommon pool; no identity is filed twice, in one pool or in
    two; and the identity of a record lies in a pool exactly when the
    record is flagged basic land or carries a recognized rarity label,
    and then in that pool only. *)
Theorem make_pack_distinct_within_class (cards : list CardRecord) (m : Maps) (g : rng) :
  _build_maps cards = Ok m -> NoDup (known_names cards) ->
  let pools := m_rarity_pools m in
  (exists lands commons uncommons rares g1 g2 g3 g',
     draw_basic_land pools g = (Ok lands, g1) /\
     draw_commons pools g1 = (Ok commons, g2) /\
     draw_uncommons pools g2 = (Ok uncommons, g3) /\
     draw_rare_or_mythic pools g3 = (Ok rares, g') /\
     make_pack_from pools g
       = (Ok ((Some <$> lands ++ commons ++ uncommons ++ rares)
              ++ replicate (cards_per_pack - length (lands ++ commons ++ uncommons ++ rares)) None),
          g') /\
     NoDup commons /\ commons ⊆ common pools /\
     NoDup uncommons /\ uncommons ⊆ uncommon pools) /\
  NoDup (all_pool_ids pools) /\
  (forall card n cid k,
     card ∈ cards -> name card = Some n -> m_card_id_map m !! n = Some cid ->
     (cid ∈ pool pools k <-> bucket_of card = Some k)).
Proof.
  intros Hb Hnames pools.
  destruct (build_maps_inv _ _ Hb) as [_ Hinv].
  assert (Hnd : NoDup (all_pool_ids pools)).
  { apply (build_loop_distinct cards [] empty_maps m maps_inv_empty); [constructor|done|done]. }
  split; [|split; [done|]].
  - destruct (make_pack_from_spec pools g)
      as (lands & commons & uncommons & rares & g1 & g2 & g3 & g' & rest_c & rest_u &
          H1 & H2 & H3 & H4 & Hpack & _ & _ & (_ & Hc & _) & (_ & Hu & _) & _).
    exists lands, commons, uncommons, rares, g1, g2, g3, g'.
    repeat (split; [done|]).
    unfold all_pool_ids in Hnd.
    apply NoDup_app in Hnd as (Hndc & _ & Hnd). apply NoDup_app in Hnd as (Hndu & _ & _).
    destruct (NoDup_drawn _ _ _ Hc Hndc). destruct (NoDup_drawn _ _ _ Hu Hndu). done.
  - intros card n cid k Hin Hname Hcid. unfold pools. rewrite (inv_pool _ _ Hinv). split.
    + intros (card' & n' & Hin' & Hname' & Hcid' & Hk).
      assert (n' = n) as ->.
      { apply (inv_there _ _ Hinv) in Hcid, Hcid'. congruence. }
      by rewrite (omap_NoDup_inj name cards card card' n Hnames Hin Hin' Hname Hname').
    + intros Hk. by exists card, n.
Qed.

End PackFacts.
(** ** The draft table *)

Section TableFacts.
Context {RS : RandomSource}.
Variable run_matches : list (option nat) -> result (list (string * nat * nat)).

(** *** Shapes *)

Definition slot_ok (n : nat) (c : option nat) : Prop :=
  match c with Some cid => cid < n | None => True end.

Definition pack_ok (n : nat) (p : Pack) : Prop :=
  length p = cards_per_pack /\ Forall (slot_ok n) p.

Definition round_ok (n : nat) (r : list Pack) : Prop :=
  length r = num_players /\ Forall (pack_ok n) r.

Definition packs_ok (n : nat) (packs : list (list Pack)) : Prop :=
  length packs = num_packs /\ Forall (round_ok n) packs.

Definition holder_ok (h : list nat) : Prop :=
  length h = num_players /\ Forall (fun i => i < num_players) h.

(** The table as [reset] builds it and [step] keeps it. *)
Record table_ok (s : DraftEnv) : Prop := {
  ok_holder : exists h, pack_holder s = Some (Some <$> h) /\ holder_ok h;
  ok_packs : exists packs, all_packs_by_round s = Some packs /\ packs_ok (num_cards_total s) packs;
  ok_picks : Forall (fun cid => cid < num_cards_total s) (user_picks s);
  ok_pick_idx : pick_idx s < cards_per_pack;
  ok_round : if done_drafting s then round_idx s = num_packs /\ pick_idx s = 0
             else round_idx s < num_packs
}.

Lemma enumerate_lookup {A} (l : list A) (i : nat) (x : A) :
  (i, x) ∈ enumerate l <-> l !! i = Some x.
Proof.
  unfold enumerate, zip. rewrite list_elem_of_lookup. split.
  - intros (j & Hj). apply lookup_zip_with_Some in Hj as (a & b & [= -> ->] & Ha & Hb).
    apply lookup_seq in Ha as [-> _]. done.
  - intros Hx. exists i. apply lookup_zip_with_Some. exists i, x.
    split; [done|]. split; [|done]. apply lookup_seq. split; [done|].
    by eapply lookup_lt_Some.
Qed.

Lemma foldM_inv {A B} (P : B -> Prop) (Q : A -> Prop) (f : B -> A -> result B)
    (l : list A) (b : B) :
  P b -> Forall Q l ->
  (forall b x, P b -> Q x -> exists b', f b x = Ok b' /\ P b') ->
  exists b', foldM f l b = Ok b' /\ P b'.
Proof.
  intros Hb Hl Hf. revert b Hb. induction Hl as [|x l Hx Hl IH]; intros b Hb; cbn.
  - eauto.
  - destruct (Hf b x Hb Hx) as (b1 & -> & Hb1). by apply IH.
Qed.

(** *** The observation is always built *)

Definition obs_shape (n : nat) (obs : Obs) : Prop :=
  length obs = 60 /\ Forall (fun row => length row = n) obs.

Lemma zeros_shape (n : nat) : obs_shape n (zeros 60 n).
Proof.
  split; [apply length_replicate|]. apply Forall_replicate, length_replicate.
Qed.

Lemma set_one_ok (n : nat) (obs : Obs) (i c : nat) :
  obs_shape n obs -> i < 60 -> c < n ->
  exists obs', set_one obs i c = Ok obs' /\ obs_shape n obs'.
Proof.
  intros [Hlen Hrows] Hi Hc. unfold set_one.
  destruct (lookup_lt_is_Some_2 obs i ltac:(lia)) as [row Hrow]. rewrite Hrow.
  pose proof (Forall_lookup_1 _ _ _ _ Hrows Hrow) as Hr. cbn in Hr.
  rewrite decide_True by lia. eexists. split; [done|]. split.
  - by rewrite length_insert.
  - apply Forall_insert; [done|]. by rewrite length_insert.
Qed.

Lemma mark_picks_ok (n : nat) (picks : list nat) (obs : Obs) :
  obs_shape n obs -> Forall (fun cid => cid < n) picks ->
  exists obs', mark_picks picks obs = Ok obs' /\ obs_shape n obs'.
Proof.
  intros Hobs Hpicks. unfold mark_picks.
  apply (foldM_inv (obs_shape n) (fun ic => ic.2 < n)); [done| |].
  - apply Forall_forall. intros [i cid] Hin%enumerate_lookup.
    by apply (Forall_lookup_1 _ _ _ _ Hpicks Hin).
  - intros b [i cid] Hb Hcid. cbn in Hcid. destruct (decide (i < 45)); [|eauto].
    apply (set_one_ok n); [done|lia|done].
Qed.

Lemma mark_pack_ok (n : nat) (user_pack : Pack) (obs : Obs) :
  obs_shape n obs -> Forall (slot_ok n) user_pack ->
  exists obs', mark_pack user_pack obs = Ok obs' /\ obs_shape n obs'.
Proof.
  intros Hobs Hpack. unfold mark_pack.
  apply (foldM_inv (obs_shape n) (fun ic => slot_ok n ic.2)); [done| |].
  - apply Forall_forall. intros [i c] Hin%enumerate_lookup.
    by apply (Forall_lookup_1 _ _ _ _ Hpack Hin).
  - intros b [i [cid|]] Hb Hc; cbn in Hc; [|eauto].
    destruct (decide (45 + i < 60)); [|eauto].
    apply (set_one_ok n); [done|lia|done].
Qed.

(** What a seat holds, on a well-formed table in progress. *)
Lemma seat_pack_ok (s : DraftEnv) (seat : nat) :
  table_ok s -> round_idx s < num_packs -> seat < num_players ->
  exists i p packs round_packs,
    seat_pack seat s = Ok (i, p) /\ i < num_players /\ pack_ok (num_cards_total s) p /\
    all_packs_by_round s = Some packs /\ packs !! round_idx s = Some round_packs /\
    round_packs !! i = Some p.
Proof.
  intros Hok Hround Hseat.
  destruct (ok_holder _ Hok) as (h & Hh & Hhlen & Hhall).
  destruct (ok_packs _ Hok) as (packs & Hp & Hplen & Hpall).
  destruct (lookup_lt_is_Some_2 h seat ltac:(lia)) as [i Hi].
  pose proof (Forall_lookup_1 _ _ _ _ Hhall Hi) as Hilt. cbn in Hilt.
  destruct (lookup_lt_is_Some_2 packs (round_idx s) ltac:(lia)) as [round_packs Hr].
  destruct (Forall_lookup_1 _ _ _ _ Hpall Hr) as [Hrlen Hrall].
  destruct (lookup_lt_is_Some_2 round_packs i ltac:(lia)) as [p Hpk].
  pose proof (Forall_lookup_1 _ _ _ _ Hrall Hpk) as Hpok.
  exists i, p, packs, round_packs. unfold seat_pack, index.
  rewrite Hh, list_lookup_fmap, Hi, Hp, Hr. cbn. rewrite Hpk. done.
Qed.

Lemma build_observation_ok (s : DraftEnv) :
  table_ok s -> exists obs, _build_observation s = Ok obs.
Proof.
  intros Hok. unfold _build_observation.
  destruct (mark_picks_ok _ _ _ (zeros_shape (num_cards_total s)) (ok_picks _ Hok))
    as (obs & -> & Hobs).
  pose proof (ok_round _ Hok) as Hround.
  destruct (done_drafting s); [eauto|].
  destruct (seat_pack_ok s 0 Hok Hround ltac:(unfold num_players; lia))
    as (i & p & packs & rp & -> & _ & [_ Hp] & _).
  destruct (mark_pack_ok _ _ _ Hobs Hp) as (obs' & -> & _). eauto.
Qed.

(** *** Early returns of [step] *)

(** The card an action would take: [None] when [step] would not accept it. *)
Definition current_slot (s : DraftEnv) (action : Z) : option nat :=
  if done_drafting s then None
  else if decide (action < 0 \/ action >= Z.of_nat cards_per_pack)%Z then None
  else
    match seat_pack 0 s with
    | Ok (_, user_pack) => mjoin (user_pack !! Z.to_nat action)
    | Raise _ => None
    end.

Definition accepted (s : DraftEnv) (action : Z) : Prop := is_Some (current_slot s action).

(** The attributes that neither [reset] nor [step] assigns. *)
Definition same_catalog (s s' : DraftEnv) : Prop :=
  card_id_map s' = card_id_map s /\ id_card_map s' = id_card_map s /\
  rarity_pools s' = rarity_pools s /\ card_color_identity s' = card_color_identity s /\
  num_cards_total s' = num_cards_total s.

Lemma step_terminal (s : DraftEnv) (action : Z) :
  table_ok s -> done_drafting s = true ->
  exists obs, _build_observation s = Ok obs /\
    step run_matches action s = (Ok (Tuple4 obs 0%float true), s).
Proof.
  intros Hok Hdone. destruct (build_observation_ok s Hok) as [obs Hobs].
  exists obs. split; [done|].
  unfold step, bind, gets, reader, ret. by rewrite Hdone, Hobs.
Qed.

Lemma step_reject (s : DraftEnv) (action : Z) :
  table_ok s -> done_drafting s = false ->
  ((action < 0 \/ action >= 15)%Z \/
   exists i p, seat_pack 0 s = Ok (i, p) /\ p !! Z.to_nat action = Some None) ->
  exists obs, _build_observation s = Ok obs /\
    step run_matches action s = (Ok (Tuple4 obs (-1)%float false), s).
Proof.
  intros Hok Hdone Hbad. destruct (build_observation_ok s Hok) as [obs Hobs].
  exists obs. split; [done|].
  pose proof (ok_round _ Hok) as Hround. rewrite Hdone in Hround.
  destruct (seat_pack_ok s 0 Hok Hround ltac:(unfold num_players; lia))
    as (i & p & packs & rp & Hsp & _ & [Hplen _] & _).
  unfold step, bind, gets, reader, ret. rewrite Hdone, Hsp.
  destruct (decide (action < 0 \/ action >= Z.of_nat cards_per_pack)%Z) as [Hout|Hin].
  - unfold reject, bind, reader, ret. by rewrite Hobs.
  - destruct Hbad as [Hout|(i' & p' & Hsp' & Hslot)].
    + destruct Hin. unfold cards_per_pack. lia.
    + rewrite Hsp in Hsp'. injection Hsp' as <- <-.
      unfold lift, index. rewrite Hslot.
      unfold reject, bind, reader, ret. by rewrite Hobs.
Qed.

(** *** The accepted path *)

Lemma packs_ok_clear (n : nat) (packs : list (list Pack)) (r i j : nat) :
  packs_ok n packs -> packs_ok n (alter (alter (<[j := None]>) i) r packs).
Proof.
  intros [Hlen Hall]. split; [by rewrite length_alter|].
  apply Forall_alter; [done|]. intros round_packs _ [Hrlen Hrall].
  split; [by rewrite length_alter|].
  apply Forall_alter; [done|]. intros p _ [Hplen Hpall].
  split; [by rewrite length_insert|]. by apply Forall_insert.
Qed.

Lemma seat_pack_shape (s : DraftEnv) (seat n : nat) h packs :
  pack_holder s = Some (Some <$> h) -> holder_ok h ->
  all_packs_by_round s = Some packs -> packs_ok n packs ->
  round_idx s < num_packs -> seat < num_players ->
  exists i p, seat_pack seat s = Ok (i, p) /\ pack_ok n p.
Proof.
  intros Hh [Hhlen Hhall] Hp [Hplen Hpall] Hround Hseat.
  destruct (lookup_lt_is_Some_2 h seat ltac:(lia)) as [i Hi].
  pose proof (Forall_lookup_1 _ _ _ _ Hhall Hi) as Hilt. cbn in Hilt.
  destruct (lookup_lt_is_Some_2 packs (round_idx s) ltac:(lia)) as [round_packs Hr].
  destruct (Forall_lookup_1 _ _ _ _ Hpall Hr) as [Hrlen Hrall].
  destruct (lookup_lt_is_Some_2 round_packs i ltac:(lia)) as [p Hpk].
  pose proof (Forall_lookup_1 _ _ _ _ Hrall Hpk) as Hpok.
  exists i, p. unfold seat_pack, index.
  rewrite Hh, list_lookup_fmap, Hi, Hp, Hr. cbn. rewrite Hpk. done.
Qed.

(** The table after some seats have picked: only packs and generator
    have changed. *)
Definition picked (packs : list (list Pack)) (g : rng) (s : DraftEnv) : DraftEnv :=
  set_random_state g (set_all_packs_by_round (Some packs) s).

Lemma picked_same (s : DraftEnv) packs :
  all_packs_by_round s = Some packs -> picked packs (random_state s) s = s.
Proof. intros H. destruct s. cbn in *. by subst. Qed.

Lemma other_seat_pick_spec (s : DraftEnv) (seat n : nat) h packs :
  pack_holder s = Some (Some <$> h) -> holder_ok h ->
  all_packs_by_round s = Some packs -> packs_ok n packs ->
  round_idx s < num_packs -> seat < num_players ->
  exists packs' g',
    other_seat_pick seat s = (Ok tt, picked packs' g' s) /\ packs_ok n packs'.
Proof.
  intros Hh Hhok Hp Hpok Hround Hseat.
  destruct (seat_pack_shape s seat n h packs Hh Hhok Hp Hpok Hround Hseat) as (i & p & Hsp & _).
  unfold other_seat_pick, bind, reader. rewrite Hsp.
  destruct (fst <$> filter (fun ic => slot_filled ic.2 = true) (enumerate p)) as [|v vs] eqn:Hvs.
  - exists packs, (random_state s). by rewrite picked_same.
  - destruct (choice_spec (v :: vs) (random_state s) ltac:(done)) as (chosen & g' & Hc & _).
    unfold with_random. rewrite Hc. unfold modify, clear_slot. cbn. rewrite Hp. cbn.
    eexists _, g'. split; [reflexivity|]. by apply packs_ok_clear.
Qed.

Lemma others_pick_spec (seats : list nat) : forall (s : DraftEnv) (n : nat) h packs,
  pack_holder s = Some (Some <$> h) -> holder_ok h ->
  all_packs_by_round s = Some packs -> packs_ok n packs ->
  round_idx s < num_packs -> Forall (fun seat => seat < num_players) seats ->
  exists packs' g',
    for_each seats other_seat_pick s = (Ok tt, picked packs' g' s) /\ packs_ok n packs'.
Proof.
  induction seats as [|seat seats IH]; intros s n h packs Hh Hhok Hp Hpok Hround Hseats.
  - exists packs, (random_state s). cbn. unfold ret. by rewrite picked_same.
  - apply Forall_cons in Hseats as [Hseat Hseats].
    destruct (other_seat_pick_spec s seat n h packs Hh Hhok Hp Hpok Hround Hseat)
      as (packs1 & g1 & H1 & Hok1).
    cbn. unfold bind. rewrite H1.
    destruct (IH (picked packs1 g1 s) n h packs1 Hh Hhok eq_refl Hok1 Hround Hseats)
      as (packs' & g' & H' & Hok').
    rewrite H'. by exists packs', g'.
Qed.

(** Passing to the right moves the last seat's pack to seat 0. *)
Lemma pass_right_ok (h : list nat) :
  holder_ok h -> exists h', pass_right (Some <$> h) = Ok (Some <$> h') /\ holder_ok h'.
Proof.
  intros [Hlen Hall]. unfold num_players in *.
  do 9 (destruct h as [|? h]; try discriminate Hlen).
  repeat match goal with H : Forall _ (_ :: _) |- _ => apply Forall_cons in H as [? H] end.
  eexists [_; _; _; _; _; _; _; _]. split; [reflexivity|].
  split; [done|]. unfold num_players.
  repeat (apply Forall_cons; split; [assumption|]). constructor.
Qed.

(** The table once every seat has picked and the packs have been passed,
    before the counters advance. *)
Definition moved (picks : list nat) (packs : list (list Pack)) (h : list nat) (g : rng)
    (s : DraftEnv) : DraftEnv :=
  set_pack_holder (Some (Some <$> h)) (picked packs g (set_user_picks picks s)).

Lemma accept_spec (s : DraftEnv) (i slot cid n : nat) h packs :
  pack_holder s = Some (Some <$> h) -> holder_ok h ->
  all_packs_by_round s = Some packs -> packs_ok n packs ->
  round_idx s < num_packs ->
  exists packs' h' g', packs_ok n packs' /\ holder_ok h' /\
    accept run_matches i slot cid s
      = finish run_matches (advance (moved (user_picks s ++ [cid]) packs' h' g' s)).
Proof.
  intros Hh Hhok Hp Hpok Hround.
  set (s1 := set_user_picks (user_picks s ++ [cid]) s).
  set (packs1 := alter (alter (<[slot := None]>) i) (round_idx s) packs).
  assert (Hclear : clear_slot i slot s1 = set_all_packs_by_round (Some packs1) s1).
  { unfold clear_slot. cbn. by rewrite Hp. }
  destruct (others_pick_spec (seq 1 (num_players - 1))
              (set_all_packs_by_round (Some packs1) s1) n h packs1)
    as (packs' & g' & Hothers & Hok'); [done|done|done|by apply packs_ok_clear|done| |].
  { apply Forall_forall. intros seat Hin%elem_of_seq. unfold num_players in *. lia. }
  destruct (pass_right_ok h Hhok) as (h' & Hpass & Hhok').
  exists packs', h', g'. split; [done|]. split; [done|].
  unfold accept, bind, modify. fold s1. rewrite Hclear, Hothers.
  unfold pass_packs, bind, attr, lift, modify. cbn [pack_holder picked set_random_state
    set_all_packs_by_round set_user_picks s1]. rewrite Hh, Hpass. reflexivity.
Qed.

(** Picks made so far, as counted by the two indices. *)
Definition progress (s : DraftEnv) : nat := round_idx s * cards_per_pack + pick_idx s.

(** What [step] returns when the last pick has been made. *)
Definition final_return (s : DraftEnv) : result StepReturn :=
  match test_in_parralell run_matches s (build_deck s 33 27) with
  | Raise e => Raise e
  | Ok results =>
      match win_rate results with
      | Raise e => Raise e
      | Ok reward =>
          match _build_observation s with
          | Raise e => Raise e
          | Ok obs => Ok (Tuple5 obs reward true false)
          end
      end
  end.

Lemma table_ok_intro (s : DraftEnv) h packs :
  pack_holder s = Some (Some <$> h) -> holder_ok h ->
  all_packs_by_round s = Some packs -> packs_ok (num_cards_total s) packs ->
  Forall (fun cid => cid < num_cards_total s) (user_picks s) ->
  pick_idx s < cards_per_pack ->
  (if done_drafting s then round_idx s = num_packs /\ pick_idx s = 0
   else round_idx s < num_packs) ->
  table_ok s.
Proof. intros. split; eauto. Qed.

Lemma finish_continue (s : DraftEnv) :
  round_idx s < num_packs ->
  finish run_matches s
    = (match _build_observation s with
       | Ok obs => Ok (Tuple5 obs 0%float false false)
       | Raise e => Raise e
       end, s).
Proof.
  intros Hr. unfold finish, bind, gets, reader, ret.
  rewrite decide_False by lia. by destruct (_build_observation s).
Qed.

Lemma finish_final (s : DraftEnv) :
  num_packs <= round_idx s ->
  finish run_matches s
    = (final_return (set_done_drafting true s), set_done_drafting true s).
Proof.
  intros Hr. unfold finish, bind, gets, reader, ret, modify, lift, final_return.
  rewrite decide_True by done.
  destruct (test_in_parralell _ _ _); [|done]. destruct (win_rate _); [|done].
  by destruct (_build_observation _).
Qed.

Lemma finish_advance_spec (s : DraftEnv) (picks : list nat) packs h g :
  table_ok s -> done_drafting s = false ->
  packs_ok (num_cards_total s) packs -> holder_ok h ->
  Forall (fun cid => cid < num_cards_total s) picks ->
  exists s', (finish run_matches (advance (moved picks packs h g s))).2 = s' /\
    table_ok s' /\ same_catalog s s' /\ basic_land_ids s' = basic_land_ids s /\
    user_picks s' = picks /\ progress s' = S (progress s) /\
    (if done_drafting s'
     then (finish run_matches (advance (moved picks packs h g s))).1 = final_return s'
     else exists obs, _build_observation s' = Ok obs /\
            (finish run_matches (advance (moved picks packs h g s))).1
              = Ok (Tuple5 obs 0%float false false)).
Proof.
  intros Hok Hdone Hpacks Hh Hpicks.
  pose proof (ok_pick_idx _ Hok) as Hpick. pose proof (ok_round _ Hok) as Hround.
  rewrite Hdone in Hround.
  assert (Hfresh : holder_ok (seq 0 num_players)).
  { split; [done|]. apply Forall_forall. intros i Hi%elem_of_seq. lia. }
  unfold advance. cbn [pick_idx round_idx moved picked set_pack_holder set_random_state
    set_all_packs_by_round set_user_picks set_pick_idx set_round_idx].
  destruct (decide (cards_per_pack <= S (pick_idx s))) as [Hlast|Hmore].
  - destruct (decide (S (round_idx s) < num_packs)) as [Hnext|Hend].
    + (* a new round *)
      match goal with |- context [finish _ ?x] => set (s3 := x) end.
      assert (Hok3 : table_ok s3).
      { apply (table_ok_intro s3 (seq 0 num_players) packs);
          [reflexivity|done|reflexivity|done|done|cbn; unfold cards_per_pack; lia|].
        cbn. by rewrite Hdone. }
      destruct (build_observation_ok s3 Hok3) as [obs Hobs].
      exists s3. rewrite finish_continue by done. rewrite Hobs. cbn [fst snd].
      split; [done|]. split; [done|]. split; [done|]. split; [done|]. split; [done|].
      split; [unfold progress, cards_per_pack in *; cbn; lia|].
      replace (done_drafting s3) with false by (symmetry; exact Hdone). eauto.
    + (* the draft is over *)
      match goal with |- context [finish _ ?x] => set (s3 := x) end.
      exists (set_done_drafting true s3).
      rewrite finish_final by (cbn; unfold num_packs in *; lia). cbn [fst snd].
      split; [done|]. split.
      { apply (table_ok_intro _ h packs);
          [reflexivity|done|reflexivity|done|done|cbn; unfold cards_per_pack; lia|].
        cbn. unfold num_packs in *. lia. }
      split; [done|]. split; [done|]. split; [done|].
      split; [unfold progress, cards_per_pack in *; cbn; lia|]. done.
  - (* the round goes on *)
    match goal with |- context [finish _ ?x] => set (s3 := x) end.
    assert (Hok3 : table_ok s3).
    { apply (table_ok_intro s3 h packs);
        [reflexivity|done|reflexivity|done|done|cbn; unfold cards_per_pack in *; lia|].
      cbn. by rewrite Hdone. }
    destruct (build_observation_ok s3 Hok3) as [obs Hobs].
    exists s3. rewrite finish_continue by done. rewrite Hobs. cbn [fst snd].
    split; [done|]. split; [done|]. split; [done|]. split; [done|]. split; [done|].
    split; [unfold progress, cards_per_pack in *; cbn; lia|].
    replace (done_drafting s3) with false by (symmetry; exact Hdone). eauto.
Qed.

Lemma current_slot_Some (s : DraftEnv) (action : Z) (cid : nat) :
  current_slot s action = Some cid ->
  done_drafting s = false /\ (0 <= action < 15)%Z /\
  exists i p, seat_pack 0 s = Ok (i, p) /\ p !! Z.to_nat action = Some (Some cid).
Proof.
  unfold current_slot. destruct (done_drafting s); [done|].
  destruct (decide _) as [|Hin]; [done|].
  destruct (seat_pack 0 s) as [[i p]|]; [|done].
  destruct (p !! Z.to_nat action) as [[c|]|] eqn:Hp; cbn; try done.
  intros [= ->]. split; [done|]. split; [unfold cards_per_pack in *; lia|]. eauto.
Qed.

(** An accepted action on a well-formed table: one more pick in the
    history, one more pick counted, a well-formed table again, and the
    five-element return. *)
Lemma step_accept (s : DraftEnv) (action : Z) (cid : nat) :
  table_ok s -> current_slot s action = Some cid ->
  exists s', (step run_matches action s).2 = s' /\
    table_ok s' /\ same_catalog s s' /\ basic_land_ids s' = basic_land_ids s /\
    user_picks s' = user_picks s ++ [cid] /\ progress s' = S (progress s) /\
    (if done_drafting s'
     then (step run_matches action s).1 = final_return s'
     else exists obs, _build_observation s' = Ok obs /\
            (step run_matches action s).1 = Ok (Tuple5 obs 0%float false false)).
Proof.
  intros Hok (Hdone & Hrange & i & p & Hsp & Hslot)%current_slot_Some.
  pose proof (ok_round _ Hok) as Hround. rewrite Hdone in Hround.
  destruct (ok_holder _ Hok) as (h & Hh & Hhok).
  destruct (ok_packs _ Hok) as (packs & Hp & Hpok).
  destruct (seat_pack_shape s 0 _ h packs Hh Hhok Hp Hpok Hround ltac:(unfold num_players; lia))
    as (i' & p' & Hsp' & [_ Hslots]).
  rewrite Hsp in Hsp'. injection Hsp' as <- <-.
  pose proof (Forall_lookup_1 _ _ _ _ Hslots Hslot) as Hcid. cbn in Hcid.
  destruct (accept_spec s i (Z.to_nat action) cid _ h packs Hh Hhok Hp Hpok Hround)
    as (packs' & h' & g' & Hpok' & Hhok' & Hacc).
  assert (Hstep : step run_matches action s
                  = finish run_matches
                      (advance (moved (user_picks s ++ [cid]) packs' h' g' s))).
  { unfold step, bind, gets, reader, lift, index. rewrite Hdone, Hsp.
    rewrite decide_False by (unfold cards_per_pack; lia). by rewrite Hslot. }
  rewrite Hstep. apply finish_advance_spec; try done.
  apply Forall_app. split; [apply (ok_picks _ Hok)|]. by apply Forall_singleton.
Qed.

(** *** [reset] *)

(** Every identity filed in a pool is a column of the observation and
    has a color identity. *)
Definition catalog_ok (s : DraftEnv) : Prop :=
  forall k cid, cid ∈ pool (rarity_pools s) k ->
    cid < num_cards_total s /\ is_Some (card_color_identity s !! cid).

(** The packs [reset] deals, as a computation on the generator alone. *)
Fixpoint packs_from (pools : RarityPools) (n : nat) : M rng (list Pack) :=
  match n with
  | 0 => ret []
  | S n' =>
      let* p := make_pack_from pools in
      let* ps := packs_from pools n' in
      ret (p :: ps)
  end.

Fixpoint rounds_from (pools : RarityPools) (rounds : nat) : M rng (list (list Pack)) :=
  match rounds with
  | 0 => ret []
  | S rounds' =>
      let* round_packs := packs_from pools num_players in
      let* rest := rounds_from pools rounds' in
      ret (round_packs :: rest)
  end.

Lemma make_pack_from_ok (pools : RarityPools) (n : nat) (g : rng) :
  (forall k cid, cid ∈ pool pools k -> cid < n) ->
  exists pack g', make_pack_from pools g = (Ok pack, g') /\ pack_ok n pack.
Proof.
  intros Hpools.
  destruct (make_pack_from_spec pools g)
    as (lands & commons & uncommons & rares & g1 & g2 & g3 & g' & rest_c & rest_u &
        _ & _ & _ & _ & Hpack & Hlen & (_ & Hl) & (_ & Hc & _) & (_ & Hu & _) & (_ & Hr)).
  eexists _, g'. split; [exact Hpack|]. split.
  - rewrite length_app, length_fmap, length_replicate. lia.
  - apply Forall_app. split; [|by apply Forall_replicate].
    apply Forall_fmap, Forall_forall. intros cid Hin. cbn.
    rewrite !elem_of_app in Hin. destruct Hin as [Hin|[Hin|[Hin|Hin]]].
    + apply (Hpools BasicLand). by apply Hl.
    + apply (Hpools Common). cbn. rewrite <- Hc. apply elem_of_app. by left.
    + apply (Hpools Uncommon). cbn. rewrite <- Hu. apply elem_of_app. by left.
    + apply Hr, elem_of_app in Hin as [Hin|Hin];
        [by apply (Hpools Rare)|by apply (Hpools Mythic)].
Qed.

Lemma packs_from_ok (pools : RarityPools) (n count : nat) : forall g : rng,
  (forall k cid, cid ∈ pool pools k -> cid < n) ->
  exists packs g', packs_from pools count g = (Ok packs, g') /\
    length packs = count /\ Forall (pack_ok n) packs.
Proof.
  induction count as [|count IH]; intros g Hpools; cbn.
  - exists [], g. by repeat split.
  - destruct (make_pack_from_ok pools n g Hpools) as (p & g1 & Hp & Hpok).
    destruct (IH g1 Hpools) as (ps & g' & Hps & Hlen & Hall).
    exists (p :: ps), g'. unfold bind, ret. rewrite Hp, Hps.
    split; [done|]. split; [by cbn; rewrite Hlen|by constructor].
Qed.

Lemma rounds_from_ok (pools : RarityPools) (n rounds : nat) : forall g : rng,
  (forall k cid, cid ∈ pool pools k -> cid < n) ->
  exists packs g', rounds_from pools rounds g = (Ok packs, g') /\
    length packs = rounds /\ Forall (round_ok n) packs.
Proof.
  induction rounds as [|rounds IH]; intros g Hpools; cbn [rounds_from].
  - exists [], g. by repeat split.
  - destruct (packs_from_ok pools n num_players g Hpools) as (r & g1 & Hr & Hrlen & Hrall).
    destruct (IH g1 Hpools) as (rs & g' & Hrs & Hlen & Hall).
    exists (r :: rs), g'. unfold bind, ret. rewrite Hr, Hrs.
    split; [done|]. split; [by cbn; rewrite Hlen|by constructor].
Qed.

Lemma make_pack_eq (s : DraftEnv) :
  make_pack s
    = (let '(r, g) := make_pack_from (rarity_pools s) (random_state s) in
       (r, set_random_state g s)).
Proof. reflexivity. Qed.

Lemma make_packs_from (count : nat) : forall (s : DraftEnv) packs g',
  packs_from (rarity_pools s) count (random_state s) = (Ok packs, g') ->
  make_packs count s = (Ok packs, set_random_state g' s).
Proof.
  induction count as [|count IH]; intros s packs g'; cbn.
  - unfold ret. intros [= <- <-]. by destruct s.
  - unfold bind, ret. rewrite make_pack_eq.
    destruct (make_pack_from (rarity_pools s) (random_state s)) as [[p|e] g1]; [|done].
    destruct (packs_from (rarity_pools s) count g1) as [[ps|e] g2] eqn:Hps; [|done].
    intros [= <- <-]. by rewrite (IH (set_random_state g1 s) ps g2 Hps).
Qed.

Lemma deal_rounds_from (rounds : nat) : forall (xs : list nat) (s : DraftEnv) acc packs g',
  length xs = rounds ->
  all_packs_by_round s = Some acc ->
  rounds_from (rarity_pools s) rounds (random_state s) = (Ok packs, g') ->
  for_each xs (fun _ => let* round_packs := make_packs num_players in
                        modify (append_round round_packs)) s
    = (Ok tt, picked (acc ++ packs) g' s).
Proof.
  induction rounds as [|rounds IH]; intros xs s acc packs g' Hlen Hacc; cbn [rounds_from].
  - destruct xs; [|done]. unfold ret. intros [= <- <-]. cbn.
    rewrite app_nil_r. by rewrite picked_same.
  - destruct xs as [|x xs]; [done|]. unfold bind at 1 2, ret.
    destruct (packs_from (rarity_pools s) num_players (random_state s))
      as [[r|e] g1] eqn:Hr; [|done].
    destruct (rounds_from (rarity_pools s) rounds g1) as [[rs|e] g2] eqn:Hrs; [|done].
    intros [= <- <-]. cbn [for_each]. unfold bind at 1 2.
    rewrite (make_packs_from _ _ _ _ Hr). unfold modify, append_round. cbn.
    rewrite Hacc. cbn.
    erewrite (IH xs _ (acc ++ [r]) rs g2); [|by injection Hlen|reflexivity|exact Hrs].
    unfold picked. cbn. by rewrite <- (assoc_L (++)).
Qed.

(** The table [_populate_basic_land_ids] leaves, as a function of the
    dictionary it starts from. *)
Fixpoint populate_ids (cci : gmap nat (list string)) (lands : list nat)
    (ids : by_color (option nat)) : result (by_color (option nat)) :=
  match lands with
  | [] => Ok ids
  | land_id :: rest =>
      match cci !! land_id with
      | None => Raise KeyError
      | Some ci =>
          populate_ids cci rest
            (match land_color ci with
             | Some c => cset ids c (Some land_id)
             | None => ids
             end)
      end
  end.

Lemma populate_land_eq (land_id : nat) (s : DraftEnv) :
  populate_land land_id s
    = match card_color_identity s !! land_id with
      | None => (Raise KeyError, s)
      | Some ci =>
          (Ok tt, match land_color ci with
                  | Some c => set_basic_land_ids (cset (basic_land_ids s) c (Some land_id)) s
                  | None => s
                  end)
      end.
Proof.
  unfold populate_land, bind, gets.
  destruct (card_color_identity s !! land_id) as [ci|]; [|done]. by destruct (land_color ci).
Qed.

Lemma populate_from (lands : list nat) : forall (s : DraftEnv) ids',
  populate_ids (card_color_identity s) lands (basic_land_ids s) = Ok ids' ->
  for_each lands populate_land s = (Ok tt, set_basic_land_ids ids' s).
Proof.
  induction lands as [|land_id rest IH]; intros s ids'; cbn [for_each populate_ids].
  - intros [= <-]. unfold ret. by destruct s.
  - unfold bind. rewrite populate_land_eq.
    destruct (card_color_identity s !! land_id) as [ci|]; [|done].
    destruct (land_color ci) as [c|].
    + intros H. by rewrite (IH (set_basic_land_ids _ s) ids' H).
    + intros H. by rewrite (IH s ids' H).
Qed.

Lemma populate_ids_ok (cci : gmap nat (list string)) (lands : list nat) : forall ids,
  Forall (fun land_id => is_Some (cci !! land_id)) lands ->
  exists ids', populate_ids cci lands ids = Ok ids'.
Proof.
  induction lands as [|land_id rest IH]; intros ids Hall; cbn; [eauto|].
  apply Forall_cons in Hall as [[ci ->] Hall]. by apply IH.
Qed.

(** The table after [reset]: the catalog as it was, everything else new. *)
Definition fresh_table (s : DraftEnv) (packs : list (list Pack))
    (ids : by_color (option nat)) (g : rng) : DraftEnv :=
  {| card_id_map := card_id_map s; id_card_map := id_card_map s;
     rarity_pools := rarity_pools s; card_color_identity := card_color_identity s;
     num_cards_total := num_cards_total s; user_picks := [];
     basic_land_ids := ids; round_idx := 0; pick_idx := 0; done_drafting := false;
     all_packs_by_round := Some packs;
     pack_holder := Some (Some <$> seq 0 num_players);
     random_state := g |}.

(** The generator [reset] deals from: reseeded when a seed is given. *)
Definition reset_rng (seed : option Z) (s : DraftEnv) : rng :=
  match seed with
  | Some z => rng_seed z
  | None => random_state s
  end.

(** The seeds [reset] accepts: none, or one in [0, 2**32). *)
Definition seed_ok (seed : option Z) : Prop :=
  match seed with
  | Some z => (0 <= z < 2 ^ 32)%Z
  | None => True
  end.

#[global] Instance seed_ok_dec (seed : option Z) : Decision (seed_ok seed).
Proof. destruct seed; cbn; apply _. Defined.

(** A refused seed: a negative one is refused before anything is done, a
    large one once [random] has been seeded; in either case no attribute
    of the table is assigned. *)
Lemma reset_refused (s : DraftEnv) (z : Z) :
  ~ seed_ok (Some z) ->
  reset (Some z) s
    = if (z <? 0)%Z then (Raise GymError, s)
      else (Raise ValueError, set_random_state (rng_seed z) s).
Proof.
  intros Hbad. cbn in Hbad. unfold reset, bind at 1, lift, super_reset.
  destruct (z <? 0)%Z eqn:Hneg; [done|]. apply Z.ltb_ge in Hneg.
  unfold bind at 1, seed_generators, bind at 1, modify at 1, lift, np_random_seed.
  assert ((0 <=? z) && (z <? 2 ^ 32) = false)%Z as ->; [|done].
  apply andb_false_iff. right. apply Z.ltb_ge. lia.
Qed.

Lemma reset_spec (s : DraftEnv) (seed : option Z) packs g' ids' :
  seed_ok seed ->
  rounds_from (rarity_pools s) num_packs (reset_rng seed s) = (Ok packs, g') ->
  populate_ids (card_color_identity s) (basic_land (rarity_pools s)) (basic_land_ids s) = Ok ids' ->
  reset seed s
    = (_build_observation (fresh_table s packs ids' g'), fresh_table s packs ids' g').
Proof.
  intros Hseed Hdeal Hids. unfold reset.
  assert (Hsuper : super_reset seed = Ok tt).
  { destruct seed as [z|]; [|done]. cbn in Hseed. unfold super_reset.
    by rewrite (proj2 (Z.ltb_ge z 0)) by lia. }
  assert (Hgen : seed_generators seed s
                 = (Ok tt, match seed with
                           | Some z => set_random_state (rng_seed z) s
                           | None => s
                           end)).
  { destruct seed as [z|]; [|done]. cbn in Hseed.
    unfold seed_generators, bind, modify, lift, np_random_seed.
    assert ((0 <=? z) && (z <? 2 ^ 32) = true)%Z as ->; [|done].
    apply andb_true_iff. split; [apply Z.leb_le|apply Z.ltb_lt]; lia. }
  unfold bind at 1, lift. rewrite Hsuper. unfold bind at 1. rewrite Hgen.
  unfold bind at 1 2 3 4 5, modify at 1 2 3 4 5.
  match goal with |- _ ?x = _ => set (s0 := x) end.
  assert (Hrng : random_state s0 = reset_rng seed s) by (by destruct seed).
  assert (Hpools : rarity_pools s0 = rarity_pools s) by (by destruct seed).
  unfold bind at 1.
  rewrite (deal_rounds_from num_packs (seq 0 num_packs) s0 [] packs g');
    [|done|done|by rewrite Hpools, Hrng].
  unfold bind at 1, modify at 1. unfold bind at 1, _populate_basic_land_ids, bind, gets.
  match goal with |- context [for_each _ _ ?x] => set (s1 := x) end.
  rewrite (populate_from (basic_land (rarity_pools s1)) s1 ids').
  - unfold reader. f_equal; unfold s1, s0; by destruct seed.
  - unfold s1, s0. by destruct seed.
Qed.

Lemma fresh_table_ok (s : DraftEnv) packs ids g :
  packs_ok (num_cards_total s) packs -> table_ok (fresh_table s packs ids g).
Proof.
  intros Hpacks. apply (table_ok_intro _ (seq 0 num_players) packs); try done.
  - split; [done|]. apply Forall_forall. intros i Hi%elem_of_seq. lia.
  - cbn. unfold cards_per_pack. lia.
  - cbn. unfold num_packs. lia.
Qed.

(** On an environment whose pools are consistent with its catalog,
    [reset] returns and leaves a well-formed table at pick zero of round
    zero with an empty history. *)
Lemma reset_ok (s : DraftEnv) (seed : option Z) :
  seed_ok seed -> catalog_ok s ->
  exists obs s', reset seed s = (Ok obs, s') /\ _build_observation s' = Ok obs /\
    table_ok s' /\ same_catalog s s' /\ catalog_ok s' /\
    user_picks s' = [] /\ progress s' = 0 /\ done_drafting s' = false.
Proof.
  intros Hseed Hcat.
  destruct (rounds_from_ok (rarity_pools s) (num_cards_total s) num_packs (reset_rng seed s))
    as (packs & g' & Hdeal & Hlen & Hall).
  { intros k cid Hin. by apply (Hcat k cid). }
  destruct (populate_ids_ok (card_color_identity s) (basic_land (rarity_pools s))
              (basic_land_ids s)) as [ids' Hids].
  { apply Forall_forall. intros land_id Hin. by apply (Hcat BasicLand land_id). }
  pose proof (fresh_table_ok s packs ids' g' (conj Hlen Hall)) as Hok.
  destruct (build_observation_ok _ Hok) as [obs Hobs].
  exists obs, (fresh_table s packs ids' g').
  rewrite (reset_spec s seed packs g' ids' Hseed Hdeal Hids), Hobs.
  split; [done|]. split; [done|]. split; [done|]. split; [done|].
  split; [|done]. intros k cid Hin. by apply (Hcat k cid).
Qed.

(** What a refused [reset] leaves: the state it was called on, but for
    the generator. *)
Lemma reset_refused_state (s : DraftEnv) (seed : option Z) :
  ~ seed_ok seed ->
  exists err g, reset seed s = (Raise err, set_random_state g s).
Proof.
  intros Hbad. destruct seed as [z|]; [|by destruct Hbad].
  rewrite (reset_refused s z Hbad). destruct (z <? 0)%Z.
  - exists GymError, (random_state s). by destruct s.
  - by exists ValueError, (rng_seed z).
Qed.

(** [reset] returns only on a seed it accepts. *)
Lemma reset_returns (s : DraftEnv) (seed : option Z) :
  is_ok (reset seed s).1 = true -> seed_ok seed.
Proof.
  intros Hret. destruct (decide (seed_ok seed)) as [|Hbad]; [done|].
  destruct (reset_refused_state s seed Hbad) as (err & g & Hreset).
  by rewrite Hreset in Hret.
Qed.

Lemma table_ok_random (s : DraftEnv) (g : rng) :
  table_ok s -> table_ok (set_random_state g s).
Proof. intros [? ? ? ? ?]. by split. Qed.

(** *** Construction *)

Lemma init_ok (cards : list CardRecord) (g : rng) (e : DraftEnv) :
  init cards g = Ok e ->
  catalog_ok e /\ pack_holder e = None /\ done_drafting e = false /\
  basic_land_ids e = ByColor None None None None None /\
  exists m, _build_maps cards = Ok m /\ rarity_pools e = m_rarity_pools m /\
            card_color_identity e = m_card_color_identity m.
Proof.
  unfold init. destruct (_build_maps cards) as [m|] eqn:Hb; [|done]. intros [= <-].
  destruct (build_maps_inv _ _ Hb) as [_ Hinv]. cbn.
  split; [|by eauto 10]. intros k cid Hin. cbn in *.
  destruct (pool_ids_below _ _ _ _ Hinv Hin) as [Hlt Hci].
  by rewrite (inv_size _ _ Hinv).
Qed.

(** *** Runs of accepted actions *)

Fixpoint accepted_run (actions : list Z) (s : DraftEnv) : Prop :=
  match actions with
  | [] => True
  | a :: rest => accepted s a /\ accepted_run rest (step run_matches a s).2
  end.

Lemma run_snd_cons (a : Z) (rest : list Z) (s : DraftEnv) :
  (run run_matches (a :: rest) s).2 = (run run_matches rest (step run_matches a s).2).2.
Proof.
  cbn [run]. destruct (step run_matches a s) as [r s1]. cbn [snd].
  by destruct (run run_matches rest s1).
Qed.

Lemma accepted_run_inv (actions : list Z) : forall s : DraftEnv,
  table_ok s -> accepted_run actions s ->
  table_ok (run run_matches actions s).2 /\
  progress (run run_matches actions s).2 = progress s + length actions /\
  length (user_picks (run run_matches actions s).2)
    = length (user_picks s) + length actions.
Proof.
  induction actions as [|a rest IH]; intros s Hok Hacc.
  - cbn. split; [done|]. lia.
  - destruct Hacc as [[cid Hcid] Hrest]. rewrite run_snd_cons.
    destruct (step_accept s a cid Hok Hcid) as (s' & Hs' & Hok' & _ & _ & Hpicks & Hprog & _).
    rewrite Hs' in *. destruct (IH s' Hok' Hrest) as (Hok'' & Hprog' & Hlen').
    split; [done|]. rewrite Hprog', Hlen', Hprog, Hpicks, length_app. cbn. lia.
Qed.

Lemma progress_done (s : DraftEnv) :
  table_ok s -> (done_drafting s = true <-> progress s = num_packs * cards_per_pack).
Proof.
  intros Hok. pose proof (ok_pick_idx _ Hok) as Hpick. pose proof (ok_round _ Hok) as Hround.
  unfold progress, num_packs, cards_per_pack in *.
  destruct (done_drafting s); split; intros H; try done; lia.
Qed.

(** *** Theorems on [step] *)

(** The action is outside [0, 15) or indexes an empty slot of the pack
    the controlled seat holds. *)
Definition invalid_action (s : DraftEnv) (action : Z) : Prop :=
  (action < 0 \/ action >= 15)%Z \/
  exists i p, seat_pack 0 s = Ok (i, p) /\ p !! Z.to_nat action = Some None.

(** C1 (as amended): on a well-formed table that is not terminal, an
    action outside [0, 15) or on an empty slot is answered with the
    observation, reward [-1.0] and not done, and the state after the call
    is the state before it, in every attribute (round and pick index, pack
    holder, packs, pick history) and in the generator. On a terminal table
    every action, whatever its value, is answered with reward [0.0] and
    done instead, the state again unchanged. *)
Theorem step_invalid_action_unchanged (s : DraftEnv) (action : Z) :
  table_ok s -> done_drafting s = true \/ invalid_action s action ->
  exists obs, _build_observation s = Ok obs /\
    step run_matches action s
      = (Ok (if done_drafting s then Tuple4 obs 0%float true
             else Tuple4 obs (-1)%float false), s).
Proof.
  intros Hok Hbad. destruct (done_drafting s) eqn:Hdone.
  - by apply step_terminal.
  - destruct Hbad as [?|Hbad]; [done|]. by apply step_reject.
Qed.

Lemma not_accepted_invalid (s : DraftEnv) (action : Z) :
  table_ok s -> done_drafting s = false -> ~ accepted s action -> invalid_action s action.
Proof.
  intros Hok Hdone Hnot. unfold accepted, current_slot in Hnot. rewrite Hdone in Hnot.
  destruct (decide (action < 0 \/ action >= Z.of_nat cards_per_pack)%Z) as [Hout|Hin].
  - left. unfold cards_per_pack in *. lia.
  - right. pose proof (ok_round _ Hok) as Hround. rewrite Hdone in Hround.
    destruct (seat_pack_ok s 0 Hok Hround ltac:(unfold num_players; lia))
      as (i & p & packs & rp & Hsp & _ & [Hplen _] & _).
    rewrite Hsp in Hnot. exists i, p. split; [done|].
    destruct (lookup_lt_is_Some_2 p (Z.to_nat action)
                ltac:(unfold cards_per_pack in *; lia)) as [[c|] Hc]; [|done].
    destruct Hnot. rewrite Hc. cbn. eauto.
Qed.

(** An action that is not accepted leaves the state as it was. *)
Lemma step_not_accepted (s : DraftEnv) (action : Z) :
  table_ok s -> ~ accepted s action -> (step run_matches action s).2 = s.
Proof.
  intros Hok Hnot. destruct (done_drafting s) eqn:Hdone.
  - by destruct (step_terminal s action Hok Hdone) as (obs & _ & ->).
  - by destruct (step_reject s action Hok Hdone (not_accepted_invalid s action Hok Hdone Hnot))
      as (obs & _ & ->).
Qed.

(** C3: on an environment built from a catalog, [reset] followed by 45
    accepted actions leaves the table terminal with a pick history of 45
    entries; any further action is then answered by the early return,
    with the table, and so the history, unchanged. *)
Theorem full_draft_terminal (cards : list CardRecord) (g0 : rng) (e : DraftEnv)
    (seed : option Z) (actions : list Z) :
  init cards g0 = Ok e ->
  length actions = num_packs * cards_per_pack ->
  accepted_run actions (reset seed e).2 ->
  let s := (run run_matches actions (reset seed e).2).2 in
  done_drafting s = true /\ length (user_picks s) = 45 /\
  forall action, ~ accepted s action /\
    exists obs, step run_matches action s = (Ok (Tuple4 obs 0%float true), s).
Proof.
  intros Hinit Hlen Hacc s.
  destruct (init_ok _ _ _ Hinit) as (Hcat & Hnone & Hfresh & _).
  assert (Hseed : seed_ok seed).
  { destruct (decide (seed_ok seed)) as [|Hbad]; [done|]. exfalso.
    destruct (reset_refused_state e seed Hbad) as (err & g & Hrefused).
    rewrite Hrefused in Hacc. cbn [snd] in Hacc.
    destruct actions as [|a rest]; [done|]. destruct Hacc as [[cid Hcid] _].
    unfold current_slot, seat_pack in Hcid. cbn in Hcid.
    rewrite Hfresh, Hnone in Hcid. by destruct (decide _). }
  destruct (reset_ok e seed Hseed Hcat)
    as (obs0 & s0 & Hreset & _ & Hok0 & _ & _ & Hpicks0 & Hprog0 & _).
  unfold s in *. rewrite Hreset in *. cbn [snd] in *.
  destruct (accepted_run_inv actions s0 Hok0 Hacc) as (Hok & Hprog & Hpicks).
  rewrite Hprog0, Hlen in Hprog. rewrite Hpicks0, Hlen in Hpicks.
  assert (Hdone : done_drafting (run run_matches actions s0).2 = true).
  { by apply progress_done. }
  split; [done|]. split; [done|]. intros action. split.
  - unfold accepted, current_slot. rewrite Hdone. by intros [? ?].
  - destruct (step_terminal _ action Hok Hdone) as (obs & _ & Hstep). eauto.
Qed.




End TableFacts.
(** ** Deck assembly *)

Section DeckFacts.
Context {RS : RandomSource}.

Lemma cget_cset {A} (d : by_color A) (c c' : Color.t) (v : A) :
  cget (cset d c v) c' = if decide (c = c') then v else cget d c'.
Proof. by destruct c, c'. Qed.

Lemma by_color_ext {A} (d d' : by_color A) :
  (forall c, cget d c = cget d' c) -> d = d'.
Proof.
  intros H. destruct d, d'.
  pose proof (H Color.W) as HW. pose proof (H Color.U) as HU. pose proof (H Color.B) as HB.
  pose proof (H Color.R) as HR. pose proof (H Color.G) as HG. cbn in *. congruence.
Qed.

(** The basic lands of a color: the members of the basic-land pool whose
    color identity is exactly that color. *)
Definition lands_of (cci : gmap nat (list string)) (c : Color.t) (lands : list nat) : list nat :=
  filter (fun land_id => cci !! land_id ≫= land_color = Some c) lands.

(** [_populate_basic_land_ids] registers, for each color, the last basic
    land of that color, and leaves the other colors as they were. *)
Lemma populate_ids_spec (cci : gmap nat (list string)) (lands : list nat) :
  forall ids ids', populate_ids cci lands ids = Ok ids' ->
  forall c, cget ids' c = match last (lands_of cci c lands) with
                          | Some land_id => Some land_id
                          | None => cget ids c
                          end.
Proof.
  induction lands as [|land_id rest IH]; intros ids ids'; cbn [populate_ids].
  - by intros [= <-] c.
  - destruct (cci !! land_id) as [ci|] eqn:Hci; [|done]. intros H c.
    rewrite (IH _ _ H c). unfold lands_of. rewrite filter_cons. rewrite Hci. cbn.
    destruct (land_color ci) as [c0|] eqn:Hc0.
    + rewrite cget_cset. destruct (decide (c0 = c)) as [->|Hne].
      * rewrite decide_True by done. rewrite last_cons. by destruct (last _).
      * rewrite decide_False by congruence. done.
    + rewrite decide_False by done. done.
Qed.

Lemma populate_ids_idem (cci : gmap nat (list string)) (lands : list nat) ids ids' :
  populate_ids cci lands ids = Ok ids' -> populate_ids cci lands ids' = Ok ids'.
Proof.
  intros H.
  assert (Hall : Forall (fun land_id => is_Some (cci !! land_id)) lands).
  { clear -H. revert ids H. induction lands as [|l rest IH]; intros ids H; [constructor|].
    cbn in H. destruct (cci !! l) eqn:Hl; [|done]. constructor; [by rewrite Hl|by eapply IH]. }
  destruct (populate_ids_ok cci lands ids' Hall) as [ids'' H'].
  rewrite H'. f_equal. apply by_color_ext. intros c.
  rewrite (populate_ids_spec _ _ _ _ H' c), (populate_ids_spec _ _ _ _ H c).
  by destruct (last _).
Qed.

Lemma filter_none {A} (P : A -> Prop) `{forall x, Decision (P x)} (l : list A) :
  Forall (fun x => ~ P x) l -> filter P l = [].
Proof.
  induction 1 as [|x l Hx Hl IH]; [done|]. rewrite filter_cons.
  by rewrite decide_False.
Qed.

Lemma land_color_U (ci : list string) : land_color ci = Some Color.U <-> ci = ["U"].
Proof.
  unfold land_color. repeat case_decide; subst; split; intros Heq; try done; by inversion Heq.
Qed.

(** C9: when the main portion has no color at all, [build_deck] is the
    main portion followed by [land_count] copies of the entry of
    [basic_land_ids] for ['U']. After a [reset] that returned, on a newly
    built environment, that entry is the last basic land of the catalog
    whose color identity is exactly [['U']], and [None] when there is
    none: the land entries are then [None], not identities. After a
    [reset] that raised on its seed nothing is registered, and the land
    entries are [None] whatever the catalog holds. *)
Theorem build_deck_default_color (s : DraftEnv) (main_count land_count : nat) :
  total_of (count_colors (card_color_identity s) (take main_count (user_picks s))) = 0 ->
  build_deck s main_count land_count
    = (Some <$> take main_count (user_picks s))
      ++ replicate land_count (cget (basic_land_ids s) Color.U) /\
  forall cards g0 e seed,
    init cards g0 = Ok e ->
    basic_land_ids s = basic_land_ids (reset seed e).2 ->
    if is_ok (reset seed e).1
    then
      cget (basic_land_ids s) Color.U
        = last (filter (fun land_id => card_color_identity e !! land_id = Some ["U"])
                       (basic_land (rarity_pools e))) /\
      (Forall (fun land_id => card_color_identity e !! land_id <> Some ["U"])
              (basic_land (rarity_pools e)) ->
       build_deck s main_count land_count
         = (Some <$> take main_count (user_picks s)) ++ replicate land_count None)
    else
      build_deck s main_count land_count
        = (Some <$> take main_count (user_picks s)) ++ replicate land_count None.
Proof.
  intros Hzero.
  assert (Hdeck : build_deck s main_count land_count
                  = (Some <$> take main_count (user_picks s))
                    ++ replicate land_count (cget (basic_land_ids s) Color.U)).
  { unfold build_deck. by rewrite decide_True. }
  split; [done|]. intros cards g0 e seed Hinit Hids.
  destruct (init_ok _ _ _ Hinit) as (Hcat & _ & _ & Hnone & _).
  destruct (is_ok (reset seed e).1) eqn:Hret; cycle 1.
  { assert (Hbad : ~ seed_ok seed).
    { intros Hseed. destruct (reset_ok e seed Hseed Hcat) as (obs & s' & Hreset & _).
      by rewrite Hreset in Hret. }
    destruct (reset_refused_state e seed Hbad) as (err & g1 & Hreset).
    rewrite Hreset in Hids. cbn in Hids. by rewrite Hdeck, Hids, Hnone. }
  apply reset_returns in Hret as Hseed.
  destruct (rounds_from_ok (rarity_pools e) (num_cards_total e) num_packs (reset_rng seed e))
    as (packs & g' & Hdeal & _).
  { intros k cid Hin. by apply (Hcat k cid). }
  destruct (populate_ids_ok (card_color_identity e) (basic_land (rarity_pools e))
              (basic_land_ids e)) as [ids' Hpop].
  { apply Forall_forall. intros land_id Hin. by apply (Hcat BasicLand land_id). }
  rewrite (reset_spec e seed packs g' ids' Hseed Hdeal Hpop) in Hids. cbn in Hids.
  assert (HU : cget (basic_land_ids s) Color.U
               = last (filter (fun land_id => card_color_identity e !! land_id = Some ["U"])
                              (basic_land (rarity_pools e)))).
  { rewrite Hids, (populate_ids_spec _ _ _ _ Hpop Color.U), Hnone. cbn.
    unfold lands_of.
    rewrite (list_filter_iff _ (fun land_id => card_color_identity e !! land_id = Some ["U"])).
    - by destruct (last _).
    - intros land_id. destruct (card_color_identity e !! land_id) as [ci|]; cbn; [|done].
      rewrite land_color_U. split; congruence. }
  split; [done|]. intros Hno. rewrite Hdeck, HU.
  by rewrite (filter_none _ _ Hno).
Qed.

End DeckFacts.
(** ** Reproducibility *)

Section Reproducibility.
Context {RS : RandomSource}.
Variable run_matches : list (option nat) -> result (list (string * nat * nat)).

(** The states an environment object goes through: built, then reset and
    stepped in any order. *)
Inductive reachable (e0 : DraftEnv) : DraftEnv -> Prop :=
| reach_new : reachable e0 e0
| reach_reset (seed : option Z) (s : DraftEnv) :
    reachable e0 s -> reachable e0 (reset seed s).2
| reach_step (action : Z) (s : DraftEnv) :
    reachable e0 s -> reachable e0 (step run_matches action s).2.

(** What every reachable state shares with the object as built. *)
Record env_inv (e0 s : DraftEnv) : Prop := {
  inv_catalog : same_catalog e0 s;
  inv_ids : populate_ids (card_color_identity e0) (basic_land (rarity_pools e0))
              (basic_land_ids s)
            = populate_ids (card_color_identity e0) (basic_land (rarity_pools e0))
                (basic_land_ids e0);
  inv_table : (pack_holder s = None /\ done_drafting s = false) \/ table_ok s
}.

Lemma same_catalog_trans (s1 s2 s3 : DraftEnv) :
  same_catalog s1 s2 -> same_catalog s2 s3 -> same_catalog s1 s3.
Proof. unfold same_catalog. intros (?&?&?&?&?) (?&?&?&?&?). repeat split; congruence. Qed.

Lemma catalog_ok_same (s s' : DraftEnv) : same_catalog s s' -> catalog_ok s -> catalog_ok s'.
Proof.
  intros (_ & _ & Hpools & Hcci & Hn) Hcat k cid. rewrite Hpools, Hcci, Hn. apply Hcat.
Qed.

Lemma step_before_reset (s : DraftEnv) (action : Z) :
  pack_holder s = None -> done_drafting s = false ->
  step run_matches action s = (Raise AttributeError, s).
Proof.
  intros Hh Hdone. unfold step, bind, gets, reader, seat_pack. by rewrite Hdone, Hh.
Qed.

Lemma reachable_inv (e0 s : DraftEnv) :
  catalog_ok e0 -> pack_holder e0 = None -> done_drafting e0 = false ->
  reachable e0 s -> env_inv e0 s.
Proof.
  intros Hcat Hh Hdone Hreach. induction Hreach as [|seed s Hreach IH|action s Hreach IH].
  - split; [done|done|by left].
  - destruct (decide (seed_ok seed)) as [Hseed|Hbad]; cycle 1.
    { destruct (reset_refused_state s seed Hbad) as (err & g & ->). cbn [snd].
      destruct IH as [Hsame Hids Htable]. split; [done|done|].
      destruct Htable as [?|Hok]; [by left|right; by apply table_ok_random]. }
    destruct IH as [Hsame Hids _].
    pose proof (catalog_ok_same _ _ Hsame Hcat) as Hcat'.
    destruct (rounds_from_ok (rarity_pools s) (num_cards_total s) num_packs (reset_rng seed s))
      as (packs & g' & Hdeal & Hlen & Hall).
    { intros k cid Hin. by apply (Hcat' k cid). }
    destruct (populate_ids_ok (card_color_identity s) (basic_land (rarity_pools s))
                (basic_land_ids s)) as [ids' Hpop].
    { apply Forall_forall. intros land_id Hin. by apply (Hcat' BasicLand land_id). }
    rewrite (reset_spec s seed packs g' ids' Hseed Hdeal Hpop). cbn [snd].
    destruct Hsame as (H1 & H2 & H3 & H4 & H5). split.
    + done.
    + cbn. rewrite H3, H4 in Hpop. rewrite <- Hids, Hpop.
      by apply (populate_ids_idem _ _ (basic_land_ids s)).
    + right. by apply fresh_table_ok.
  - destruct IH as [Hsame Hids [[Hnone Hd]|Hok]].
    + rewrite (step_before_reset s action Hnone Hd). split; [done|done|by left].
    + destruct (current_slot s action) as [cid|] eqn:Hslot.
      * destruct (step_accept run_matches s action cid Hok Hslot)
          as (s' & -> & Hok' & Hsame' & Hids' & _).
        split; [by eapply same_catalog_trans|by rewrite Hids'|by right].
      * assert (Hnot : ~ accepted s action) by (unfold accepted; rewrite Hslot; by intros [? ?]).
        rewrite (step_not_accepted run_matches s action Hok Hnot).
        split; [done|done|by right].
Qed.


End Reproducibility.
(** * Concrete runs *)

(** ** The driver of [src/test.py] *)

Section Driver.
Context {RS : RandomSource}.
Variable run_matches : list (option nat) -> result (list (string * nat * nat)).

Definition UnboundLocalError : exn := PyExc "UnboundLocalError".

(** [for b in range(len(mask)): if mask[b] == True: action = b] *)
Definition choose_action (mask : list bool) (action : option Z) : option Z :=
  foldl (fun (action : option Z) (bm : nat * bool) =>
           if bm.2 then Some (Z.of_nat bm.1) else action)
        action (enumerate mask).

(** The loop of [main], after [env.reset()]: the actions it submits and
    the state it leaves; an exception ends it. *)
Fixpoint main_loop (n : nat) (action : option Z) (s : DraftEnv)
    : list Z * result unit * DraftEnv :=
  match n with
  | 0 => ([], Ok tt, s)
  | S n' =>
      match get_mask s with
      | Raise e => ([], Raise e, s)
      | Ok mask =>
          match choose_action mask action with
          | None => ([], Raise UnboundLocalError, s)
          | Some a =>
              match step run_matches a s with
              | (Raise e, s1) => ([a], Raise e, s1)
              | (Ok _, s1) =>
                  let '(rest, r, s2) := main_loop n' (Some a) s1 in
                  (a :: rest, r, s2)
              end
          end
      end
  end.

Definition main (s : DraftEnv) : list Z * result unit * DraftEnv :=
  match reset None s with
  | (Raise e, s0) => ([], Raise e, s0)
  | (Ok _, s0) => main_loop 45 None s0
  end.

(** A decision procedure for [accepted_run]. *)
Fixpoint accepted_runb (actions : list Z) (s : DraftEnv) : bool :=
  match actions with
  | [] => true
  | a :: rest =>
      match current_slot s a with
      | Some _ => accepted_runb rest (step run_matches a s).2
      | None => false
      end
  end.

Lemma accepted_runb_sound (actions : list Z) : forall s : DraftEnv,
  accepted_runb actions s = true -> accepted_run run_matches actions s.
Proof.
  induction actions as [|a rest IH]; intros s; cbn [accepted_runb accepted_run]; [done|].
  unfold accepted. destruct (current_slot s a); [|done]. intros H. split; [eauto|by apply IH].
Qed.

Lemma reset_table_ok (cards : list CardRecord) (g : rng) (e : DraftEnv) (seed : option Z) :
  init cards g = Ok e -> seed_ok seed -> table_ok (reset seed e).2.
Proof.
  intros Hinit Hseed. destruct (init_ok _ _ _ Hinit) as (Hcat & _).
  by destruct (reset_ok e seed Hseed Hcat) as (obs & s' & -> & _ & Hok & _).
Qed.

End Driver.

(** ** A small catalog *)

Module Demo.

(** Five basic lands, twelve commons, four uncommons, two rares and a
    mythic: enough to fill every slot of a pack. *)
Definition catalog : list CardRecord :=
  [ card_record "Plains" ["W"] "common" true;
    card_record "Island" ["U"] "common" true;
    card_record "Swamp" ["B"] "common" true;
    card_record "Mountain" ["R"] "common" true;
    card_record "Forest" ["G"] "common" true;
    card_record "Ajani's Pridemate" ["W"] "Common" false;
    card_record "Opt" ["U"] "common" false;
    card_record "Duress" ["B"] "common" false;
    card_record "Shock" ["R"] "common" false;
    card_record "Giant Growth" ["G"] "common" false;
    card_record "Campus Guide" [] "common" false;
    card_record "Deputy of Detention" ["W"; "U"] "common" false;
    card_record "Healer's Hawk" ["W"] "common" false;
    card_record "Negate" ["U"] "common" false;
    card_record "Vampire Neonate" ["B"] "common" false;
    card_record "Goblin Surprise" ["R"] "common" false;
    card_record "Llanowar Elves" ["G"] "common" false;
    card_record "Angel of Vitality" ["W"] "uncommon" false;
    card_record "Essence Scatter" ["U"] "uncommon" false;
    card_record "Bake into a Pie" ["B"] "uncommon" false;
    card_record "Burst Lightning" ["R"] "uncommon" false;
    card_record "Day of Judgment" ["W"] "rare" false;
    card_record "Scavenging Ooze" ["G"] "rare" false;
    card_record "Muldrotha, the Gravetide" ["B"; "G"; "U"] "mythic" false ].

(** An arbiter under which the drafted deck wins one of its two matches. *)
Definition matches (deck : list (option nat)) : result (list (string * nat * nat)) :=
  Ok [("DM_mdr.dck", 1, 1200); ("adventurer.dck", 2, 900)].

(** An environment with nothing in it, standing for a failed constructor. *)
Definition blank : @DraftEnv lcg :=
  {| card_id_map := ∅; id_card_map := ∅; rarity_pools := empty_pools;
     card_color_identity := ∅; num_cards_total := 0; user_picks := [];
     basic_land_ids := ByColor None None None None None;
     round_idx := 0; pick_idx := 0; done_drafting := false;
     all_packs_by_round := None; pack_holder := None;
     random_state := @rng_seed lcg 0 |}.

Definition build (cards : list CardRecord) (g : @rng lcg) : @DraftEnv lcg :=
  match init (RS:=lcg) cards g with
  | Ok e => e
  | Raise _ => blank
  end.

Definition env : @DraftEnv lcg := build catalog (@rng_seed lcg 7).

(** The table after [reset(seed=42)]. *)
Abbreviation start := ((reset (Some 42%Z) env).2).

(** The forty-five actions the driver of [src/test.py] submits from there:
    each time the last filled slot of the pack on offer. *)
Definition actions : list Z :=
  Eval vm_compute in (main_loop matches 45 None start).1.1.

(** The table once they have been applied. *)
Abbreviation final := ((run matches actions start).2).

Lemma build_ok (cards : list CardRecord) (g : @rng lcg) :
  is_ok (init (RS:=lcg) cards g) = true -> init (RS:=lcg) cards g = Ok (build cards g).
Proof. unfold build. by destruct (init cards g). Qed.

Lemma init_env : init (RS:=lcg) catalog (@rng_seed lcg 7) = Ok env.
Proof. apply build_ok. vm_compute. reflexivity. Qed.

Lemma start_ok : table_ok start.
Proof.
  assert (Hseed : seed_ok (Some 42%Z)) by (cbn; lia).
  exact (reset_table_ok catalog (@rng_seed lcg 7) env (Some 42%Z) init_env Hseed).
Qed.

Lemma actions_accepted : accepted_run matches actions start.
Proof. apply accepted_runb_sound. vm_compute. reflexivity. Qed.

Lemma final_ok : table_ok final.
Proof.
  destruct (accepted_run_inv matches actions start start_ok actions_accepted) as [H _].
  exact H.
Qed.

Lemma final_done : done_drafting final = true.
Proof. vm_compute. reflexivity. Qed.

(** The name-to-identity structures of the catalog. *)
Definition maps : Maps :=
  match _build_maps catalog with
  | Ok m => m
  | Raise _ => empty_maps
  end.

Lemma maps_built : _build_maps catalog = Ok maps.
Proof.
  unfold maps. assert (H : is_ok (_build_maps catalog) = true) by (vm_compute; reflexivity).
  by destruct (_build_maps catalog).
Qed.

Lemma names_distinct : NoDup (known_names catalog).
Proof. apply (bool_decide_unpack _). vm_compute. reflexivity. Qed.

(** A catalog with reprints and a token: "Opt" is listed twice as a
    common, "Shock" once as a common and once as a rare, and the token
    carries a rarity label that is no pool. The common pool has ten
    entries, so [make_pack] samples it. *)
Definition reprints : list CardRecord :=
  [ card_record "Opt" ["U"] "common" false;
    card_record "Opt" ["U"] "common" false;
    card_record "Goblin Token" ["R"] "token" false;
    card_record "Shock" ["R"] "common" false;
    card_record "Shock" ["R"] "rare" false;
    card_record "Duress" ["B"] "common" false;
    card_record "Negate" ["U"] "common" false;
    card_record "Giant Growth" ["G"] "common" false;
    card_record "Healer's Hawk" ["W"] "common" false;
    card_record "Campus Guide" [] "common" false;
    card_record "Llanowar Elves" ["G"] "common" false;
    card_record "Vampire Neonate" ["B"] "common" false ].

Definition reprint_pools : RarityPools :=
  match _build_maps reprints with
  | Ok m => m_rarity_pools m
  | Raise _ => empty_pools
  end.

(** The demo catalog without its Island. *)
Definition no_island : list CardRecord :=
  filter (fun c => name c <> Some "Island") catalog.

(** The demo catalog without any basic land. *)
Definition no_lands : list CardRecord :=
  filter (fun c => is_basic_land c <> Some true) catalog.

(** A history of 33 picks: Ajani's Pridemate (white), Opt (blue) and 31
    copies of the colorless Campus Guide. *)
Definition two_colors : @DraftEnv lcg :=
  set_user_picks ([5; 6] ++ replicate 31 10) start.

End Demo.

(** ** The theorems at concrete inputs *)

Lemma step_invalid_action_unchanged_witness :
  (exists obs, _build_observation Demo.start = Ok obs /\
     step Demo.matches (-1)%Z Demo.start
       = (Ok (if done_drafting Demo.start then Tuple4 obs 0%float true
              else Tuple4 obs (-1)%float false), Demo.start)) /\
  (exists obs, _build_observation Demo.final = Ok obs /\
     step Demo.matches 3%Z Demo.final
       = (Ok (if done_drafting Demo.final then Tuple4 obs 0%float true
              else Tuple4 obs (-1)%float false), Demo.final)).
Proof.
  assert (Hbad : invalid_action Demo.start (-1)%Z) by (left; lia).
  exact (conj
    (step_invalid_action_unchanged Demo.matches Demo.start (-1)%Z Demo.start_ok
       (or_intror Hbad))
    (step_invalid_action_unchanged Demo.matches Demo.final 3%Z Demo.final_ok
       (or_introl Demo.final_done))).
Defined.

(** C1, as stated, fails on a terminal table: the out-of-range action
    [-1] submitted after the forty-five picks of the demo draft is answered
    with reward [0.0] and done, not with reward [-1.0] and not done. *)
Lemma step_terminal_rewards_zero :
  ((-1 < 0)%Z \/ (-1 >= 15)%Z) /\
  (exists obs, step Demo.matches (-1)%Z Demo.final = (Ok (Tuple4 obs 0%float true), Demo.final)) /\
  forall obs reward,
    step Demo.matches (-1)%Z Demo.final <> (Ok (Tuple4 obs reward false), Demo.final).
Proof.
  split; [left; lia|].
  destruct (step_terminal Demo.matches Demo.final (-1)%Z Demo.final_ok Demo.final_done)
    as (obs & _ & Hstep).
  split; [by exists obs|]. intros obs' reward. rewrite Hstep. intros [= _ _ ?].
Qed.

(** C2 (code bug): two histories on which [build_deck] returns 61 entries,
    28 of them lands. The first holds one white card, one blue card and
    31 colorless ones: each color is given [round(13.5) = 14] lands. The
    second is the history of the demo draft, whose tallies 12, 8, 9, 2, 12
    are given 8, 5, 6, 1 and 8 lands. *)
Theorem build_deck_overshoots :
  (length (user_picks Demo.two_colors) = 33 /\
   count_colors (card_color_identity Demo.two_colors) (take 33 (user_picks Demo.two_colors))
     = ByColor 1 1 0 0 0 /\
   build_deck Demo.two_colors 33 27
     = (Some <$> user_picks Demo.two_colors) ++ replicate 14 (Some 0) ++ replicate 14 (Some 1) /\
   length (build_deck Demo.two_colors 33 27) = 61) /\
  (length (user_picks Demo.final) = 45 /\
   count_colors (card_color_identity Demo.final) (take 33 (user_picks Demo.final))
     = ByColor 12 8 9 2 12 /\
   drop 33 (build_deck Demo.final 33 27)
     = replicate 8 (Some 0) ++ replicate 5 (Some 1) ++ replicate 6 (Some 2)
       ++ replicate 1 (Some 3) ++ replicate 8 (Some 4) /\
   length (build_deck Demo.final 33 27) = 61).
Proof. repeat apply conj; vm_compute; reflexivity. Qed.

Lemma full_draft_terminal_witness :
  let s := (run Demo.matches Demo.actions (reset (Some 42%Z) Demo.env).2).2 in
  done_drafting s = true /\ length (user_picks s) = 45 /\
  forall action, ~ accepted s action /\
    exists obs, step Demo.matches action s = (Ok (Tuple4 obs 0%float true), s).
Proof.
  exact (full_draft_terminal Demo.matches Demo.catalog (@rng_seed lcg 7) Demo.env
           (Some 42%Z) Demo.actions Demo.init_env eq_refl Demo.actions_accepted).
Defined.

Lemma make_pack_distinct_within_class_witness :
  let pools := m_rarity_pools Demo.maps in
  (exists lands commons uncommons rares g1 g2 g3 g',
     draw_basic_land (RS:=lcg) pools (@rng_seed lcg 42) = (Ok lands, g1) /\
     draw_commons pools g1 = (Ok commons, g2) /\
     draw_uncommons pools g2 = (Ok uncommons, g3) /\
     draw_rare_or_mythic pools g3 = (Ok rares, g') /\
     make_pack_from pools (@rng_seed lcg 42)
       = (Ok ((Some <$> lands ++ commons ++ uncommons ++ rares)
              ++ replicate (cards_per_pack - length (lands ++ commons ++ uncommons ++ rares)) None),
          g') /\
     NoDup commons /\ commons ⊆ common pools /\
     NoDup uncommons /\ uncommons ⊆ uncommon pools) /\
  NoDup (all_pool_ids pools) /\
  (forall card n cid k,
     card ∈ Demo.catalog -> name card = Some n -> m_card_id_map Demo.maps !! n = Some cid ->
     (cid ∈ pool pools k <-> bucket_of card = Some k)).
Proof.
  exact (make_pack_distinct_within_class Demo.catalog Demo.maps (@rng_seed lcg 42)
           Demo.maps_built Demo.names_distinct).
Defined.

(** C4, as stated, fails on a catalog with reprints: the common pool
    holds identity 0 twice, so the ten common slots sampled from its ten
    entries hold it twice; identity 2 is filed in two pools and identity 1
    in none. *)
Lemma make_pack_repeats_identity :
  is_ok (_build_maps Demo.reprints) = true /\
  Demo.reprint_pools
    = {| common := [0; 0; 2; 3; 4; 5; 6; 7; 8; 9]; uncommon := []; rare := [2];
         mythic := []; basic_land := [] |} /\
  (exists commons,
     (draw_commons (RS:=lcg) Demo.reprint_pools (@rng_seed lcg 42)).1 = Ok commons /\
     (make_pack_from (RS:=lcg) Demo.reprint_pools (@rng_seed lcg 42)).1
       = Ok ((Some <$> commons) ++ [Some 2] ++ replicate 4 None) /\
     length commons = 10 /\ ~ NoDup commons) /\
  (2 ∈ pool Demo.reprint_pools Common /\ 2 ∈ pool Demo.reprint_pools Rare) /\
  (forall k, 1 ∉ pool Demo.reprint_pools k).
Proof.
  assert (Hpools : Demo.reprint_pools
                   = {| common := [0; 0; 2; 3; 4; 5; 6; 7; 8; 9]; uncommon := []; rare := [2];
                        mythic := []; basic_land := [] |}) by (vm_compute; reflexivity).
  split; [vm_compute; reflexivity|]. split; [exact Hpools|]. rewrite Hpools.
  split; [|split; [split|]].
  - exists [0; 5; 8; 2; 6; 3; 9; 4; 7; 0].
    split; [vm_compute; reflexivity|]. split; [vm_compute; reflexivity|].
    split; [reflexivity|]. intros Hnd. apply NoDup_cons in Hnd as [Hnotin _].
    apply Hnotin, list_elem_of_In. cbn. tauto.
  - cbn. apply list_elem_of_In. cbn. tauto.
  - cbn. apply list_elem_of_In. cbn. tauto.
  - intros [] Hin; cbn in Hin; apply list_elem_of_In in Hin; cbn in Hin;
      intuition discriminate.
Qed.

Lemma make_pack_fifteen_slots_witness :
  exists (lands commons uncommons rares : list nat) (g' : rng),
    let s := Demo.build Demo.no_lands (@rng_seed lcg 7) in
    let pools := rarity_pools s in
    let drawn := lands ++ commons ++ uncommons ++ rares in
    let pack := (Some <$> drawn) ++ replicate (cards_per_pack - length drawn) None in
    make_pack s = (Ok pack, set_random_state g' s) /\
    length pack = 15 /\
    length lands = length (basic_land pools) `min` 1 /\
    length commons = length (common pools) `min` 10 /\
    length uncommons = length (uncommon pools) `min` 3 /\
    length rares = length (rare pools ++ mythic pools) `min` 1 /\
    (basic_land pools = [] -> lands = []) /\
    (length (common pools) < 10 -> commons = common pools) /\
    (length (uncommon pools) < 3 -> uncommons = uncommon pools).
Proof.
  exact (make_pack_fifteen_slots (Demo.build Demo.no_lands (@rng_seed lcg 7))).
Defined.

(** Without basic lands the pack opens with the ten commons and ends with
    one empty slot; with the first five records of the reprint catalog,
    whose pools are all short, eleven slots stay empty. *)
Example make_pack_without_lands :
  basic_land (rarity_pools (Demo.build Demo.no_lands (@rng_seed lcg 7))) = [] /\
  (make_pack (Demo.build Demo.no_lands (@rng_seed lcg 7))).1
    = Ok [Some 4; Some 5; Some 8; Some 3; Some 9; Some 10; Some 0; Some 6; Some 1; Some 2;
          Some 13; Some 15; Some 12; Some 18; None] /\
  (make_pack (Demo.build (take 5 Demo.reprints) (@rng_seed lcg 7))).1
    = Ok ([Some 0; Some 0; Some 2; Some 2] ++ replicate 11 None).
Proof. repeat apply conj; vm_compute; reflexivity. Qed.



Lemma build_deck_default_color_witness :
  let s := (reset (Some 1%Z) (Demo.build Demo.no_island (@rng_seed lcg 7))).2 in
  build_deck s 33 27
    = (Some <$> take 33 (user_picks s)) ++ replicate 27 (cget (basic_land_ids s) Color.U) /\
  forall cards (g0 : @rng lcg) (e : @DraftEnv lcg) seed,
    init cards g0 = Ok e ->
    basic_land_ids s = basic_land_ids (reset seed e).2 ->
    if is_ok (reset seed e).1
    then
      cget (basic_land_ids s) Color.U
        = last (filter (fun land_id => card_color_identity e !! land_id = Some ["U"])
                       (basic_land (rarity_pools e))) /\
      (Forall (fun land_id => card_color_identity e !! land_id <> Some ["U"])
              (basic_land (rarity_pools e)) ->
       build_deck s 33 27 = (Some <$> take 33 (user_picks s)) ++ replicate 27 None)
    else
      build_deck s 33 27 = (Some <$> take 33 (user_picks s)) ++ replicate 27 None.
Proof.
  assert (Hzero : total_of (count_colors
                    (card_color_identity (reset (Some 1%Z)
                       (Demo.build Demo.no_island (@rng_seed lcg 7))).2)
                    (take 33 (user_picks (reset (Some 1%Z)
                       (Demo.build Demo.no_island (@rng_seed lcg 7))).2))) = 0).
  { vm_compute. reflexivity. }
  exact (build_deck_default_color _ 33 27 Hzero).
Defined.

(** With no Island in the catalog the deck built from an empty history is
    27 times [None]; with the full catalog it is 27 Islands. *)
Example build_deck_without_island :
  build_deck (reset (Some 1%Z) (Demo.build Demo.no_island (@rng_seed lcg 7))).2 33 27
    = replicate 27 None /\
  build_deck Demo.start 33 27 = replicate 27 (Some 1).
Proof. repeat apply conj; vm_compute; reflexivity. Qed.




(** The shapes along the demo draft: forty-four five-element returns with
    reward [0.0], the last one with the win rate [0.5] and done, then the
    four-element return of a terminal table. *)
Definition shape_of (r : result StepReturn) : option (nat * float * bool) :=
  match r with
  | Ok (Tuple4 _ reward done) => Some (4, reward, done)
  | Ok (Tuple5 _ reward done _) => Some (5, reward, done)
  | Raise _ => None
  end.

Example demo_draft_shapes :
  shape_of <$> (run Demo.matches (Demo.actions ++ [0%Z]) Demo.start).1
    = replicate 44 (Some (5, 0%float, false)) ++ [Some (5, 0.5%float, true)]
      ++ [Some (4, 0%float, true)] /\
  (shape_of <$> (run Demo.matches [15%Z; (-1)%Z] Demo.start).1)
    = replicate 2 (Some (4, (-1)%float, false)).
Proof. repeat apply conj; vm_compute; reflexivity. Qed.
(** * Further properties of the code *)

(** ** The catalog index, continued *)

Section CatalogMore.

(** One iteration of [_build_maps], read backwards. *)
Lemma build_card_elim (m m' : Maps) (card : CardRecord) :
  build_card m card = Ok m' ->
  exists n cid,
    name card = Some n /\ m_card_id_map m' !! n = Some cid /\
    m_card_color_identity m'
      = <[cid := default [] (color_identity card)]> (m_card_color_identity m) /\
    ((m_card_id_map m !! n = Some cid /\ m_card_id_map m' = m_card_id_map m /\
      m_id_card_map m' = m_id_card_map m /\ m_idx m' = m_idx m) \/
     (m_card_id_map m !! n = None /\ cid = m_idx m /\
      m_card_id_map m' = <[n := m_idx m]> (m_card_id_map m) /\
      m_id_card_map m' = <[m_idx m := n]> (m_id_card_map m) /\
      m_idx m' = S (m_idx m))).
Proof.
  unfold build_card. destruct (name card) as [n|]; [|done].
  unfold register_name. destruct (m_card_id_map m !! n) as [cid|] eqn:Hn.
  - rewrite Hn. intros [= <-]. exists n, cid. cbn. eauto 10.
  - cbn. rewrite lookup_insert_eq. intros [= <-]. exists n, (m_idx m). cbn.
    rewrite lookup_insert_eq. eauto 10.
Qed.

Lemma build_loop_app (l1 l2 : list CardRecord) : forall m,
  build_loop m (l1 ++ l2)
    = match build_loop m l1 with
      | Ok m1 => build_loop m1 l2
      | Raise e => Raise e
      end.
Proof.
  induction l1 as [|card l1 IH]; intros m; cbn; [done|].
  destruct (build_card m card); [apply IH|done].
Qed.

(** Identities, once given, stay. *)
Lemma build_card_keeps (m m' : Maps) (card : CardRecord) (n : string) (cid : nat) :
  build_card m card = Ok m' ->
  m_card_id_map m !! n = Some cid -> m_card_id_map m' !! n = Some cid.
Proof.
  intros (n' & cid' & _ & _ & _ & [(_ & -> & _)|(Hnone & _ & -> & _)])%build_card_elim Hn;
    [done|].
  rewrite lookup_insert_ne; [done|]. intros ->. congruence.
Qed.

Lemma build_loop_keeps (cards : list CardRecord) : forall m m' n cid,
  build_loop m cards = Ok m' ->
  m_card_id_map m !! n = Some cid -> m_card_id_map m' !! n = Some cid.
Proof.
  induction cards as [|card rest IH]; intros m m' n cid; cbn.
  - by intros [= <-].
  - destruct (build_card m card) as [m1|] eqn:Hcard; [|done]. intros Hloop Hn.
    eapply IH; [done|]. by eapply build_card_keeps.
Qed.

Definition dense (m : Maps) : Prop :=
  forall cid, cid < m_idx m -> is_Some (m_id_card_map m !! cid).

Lemma build_card_dense (m m' : Maps) (card : CardRecord) :
  dense m -> build_card m card = Ok m' -> dense m'.
Proof.
  intros Hd (n & cid & _ & _ & _ & [(_ & _ & Hid & Hidx)|(_ & _ & _ & Hid & Hidx)])%build_card_elim
    c Hc.
  - rewrite Hid. apply Hd. lia.
  - rewrite Hid. destruct (decide (c = m_idx m)) as [->|Hne].
    + rewrite lookup_insert_eq. eauto.
    + rewrite lookup_insert_ne by done. apply Hd. lia.
Qed.

Lemma build_loop_dense (cards : list CardRecord) : forall m m',
  dense m -> build_loop m cards = Ok m' -> dense m'.
Proof.
  induction cards as [|card rest IH]; intros m m' Hd; cbn.
  - by intros [= <-].
  - destruct (build_card m card) as [m1|] eqn:Hcard; [|done].
    apply IH. by eapply build_card_dense.
Qed.

(** X1: the identities of a catalog are exactly the numbers below the
    count of distinct names, every one of them named, and a name first
    seen after [k] distinct names has identity [k]. *)
Theorem build_maps_dense (cards : list CardRecord) (m : Maps) :
  _build_maps cards = Ok m ->
  (forall cid, cid < size (m_card_id_map m) <-> is_Some (m_id_card_map m !! cid)) /\
  (forall before card rest n,
     cards = before ++ card :: rest -> name card = Some n -> n ∉ known_names before ->
     m_card_id_map m !! n = Some (size (list_to_set (known_names before) : gset string))).
Proof.
  intros Hb. destruct (build_maps_inv _ _ Hb) as [_ Hinv]. split.
  - intros cid. rewrite (inv_size _ _ Hinv). split.
    + apply (build_loop_dense cards empty_maps m); [|done]. intros c Hc. cbn in Hc. lia.
    + intros [n Hn]. apply (inv_back _ _ Hinv) in Hn. by apply (inv_below _ _ Hinv) in Hn.
  - intros before card rest n -> Hname Hnew. unfold _build_maps in Hb.
    rewrite build_loop_app in Hb.
    destruct (build_loop empty_maps before) as [m1|] eqn:Hb1; [|done].
    destruct (build_maps_inv before m1 Hb1) as [_ Hinv1].
    cbn in Hb. destruct (build_card m1 card) as [m2|] eqn:Hcard; [|done].
    destruct (build_card_inv before m1 card n Hinv1 Hname) as (m2' & Hcard' & _ & _ & Hfresh).
    rewrite Hcard in Hcard'. injection Hcard' as <-.
    destruct (Hfresh Hnew) as (Hn & _).
    rewrite <- (inv_dom _ _ Hinv1), size_dom, (inv_size _ _ Hinv1).
    by apply (build_loop_keeps rest m2 m).
Qed.

(** Records of other names leave a color identity alone. *)
Lemma build_loop_colors (cards : list CardRecord) : forall seen m m' n cid,
  maps_inv seen m -> build_loop m cards = Ok m' ->
  m_card_id_map m !! n = Some cid -> n ∉ known_names cards ->
  m_card_color_identity m' !! cid = m_card_color_identity m !! cid.
Proof.
  induction cards as [|card rest IH]; intros seen m m' n cid Hinv; cbn.
  - by intros [= <-].
  - destruct (build_card m card) as [m1|] eqn:Hcard; [|done]. intros Hloop Hn Hnew.
    pose proof Hcard as (n' & cid' & Hname & Hcid' & Hcol & _)%build_card_elim.
    destruct (build_card_inv seen m card n' Hinv Hname) as (m1' & Hcard' & Hinv1 & _).
    rewrite Hcard in Hcard'. injection Hcard' as <-.
    assert (Hne : n <> n').
    { intros ->. apply Hnew. unfold known_names. cbn. rewrite Hname. left. }
    assert (Hn1 : m_card_id_map m1 !! n = Some cid) by (by eapply build_card_keeps).
    rewrite (IH _ m1 m' n cid Hinv1 Hloop Hn1).
    + rewrite Hcol. apply lookup_insert_ne. intros ->.
      apply (inv_there _ _ Hinv1) in Hn1, Hcid'. congruence.
    + intros Hin. apply Hnew. unfold known_names in *. cbn. rewrite Hname. by right.
Qed.

(** X2: the color identity recorded for a card is the one of the last
    record that carries its name, the empty list when that record has
    none; earlier records of the name do not count. *)
Theorem build_maps_last_colors (cards : list CardRecord) (m : Maps) :
  _build_maps cards = Ok m ->
  forall before card rest n,
    cards = before ++ card :: rest -> name card = Some n -> n ∉ known_names rest ->
    exists cid, m_card_id_map m !! n = Some cid /\
      m_card_color_identity m !! cid = Some (default [] (color_identity card)).
Proof.
  intros Hb before card rest n -> Hname Hlast. unfold _build_maps in Hb.
  rewrite build_loop_app in Hb.
  destruct (build_loop empty_maps before) as [m1|] eqn:Hb1; [|done].
  destruct (build_maps_inv before m1 Hb1) as [_ Hinv1].
  cbn in Hb. destruct (build_card m1 card) as [m2|] eqn:Hcard; [|done].
  pose proof Hcard as (n' & cid & Hname' & Hcid & Hcol & _)%build_card_elim.
  rewrite Hname in Hname'. injection Hname' as <-.
  destruct (build_card_inv before m1 card n Hinv1 Hname) as (m2' & Hcard' & Hinv2 & _).
  rewrite Hcard in Hcard'. injection Hcard' as <-.
  exists cid. split; [by apply (build_loop_keeps rest m2 m)|].
  rewrite (build_loop_colors rest _ m2 m n cid Hinv2 Hb Hcid Hlast), Hcol.
  apply lookup_insert_eq.
Qed.

End CatalogMore.

(** ** Pack generation, continued *)

Section PackMore.
Context {RS : RandomSource}.

(** The number of cards left in a pack. *)
Definition filled (p : Pack) : nat :=
  length (filter (fun c => slot_filled c = true) p).

(** The number of cards [make_pack] draws, by the sizes of the pools. *)
Definition pack_fill (pools : RarityPools) : nat :=
  length (basic_land pools) `min` 1 + length (common pools) `min` 10
  + length (uncommon pools) `min` 3 + length (rare pools ++ mythic pools) `min` 1.

Lemma filled_app (p q : Pack) : filled (p ++ q) = filled p + filled q.
Proof. unfold filled. by rewrite filter_app, length_app. Qed.

Lemma filled_Some (l : list nat) : filled (Some <$> l) = length l.
Proof.
  unfold filled. induction l as [|x l IH]; [done|].
  rewrite fmap_cons, filter_cons, decide_True by done. cbn [length]. by rewrite IH.
Qed.

Lemma filled_None (n : nat) : filled (replicate n None) = 0.
Proof.
  unfold filled. induction n as [|n IH]; [done|].
  cbn [replicate]. rewrite filter_cons, decide_False by done. exact IH.
Qed.

Lemma filled_le (p : Pack) : filled p <= length p.
Proof. unfold filled. apply length_filter. Qed.

(** Taking a card out of a slot leaves one card less. *)
Lemma filled_clear (p : Pack) (j cid : nat) :
  p !! j = Some (Some cid) -> S (filled (<[j := None]> p)) = filled p.
Proof.
  intros Hj. pose proof (lookup_lt_Some _ _ _ Hj) as Hlt.
  rewrite insert_take_drop by done.
  rewrite <- (take_drop_middle p j (Some cid) Hj) at 3.
  rewrite !filled_app.
  assert (Hn : forall q, filled (None :: q) = filled q).
  { intros q. unfold filled. by rewrite filter_cons, decide_False. }
  assert (Hs : forall q, filled (Some cid :: q) = S (filled q)).
  { intros q. unfold filled. by rewrite filter_cons, decide_True. }
  rewrite Hn, Hs. lia.
Qed.

Lemma filled_pos (p : Pack) :
  0 < filled p <-> exists j cid, p !! j = Some (Some cid).
Proof.
  unfold filled. induction p as [|c p IH].
  - cbn. split; [lia|]. by intros (j & cid & H).
  - rewrite filter_cons. destruct c as [cid|].
    + rewrite decide_True by done. cbn [length]. split; [|lia]. intros _. by exists 0, cid.
    + rewrite decide_False by done. rewrite IH. split.
      * intros (j & cid & H). by exists (S j), cid.
      * intros ([|j] & cid & H); [done|]. by exists j, cid.
Qed.

(** The slots another seat may pick from: those holding a card. *)
Lemma valid_slots_elem (p : Pack) (j : nat) :
  j ∈ (fst <$> filter (fun ic => slot_filled ic.2 = true) (enumerate p))
  <-> exists cid, p !! j = Some (Some cid).
Proof.
  rewrite list_elem_of_fmap. split.
  - intros ([j' c] & -> & [Hc Hin%enumerate_lookup]%list_elem_of_filter). cbn in *.
    destruct c as [cid|]; [|done]. by exists cid.
  - intros [cid Hj]. exists (j, Some cid). split; [done|].
    apply list_elem_of_filter. split; [done|]. by apply enumerate_lookup.
Qed.

Lemma valid_slots_nil (p : Pack) :
  fst <$> filter (fun ic => slot_filled ic.2 = true) (enumerate p) = [] -> filled p = 0.
Proof.
  intros Hnil. destruct (filled p) eqn:Hf; [done|].
  assert (Hpos : 0 < filled p) by lia.
  apply filled_pos in Hpos as (j & cid & Hj).
  assert (Hin : j ∈ (fst <$> filter (fun ic => slot_filled ic.2 = true) (enumerate p))).
  { apply valid_slots_elem. eauto. }
  rewrite Hnil in Hin. by apply elem_of_nil in Hin.
Qed.

(** What [make_pack_from] returns, whenever it returns. *)
Lemma make_pack_from_fill (pools : RarityPools) (g g' : rng) (pack : Pack) :
  make_pack_from pools g = (Ok pack, g') ->
  length pack = cards_per_pack /\ filled pack = pack_fill pools /\
  (exists drawn, length drawn = pack_fill pools /\
     pack = (Some <$> drawn) ++ replicate (cards_per_pack - pack_fill pools) None) /\
  (forall i cid, pack !! i = Some (Some cid) -> exists k, cid ∈ pool pools k) /\
  (pack_fill pools = cards_per_pack ->
   exists l cs us r, pack = Some <$> (l :: cs ++ us ++ [r]) /\
     l ∈ basic_land pools /\ length cs = 10 /\ cs ⊆ common pools /\
     length us = 3 /\ us ⊆ uncommon pools /\ r ∈ rare pools ++ mythic pools).
Proof.
  destruct (make_pack_from_spec pools g)
    as (lands & commons & uncommons & rares & g1 & g2 & g3 & g4 & rest_c & rest_u &
        _ & _ & _ & _ & Hpack & Hlen & (Hl & Hl') & (Hc & Hc' & _) & (Hu & Hu' & _) & (Hr & Hr')).
  rewrite Hpack. intros [= <- <-].
  assert (Hdrawn : length (lands ++ commons ++ uncommons ++ rares) = pack_fill pools).
  { rewrite !length_app. unfold pack_fill. lia. }
  assert (Hcs : commons ⊆ common pools).
  { intros x Hx. rewrite <- Hc'. apply elem_of_app. by left. }
  assert (Hus : uncommons ⊆ uncommon pools).
  { intros x Hx. rewrite <- Hu'. apply elem_of_app. by left. }
  split; [|split; [|split; [|split]]].
  - rewrite length_app, length_fmap, length_replicate. lia.
  - by rewrite filled_app, filled_Some, filled_None, Hdrawn, Nat.add_0_r.
  - exists (lands ++ commons ++ uncommons ++ rares). split; [done|]. by rewrite Hdrawn.
  - intros i cid Hi. apply lookup_app_Some in Hi as [Hi|[_ Hi]].
    + rewrite list_lookup_fmap in Hi.
      destruct ((lands ++ commons ++ uncommons ++ rares) !! i) as [x|] eqn:Hx; [|done].
      injection Hi as ->. apply list_elem_of_lookup_2 in Hx.
      rewrite !elem_of_app in Hx. destruct Hx as [Hx|[Hx|[Hx|Hx]]].
      * exists BasicLand. by apply Hl'.
      * exists Common. by apply Hcs.
      * exists Uncommon. by apply Hus.
      * apply Hr', elem_of_app in Hx as [Hx|Hx]; [by exists Rare|by exists Mythic].
    + by apply lookup_replicate in Hi as [? _].
  - intros Hfull. unfold pack_fill, cards_per_pack in *.
    assert (length lands = 1 /\ length commons = 10 /\ length uncommons = 3 /\ length rares = 1)
      as (Hl1 & Hc1 & Hu1 & Hr1) by lia.
    destruct lands as [|l [|]]; try done. destruct rares as [|r [|]]; try done.
    exists l, commons, uncommons, r.
    rewrite Hdrawn, Hfull. cbn [replicate]. rewrite app_nil_r.
    split; [done|]. split; [apply Hl'; left|]. split; [done|]. split; [done|].
    split; [done|]. split; [done|]. apply Hr'. left.
Qed.

Lemma packs_from_fill (pools : RarityPools) (count : nat) : forall (g g' : rng) packs,
  packs_from pools count g = (Ok packs, g') ->
  Forall (fun p => filled p = pack_fill pools) packs.
Proof.
  induction count as [|count IH]; intros g g' packs; cbn [packs_from].
  - intros [= <- <-]. constructor.
  - unfold bind, ret.
    destruct (make_pack_from pools g) as [[p|] g1] eqn:Hp; [|done].
    destruct (packs_from pools count g1) as [[ps|] g2] eqn:Hps; [|done].
    intros [= <- <-]. constructor; [|by eapply IH].
    by apply make_pack_from_fill in Hp as (_ & Hp & _).
Qed.

Lemma rounds_from_fill (pools : RarityPools) (rounds : nat) : forall (g g' : rng) packs,
  rounds_from pools rounds g = (Ok packs, g') ->
  Forall (Forall (fun p => filled p = pack_fill pools)) packs.
Proof.
  induction rounds as [|rounds IH]; intros g g' packs; cbn [rounds_from].
  - intros [= <- <-]. constructor.
  - unfold bind, ret.
    destruct (packs_from pools num_players g) as [[r|] g1] eqn:Hr; [|done].
    destruct (rounds_from pools rounds g1) as [[rs|] g2] eqn:Hrs; [|done].
    intros [= <- <-]. constructor; [by eapply packs_from_fill|by eapply IH].
Qed.

(** X3: the pack [make_pack] returns holds as many cards as the sizes of
    the pools allow, one land, ten commons, three uncommons and one rare
    or mythic at most, in the first slots, the slots after them empty;
    every card is filed in a pool; and when no pool is short the pack is
    a basic land, ten commons, three uncommons and a rare or mythic, in
    that order. *)
Theorem make_pack_composition (s : DraftEnv) :
  exists (pack : Pack) (g' : rng),
    make_pack s = (Ok pack, set_random_state g' s) /\
    filled pack = pack_fill (rarity_pools s) /\
    (exists drawn, length drawn = pack_fill (rarity_pools s) /\
       pack = (Some <$> drawn)
              ++ replicate (cards_per_pack - pack_fill (rarity_pools s)) None) /\
    (forall i cid, pack !! i = Some (Some cid) -> exists k, cid ∈ pool (rarity_pools s) k) /\
    (pack_fill (rarity_pools s) = cards_per_pack ->
     exists l cs us r, pack = Some <$> (l :: cs ++ us ++ [r]) /\
       l ∈ basic_land (rarity_pools s) /\
       length cs = 10 /\ cs ⊆ common (rarity_pools s) /\
       length us = 3 /\ us ⊆ uncommon (rarity_pools s) /\
       r ∈ rare (rarity_pools s) ++ mythic (rarity_pools s)).
Proof.
  destruct (make_pack_from_spec (rarity_pools s) (random_state s))
    as (lands & commons & uncommons & rares & g1 & g2 & g3 & g' & rest_c & rest_u &
        _ & _ & _ & _ & Hpack & _).
  eexists _, g'. split; [by apply make_pack_unfold|].
  by apply make_pack_from_fill in Hpack as (_ & H).
Qed.

End PackMore.

(** ** The draft, pick by pick *)

Section DraftFacts.
Context {RS : RandomSource}.
Variable run_matches : list (option nat) -> result (list (string * nat * nat)).

(** The holder list after [k] passes to the right: a seat holds the pack
    dealt [k] seats to its left, [7 * k] seats to its right on a table of
    eight. *)
Definition rot (k : nat) : list nat :=
  (fun seat => (seat + 7 * k) mod num_players) <$> seq 0 num_players.

Lemma rot_lookup (k seat : nat) :
  seat < num_players -> rot k !! seat = Some ((seat + 7 * k) mod num_players).
Proof.
  intros Hseat. unfold rot. by rewrite list_lookup_fmap, lookup_seq_lt.
Qed.

Lemma rot_back (k i : nat) :
  i < num_players -> ((i + k) mod num_players + 7 * k) mod num_players = i.
Proof.
  intros Hi. unfold num_players in *. rewrite Nat.Div0.add_mod_idemp_l.
  replace (i + k + 7 * k) with (i + k * 8) by lia.
  rewrite Nat.Div0.mod_add. by apply Nat.mod_small.
Qed.

Lemma rot_forth (k seat : nat) :
  seat < num_players -> ((seat + 7 * k) mod num_players + k) mod num_players = seat.
Proof.
  intros Hi. unfold num_players in *. rewrite Nat.Div0.add_mod_idemp_l.
  replace (seat + 7 * k + k) with (seat + k * 8) by lia.
  rewrite Nat.Div0.mod_add. by apply Nat.mod_small.
Qed.

Lemma rot_perm (k : nat) : rot k ≡ₚ seq 0 num_players.
Proof.
  apply NoDup_Permutation.
  - unfold rot. apply NoDup_fmap_2_strong; [|apply NoDup_seq].
    intros a b Ha%elem_of_seq Hb%elem_of_seq Heq.
    rewrite <- (rot_forth k a), <- (rot_forth k b) by lia. by rewrite Heq.
  - apply NoDup_seq.
  - intros i. rewrite elem_of_seq. unfold rot. rewrite list_elem_of_fmap. split.
    + intros (seat & -> & Hs%elem_of_seq). split; [lia|]. cbn [Nat.add].
      apply Nat.mod_upper_bound. done.
    + intros [_ Hi]. exists ((i + k) mod num_players). split; [by rewrite rot_back|].
      apply elem_of_seq. split; [lia|]. cbn [Nat.add]. by apply Nat.mod_upper_bound.
Qed.

Lemma rot_0 : rot 0 = seq 0 num_players.
Proof. reflexivity. Qed.

(** Passing to the right, seat by seat. *)
Lemma pass_right_lookup (h : list nat) :
  length h = num_players ->
  exists h', pass_right (Some <$> h) = Ok (Some <$> h') /\ length h' = num_players /\
    forall seat, seat < num_players -> h' !! ((seat + 1) mod num_players) = h !! seat.
Proof.
  intros Hlen. unfold num_players in *.
  do 9 (destruct h as [|? h]; try discriminate Hlen).
  eexists [_; _; _; _; _; _; _; _]. split; [reflexivity|]. split; [reflexivity|].
  intros seat Hseat. do 8 (destruct seat as [|seat]; [reflexivity|]). lia.
Qed.

Lemma pass_right_rot (k : nat) : pass_right (Some <$> rot k) = Ok (Some <$> rot (S k)).
Proof.
  destruct (pass_right_lookup (rot k)) as (h' & -> & Hlen & Hh').
  { unfold rot. by rewrite length_fmap, length_seq. }
  do 2 f_equal. apply (list_eq_same_length _ _ num_players); [|done|].
  { unfold rot. by rewrite length_fmap, length_seq. }
  intros j x y Hj Hx Hy. rewrite rot_lookup in Hy by done.
  assert (y = (j + 7 * S k) mod num_players) as -> by congruence. clear Hy.
  assert (Hseat : ((j + 7) mod num_players + 1) mod num_players = j).
  { unfold num_players in *. rewrite Nat.Div0.add_mod_idemp_l.
    replace (j + 7 + 1) with (j + 1 * 8) by lia.
    rewrite Nat.Div0.mod_add. by apply Nat.mod_small. }
  rewrite <- Hseat, Hh', rot_lookup in Hx by (by apply Nat.mod_upper_bound).
  assert (x = ((j + 7) mod num_players + 7 * k) mod num_players) as -> by congruence.
  unfold num_players. rewrite Nat.Div0.add_mod_idemp_l. f_equal. lia.
Qed.

(** *** One pick from every pack *)

(** In a round where the packs at [touched] hold [c] cards and the
    others one more. *)
Definition round_fill (c : nat) (touched : list nat) (rp : list Pack) : Prop :=
  forall i p, rp !! i = Some p -> filled p = if decide (i ∈ touched) then c else S c.

Lemma seat_pack_elim (s : DraftEnv) (seat i : nat) h packs rp :
  pack_holder s = Some (Some <$> h) -> all_packs_by_round s = Some packs ->
  packs !! round_idx s = Some rp -> h !! seat = Some i ->
  seat_pack seat s = match rp !! i with
                     | Some p => Ok (i, p)
                     | None => Raise IndexError
                     end.
Proof.
  intros Hh Hp Hr Hi. unfold seat_pack, index.
  rewrite Hh, list_lookup_fmap, Hi, Hp, Hr. cbn. by destruct (rp !! i).
Qed.

Lemma other_seat_pick_fill (s : DraftEnv) (seat n c i : nat) h packs rp touched :
  pack_holder s = Some (Some <$> h) -> all_packs_by_round s = Some packs ->
  packs_ok n packs -> packs !! round_idx s = Some rp ->
  h !! seat = Some i -> i < num_players -> i ∉ touched ->
  round_fill c touched rp ->
  exists packs' g' rp',
    other_seat_pick seat s = (Ok tt, picked packs' g' s) /\ packs_ok n packs' /\
    packs' !! round_idx s = Some rp' /\ round_fill c (i :: touched) rp' /\
    (forall r, r <> round_idx s -> packs' !! r = packs !! r).
Proof.
  intros Hh Hp Hpok Hr Hi Hilt Hfresh Hfill.
  destruct (Forall_lookup_1 _ _ _ _ (proj2 Hpok) Hr) as [Hrlen Hrall].
  destruct (lookup_lt_is_Some_2 rp i ltac:(lia)) as [p Hpk].
  pose proof (Hfill i p Hpk) as Hcount. rewrite decide_False in Hcount by done.
  unfold other_seat_pick, bind, reader.
  rewrite (seat_pack_elim s seat i h packs rp) by done. rewrite Hpk.
  destruct (fst <$> filter (fun ic => slot_filled ic.2 = true) (enumerate p)) as [|v vs] eqn:Hvs.
  - apply valid_slots_nil in Hvs. lia.
  - destruct (choice_spec (v :: vs) (random_state s) ltac:(done)) as (chosen & g' & Hc & Hin).
    rewrite <- Hvs in Hin. apply valid_slots_elem in Hin as [cid Hcid].
    unfold with_random. rewrite Hc. unfold modify, clear_slot. cbn. rewrite Hp. cbn.
    eexists _, g', (alter (<[chosen := None]>) i rp). split; [reflexivity|].
    split; [by apply packs_ok_clear|].
    split; [by rewrite list_lookup_alter_eq, Hr|]. split.
    + intros j q Hq. destruct (decide (j = i)) as [->|Hne].
      * rewrite list_lookup_alter_eq, Hpk in Hq. injection Hq as <-.
        rewrite decide_True by left.
        pose proof (filled_clear p chosen cid Hcid). lia.
      * rewrite list_lookup_alter_ne in Hq by done. rewrite (Hfill j q Hq).
        destruct (decide (j ∈ touched)) as [Hin|Hout].
        -- rewrite decide_True; [done|by right].
        -- rewrite decide_False; [done|]. intros [?|?]%elem_of_cons; done.
    + intros r Hne. by rewrite list_lookup_alter_ne.
Qed.

Lemma others_pick_fill (seats : list nat) :
  forall (s : DraftEnv) (n c : nat) h packs rp touched,
  pack_holder s = Some (Some <$> h) -> all_packs_by_round s = Some packs ->
  packs_ok n packs -> packs !! round_idx s = Some rp ->
  NoDup h -> Forall (fun i => i < num_players) h ->
  NoDup seats -> Forall (fun seat => seat < length h) seats ->
  (forall seat i, seat ∈ seats -> h !! seat = Some i -> i ∉ touched) ->
  round_fill c touched rp ->
  exists packs' g' rp' touched',
    for_each seats other_seat_pick s = (Ok tt, picked packs' g' s) /\ packs_ok n packs' /\
    packs' !! round_idx s = Some rp' /\ round_fill c touched' rp' /\
    (forall i, i ∈ touched' <-> i ∈ touched \/ exists seat, seat ∈ seats /\ h !! seat = Some i) /\
    (forall r, r <> round_idx s -> packs' !! r = packs !! r).
Proof.
  induction seats as [|seat seats IH];
    intros s n c h packs rp touched Hh Hp Hpok Hr Hnd Hhall Hsnd Hseats Hfresh Hfill.
  - exists packs, (random_state s), rp, touched. cbn. unfold ret. rewrite picked_same by done.
    split; [done|]. split; [done|]. split; [done|]. split; [done|]. split; [|done].
    intros i. split; [by left|]. intros [?|(seat & []%elem_of_nil & _)]. done.
  - apply Forall_cons in Hseats as [Hseat Hseats]. apply NoDup_cons in Hsnd as [Hnotin Hsnd].
    destruct (lookup_lt_is_Some_2 h seat Hseat) as [i Hi].
    pose proof (Forall_lookup_1 _ _ _ _ Hhall Hi) as Hilt. cbn in Hilt.
    destruct (other_seat_pick_fill s seat n c i h packs rp touched)
      as (packs1 & g1 & rp1 & H1 & Hok1 & Hr1 & Hfill1 & Hrest1); try done.
    { apply (Hfresh seat); [left|done]. }
    cbn [for_each]. unfold bind. rewrite H1.
    destruct (IH (picked packs1 g1 s) n c h packs1 rp1 (i :: touched))
      as (packs' & g' & rp' & touched' & H' & Hok' & Hr' & Hfill' & Hin' & Hrest'); try done.
    { intros seat' i' Hseat' Hi' [->|Hin]%elem_of_cons.
      - assert (seat' = seat) by exact (NoDup_lookup h seat' seat i Hnd Hi' Hi). by subst.
      - apply (Hfresh seat' i'); [by right|done|done]. }
    rewrite H'. exists packs', g', rp', touched'.
    split; [done|]. split; [done|]. split; [done|]. split; [done|]. split.
    + intros j. rewrite Hin', elem_of_cons. split.
      * intros [[->|?]|(seat' & ? & ?)]; [right|by left|right].
        -- exists seat. split; [left|done].
        -- exists seat'. split; [by right|done].
      * intros [?|(seat' & [->|?]%elem_of_cons & Hj)]; [by left; right| |].
        -- left. left. congruence.
        -- right. by exists seat'.
    + intros r Hne. rewrite Hrest' by done. by apply Hrest1.
Qed.

(** An accepted pick, in a round whose packs hold the same number of
    cards: every pack of the round loses one card, the other rounds are
    left alone. *)
Lemma accept_fill (s : DraftEnv) (i slot cid n c : nat) h h' packs rp p :
  pack_holder s = Some (Some <$> h) -> h ≡ₚ seq 0 num_players ->
  pass_right (Some <$> h) = Ok (Some <$> h') ->
  all_packs_by_round s = Some packs -> packs_ok n packs ->
  packs !! round_idx s = Some rp -> (forall q, q ∈ rp -> filled q = S c) ->
  h !! 0 = Some i -> rp !! i = Some p -> p !! slot = Some (Some cid) ->
  exists packs' g' rp',
    accept run_matches i slot cid s
      = finish run_matches (advance (moved (user_picks s ++ [cid]) packs' h' g' s)) /\
    packs_ok n packs' /\ packs' !! round_idx s = Some rp' /\
    (forall q, q ∈ rp' -> filled q = c) /\
    (forall r, r <> round_idx s -> packs' !! r = packs !! r).
Proof.
  intros Hh Hperm Hpass Hp Hpok Hr Hfull Hi Hpk Hslot.
  assert (Hnd : NoDup h) by (rewrite Hperm; apply NoDup_seq).
  assert (Hlen : length h = num_players) by (by rewrite Hperm, length_seq).
  assert (Hall : Forall (fun i => i < num_players) h).
  { rewrite Hperm. apply Forall_forall. intros j Hj%elem_of_seq. lia. }
  set (s1 := set_user_picks (user_picks s ++ [cid]) s).
  set (packs1 := alter (alter (<[slot := None]>) i) (round_idx s) packs).
  assert (Hclear : clear_slot i slot s1 = set_all_packs_by_round (Some packs1) s1).
  { unfold clear_slot. cbn. by rewrite Hp. }
  destruct (others_pick_fill (seq 1 (num_players - 1))
              (set_all_packs_by_round (Some packs1) s1) n c h packs1
              (alter (<[slot := None]>) i rp) [i])
    as (packs' & g' & rp' & touched' & Hothers & Hok' & Hr' & Hfill' & Hin' & Hrest'); try done.
  - by apply packs_ok_clear.
  - unfold packs1. cbn. by rewrite list_lookup_alter_eq, Hr.
  - apply NoDup_seq.
  - apply Forall_forall. intros seat Hin%elem_of_seq. unfold num_players in *. lia.
  - intros seat j Hseat%elem_of_seq Hj ->%list_elem_of_singleton.
    assert (seat = 0) by exact (NoDup_lookup h seat 0 i Hnd Hj Hi). lia.
  - intros j q Hq. destruct (decide (j = i)) as [->|Hne].
    + rewrite list_lookup_alter_eq, Hpk in Hq. injection Hq as <-.
      rewrite decide_True by left.
      pose proof (filled_clear p slot cid Hslot) as Hone.
      rewrite (Hfull p) in Hone by (by eapply list_elem_of_lookup_2). lia.
    + rewrite list_lookup_alter_ne in Hq by done.
      rewrite decide_False by (by intros ?%list_elem_of_singleton).
      apply Hfull. by eapply list_elem_of_lookup_2.
  - exists packs', g', rp'. split; [|split; [done|split; [done|split]]].
    + unfold accept, bind, modify. fold s1. rewrite Hclear, Hothers.
      unfold pass_packs, bind, attr, lift, modify. cbn [pack_holder picked set_random_state
        set_all_packs_by_round set_user_picks s1]. rewrite Hh, Hpass. reflexivity.
    + intros q [j Hq]%list_elem_of_lookup_1. rewrite (Hfill' j q Hq).
      rewrite decide_True; [done|]. apply Hin'.
      destruct (Forall_lookup_1 _ _ _ _ (proj2 Hok') Hr') as [Hrlen _].
      pose proof (lookup_lt_Some _ _ _ Hq) as Hj. rewrite Hrlen in Hj.
      assert (Hjh : j ∈ h) by (rewrite Hperm; apply elem_of_seq; lia).
      apply list_elem_of_lookup_1 in Hjh as [seat Hseat].
      destruct seat as [|seat].
      * left. rewrite Hi in Hseat. injection Hseat as ->. left.
      * right. exists (S seat). split; [|done]. apply elem_of_seq.
        pose proof (lookup_lt_Some _ _ _ Hseat). unfold num_players in *. lia.
    + intros r Hne. rewrite Hrest' by done. unfold packs1. by rewrite list_lookup_alter_ne.
Qed.

(** *** The invariant of a draft *)

Lemma finish_state (s : DraftEnv) :
  (finish run_matches s).2
    = if decide (num_packs <= round_idx s) then set_done_drafting true s else s.
Proof.
  destruct (decide (num_packs <= round_idx s)) as [Hr|Hr].
  - by rewrite finish_final.
  - rewrite finish_continue by lia. done.
Qed.

(** What holds of the table from [reset] on, [F] being the number of
    cards in a pack as dealt. *)
Record draft_inv (F : nat) (s : DraftEnv) : Prop := {
  di_table : table_ok s;
  di_picks : length (user_picks s) = progress s;
  di_bound : pick_idx s <= F;
  di_short : F < cards_per_pack -> round_idx s = 0 /\ done_drafting s = false;
  di_holder : done_drafting s = false -> pack_holder s = Some (Some <$> rot (pick_idx s));
  di_fill : done_drafting s = false ->
    forall packs r rp q,
      all_packs_by_round s = Some packs -> packs !! r = Some rp -> q ∈ rp ->
      (r = round_idx s -> filled q = F - pick_idx s) /\ (round_idx s < r -> filled q = F)
}.

(** The counters and the holder list once [step] has advanced. *)
Lemma finish_advance_fields (s : DraftEnv) (picks : list nat) packs h g :
  round_idx s < num_packs ->
  let s2 := (finish run_matches (advance (moved picks packs h g s))).2 in
  all_packs_by_round s2 = Some packs /\
  if decide (cards_per_pack <= S (pick_idx s))
  then round_idx s2 = S (round_idx s) /\ pick_idx s2 = 0 /\
       if decide (S (round_idx s) < num_packs)
       then pack_holder s2 = Some (Some <$> seq 0 num_players) /\
            done_drafting s2 = done_drafting s
       else done_drafting s2 = true
  else round_idx s2 = round_idx s /\ pick_idx s2 = S (pick_idx s) /\
       pack_holder s2 = Some (Some <$> h) /\ done_drafting s2 = done_drafting s.
Proof.
  intros Hround s2. subst s2. rewrite finish_state. unfold advance.
  cbn [pick_idx round_idx moved picked set_pack_holder set_random_state
    set_all_packs_by_round set_user_picks set_pick_idx set_round_idx].
  destruct (decide (cards_per_pack <= S (pick_idx s))) as [Hlast|Hmore].
  - destruct (decide (S (round_idx s) < num_packs)) as [Hnext|Hend].
    + cbn [pick_idx round_idx moved picked set_pack_holder set_random_state
        set_all_packs_by_round set_user_picks set_pick_idx set_round_idx].
      rewrite decide_False by lia. done.
    + cbn [pick_idx round_idx moved picked set_pack_holder set_random_state
        set_all_packs_by_round set_user_picks set_pick_idx set_round_idx].
      rewrite decide_True by lia. done.
  - cbn [pick_idx round_idx moved picked set_pack_holder set_random_state
      set_all_packs_by_round set_user_picks set_pick_idx set_round_idx].
    rewrite decide_False by lia. done.
Qed.

(** [step] keeps the invariant. *)
Lemma step_keeps_inv (F : nat) (s : DraftEnv) (action : Z) :
  draft_inv F s -> draft_inv F (step run_matches action s).2.
Proof.
  intros Hinv. pose proof (di_table _ _ Hinv) as Hok.
  destruct (current_slot s action) as [cid|] eqn:Hcur; cycle 1.
  { rewrite step_not_accepted; [done|done|]. unfold accepted. rewrite Hcur. by intros [? ?]. }
  destruct (step_accept run_matches s action cid Hok Hcur)
    as (s' & Hs' & Hok' & _ & _ & Hpicks & Hprog & _).
  apply current_slot_Some in Hcur as (Hdone & Hrange & i & p & Hsp & Hslot).
  pose proof (ok_round _ Hok) as Hround. rewrite Hdone in Hround.
  pose proof (ok_pick_idx _ Hok) as Hpick.
  pose proof (di_holder _ _ Hinv Hdone) as Hh.
  pose proof (di_bound _ _ Hinv) as Hbound.
  pose proof (di_short _ _ Hinv) as Hshort.
  pose proof (di_picks _ _ Hinv) as Hlen.
  destruct (ok_packs _ Hok) as (packs & Hp & Hpok).
  destruct (lookup_lt_is_Some_2 packs (round_idx s)) as [rp Hr].
  { by rewrite (proj1 Hpok). }
  assert (H0 : rot (pick_idx s) !! 0 = Some ((0 + 7 * pick_idx s) mod num_players)).
  { apply rot_lookup. unfold num_players. lia. }
  pose proof Hsp as Hsp0.
  rewrite (seat_pack_elim s 0 _ _ packs rp Hh Hp Hr H0) in Hsp0.
  destruct (rp !! ((0 + 7 * pick_idx s) mod num_players)) as [p'|] eqn:Hpk; [|done].
  assert (Hi : (0 + 7 * pick_idx s) mod num_players = i) by congruence.
  assert (p' = p) as -> by congruence. clear Hsp0.
  pose proof (di_fill _ _ Hinv Hdone packs) as Hfill.
  assert (Hpos : 0 < filled p) by (apply filled_pos; eauto).
  assert (Hpfill : filled p = F - pick_idx s).
  { apply (Hfill (round_idx s) rp p Hp Hr); [|done]. by eapply list_elem_of_lookup_2. }
  destruct (accept_fill s i (Z.to_nat action) cid (num_cards_total s) (F - S (pick_idx s))
              (rot (pick_idx s)) (rot (S (pick_idx s))) packs rp p)
    as (packs' & g' & rp' & Hacc & Hpok' & Hr' & Hfill' & Hrest'); try done.
  { apply rot_perm. }
  { apply pass_right_rot. }
  { intros q Hq. destruct (Hfill (round_idx s) rp q Hp Hr Hq) as [Hq' _].
    rewrite Hq' by done. lia. }
  { by rewrite <- Hi. }
  { by rewrite <- Hi. }
  assert (Hstep : step run_matches action s
                  = finish run_matches
                      (advance (moved (user_picks s ++ [cid]) packs' (rot (S (pick_idx s))) g' s))).
  { unfold step, bind, gets, reader, lift, index. rewrite Hdone, Hsp.
    rewrite decide_False by (unfold cards_per_pack; lia). by rewrite Hslot. }
  pose proof (finish_advance_fields s (user_picks s ++ [cid]) packs' (rot (S (pick_idx s))) g'
                Hround) as Hfields.
  cbn zeta in Hfields. rewrite <- Hstep in Hfields. rewrite Hs'. rewrite Hs' in Hfields.
  destruct Hfields as [Hpacks' Hfields].
  assert (Hlen' : length (user_picks s') = progress s').
  { rewrite Hpicks, length_app, Hprog, Hlen. cbn. lia. }
  assert (Hlater : forall r rq q, packs' !! r = Some rq -> q ∈ rq -> round_idx s < r ->
                     filled q = F).
  { intros r rq q Hrq Hq Hlt. rewrite Hrest' in Hrq by lia.
    by apply (Hfill r rq q Hp Hrq Hq). }
  destruct (decide (cards_per_pack <= S (pick_idx s))) as [Hlast|Hmore].
  - destruct Hfields as (Hr1 & Hp1 & Hfields).
    assert (HF : cards_per_pack <= F) by lia.
    split; [done|done| | | |].
    + lia.
    + lia.
    + intros Hd1. destruct (decide (S (round_idx s) < num_packs)) as [Hnext|Hend].
      * destruct Hfields as [-> _]. by rewrite Hp1.
      * congruence.
    + intros Hd1 packs0 r rq q Hpacks0 Hrq Hq. rewrite Hpacks' in Hpacks0.
      injection Hpacks0 as <-. rewrite Hr1, Hp1, Nat.sub_0_r. split.
      * intros ->. apply (Hlater (S (round_idx s)) rq q); [done|done|lia].
      * intros Hlt. apply (Hlater r rq q); [done|done|lia].
  - destruct Hfields as (Hr1 & Hp1 & Hh1 & Hd1).
    split; [done|done| | | |].
    + lia.
    + intros HF. destruct (Hshort HF) as [Hr0 _]. split; congruence.
    + intros _. by rewrite Hh1, Hp1.
    + intros _ packs0 r rq q Hpacks0 Hrq Hq. rewrite Hpacks' in Hpacks0.
      injection Hpacks0 as <-. rewrite Hr1, Hp1. split.
      * intros ->. rewrite Hr' in Hrq. injection Hrq as <-. by apply Hfill'.
      * intros Hlt. by apply (Hlater r rq q).
Qed.

(** The states of an object on which a [reset] has returned at least
    once; later calls of [reset] may be refused. *)
Inductive drafting (e0 : DraftEnv) : DraftEnv -> Prop :=
| draft_reset (seed : option Z) (s : DraftEnv) :
    reachable run_matches e0 s -> is_ok (reset seed s).1 = true ->
    drafting e0 (reset seed s).2
| draft_again (seed : option Z) (s : DraftEnv) :
    drafting e0 s -> drafting e0 (reset seed s).2
| draft_step (action : Z) (s : DraftEnv) :
    drafting e0 s -> drafting e0 (step run_matches action s).2.

Lemma drafting_reachable (e0 s : DraftEnv) : drafting e0 s -> reachable run_matches e0 s.
Proof.
  induction 1 as [seed s Hreach _|seed s _ IH|action s _ IH];
    [by apply reach_reset|by apply reach_reset|by apply reach_step].
Qed.

Lemma reset_inv (s : DraftEnv) (seed : option Z) :
  seed_ok seed -> catalog_ok s -> draft_inv (pack_fill (rarity_pools s)) (reset seed s).2.
Proof.
  intros Hseed Hcat.
  destruct (rounds_from_ok (rarity_pools s) (num_cards_total s) num_packs (reset_rng seed s))
    as (packs & g' & Hdeal & Hlen & Hall).
  { intros k cid Hin. by apply (Hcat k cid). }
  destruct (populate_ids_ok (card_color_identity s) (basic_land (rarity_pools s))
              (basic_land_ids s)) as [ids' Hids].
  { apply Forall_forall. intros land_id Hin. by apply (Hcat BasicLand land_id). }
  rewrite (reset_spec s seed packs g' ids' Hseed Hdeal Hids). cbn [snd].
  pose proof (rounds_from_fill _ _ _ _ _ Hdeal) as Hfull.
  split.
  - by apply fresh_table_ok.
  - done.
  - cbn. lia.
  - done.
  - intros _. reflexivity.
  - intros _ packs0 r rp q [= <-] Hr Hq. cbn [pick_idx fresh_table]. rewrite Nat.sub_0_r.
    pose proof (Forall_lookup_1 _ _ _ _ Hfull Hr) as Hrp.
    rewrite Forall_forall in Hrp. split; intros _; by apply Hrp.
Qed.

(** Reseeding the generator leaves the table as it is. *)
Lemma draft_inv_random (F : nat) (s : DraftEnv) (g : rng) :
  draft_inv F s -> draft_inv F (set_random_state g s).
Proof. intros [Ht ? ? ? ? ?]. split; [by apply table_ok_random|done..]. Qed.

Lemma drafting_inv (cards : list CardRecord) (g : rng) (e s : DraftEnv) :
  init cards g = Ok e -> drafting e s -> draft_inv (pack_fill (rarity_pools e)) s.
Proof.
  intros Hinit Hdraft. destruct (init_ok _ _ _ Hinit) as (Hcat & Hnone & Hdone & _).
  assert (Hreset : forall seed s, reachable run_matches e s -> seed_ok seed ->
            draft_inv (pack_fill (rarity_pools e)) (reset seed s).2).
  { intros seed s0 Hreach Hseed.
    destruct (reachable_inv run_matches e s0 Hcat Hnone Hdone Hreach) as [Hsame _ _].
    pose proof (catalog_ok_same _ _ Hsame Hcat) as Hcat'.
    destruct Hsame as (_ & _ & <- & _). by apply reset_inv. }
  induction Hdraft as [seed s Hreach Hret|seed s Hdraft IH|action s Hdraft IH].
  - apply (Hreset seed s Hreach). by apply (reset_returns s).
  - destruct (decide (seed_ok seed)) as [Hseed|Hbad].
    + apply (Hreset seed s); [by apply drafting_reachable|done].
    + destruct (reset_refused_state s seed Hbad) as (err & g1 & ->). cbn [snd].
      by apply draft_inv_random.
  - by apply step_keeps_inv.
Qed.

(** The pack a seat holds, in a draft in progress. *)
Lemma inv_seat_pack (F : nat) (s : DraftEnv) (seat : nat) :
  draft_inv F s -> done_drafting s = false -> seat < num_players ->
  exists p, seat_pack seat s = Ok ((seat + 7 * pick_idx s) mod num_players, p) /\
    filled p = F - pick_idx s /\ length p = cards_per_pack.
Proof.
  intros Hinv Hdone Hseat. pose proof (di_table _ _ Hinv) as Hok.
  pose proof (ok_round _ Hok) as Hround. rewrite Hdone in Hround.
  destruct (ok_packs _ Hok) as (packs & Hp & Hpok).
  destruct (lookup_lt_is_Some_2 packs (round_idx s)) as [rp Hr].
  { by rewrite (proj1 Hpok). }
  destruct (Forall_lookup_1 _ _ _ _ (proj2 Hpok) Hr) as [Hrlen Hrall].
  destruct (lookup_lt_is_Some_2 rp ((seat + 7 * pick_idx s) mod num_players)) as [p Hpk].
  { rewrite Hrlen. by apply Nat.mod_upper_bound. }
  exists p.
  rewrite (seat_pack_elim s seat _ _ packs rp (di_holder _ _ Hinv Hdone) Hp Hr
             (rot_lookup _ _ Hseat)), Hpk.
  split; [done|]. split.
  - apply (di_fill _ _ Hinv Hdone packs (round_idx s) rp p Hp Hr); [|done].
    by eapply list_elem_of_lookup_2.
  - by destruct (Forall_lookup_1 _ _ _ _ Hrall Hpk).
Qed.

(** *** The mask *)

Lemma mask_accepted (s : DraftEnv) :
  table_ok s ->
  exists mask, get_mask s = Ok mask /\ length mask = cards_per_pack /\
    forall action : Z,
      accepted s action <-> (0 <= action)%Z /\ mask !! Z.to_nat action = Some true.
Proof.
  intros Hok. unfold get_mask, accepted, current_slot.
  pose proof (ok_round _ Hok) as Hround.
  destruct (done_drafting s).
  - exists (replicate 15 false). split; [done|]. split; [done|]. intros action. split.
    + by intros [? ?].
    + intros [_ [? _]%lookup_replicate]. done.
  - destruct (seat_pack_ok s 0 Hok Hround ltac:(unfold num_players; lia))
      as (i & p & packs & rp & -> & _ & [Hplen _] & _).
    exists (slot_filled <$> p). split; [done|]. split; [by rewrite length_fmap|].
    intros action. rewrite list_lookup_fmap.
    destruct (decide (action < 0 \/ action >= Z.of_nat cards_per_pack)%Z) as [Hout|Hin].
    + split; [by intros [? ?]|]. intros [Hpos Hm].
      destruct (p !! Z.to_nat action) eqn:Hl; [|done]. apply lookup_lt_Some in Hl. lia.
    + destruct (p !! Z.to_nat action) as [[c|]|]; cbn.
      * split; [|by eauto]. intros _. split; [lia|done].
      * split; [by intros [? ?]|]. by intros [_ ?].
      * split; [by intros [? ?]|]. by intros [_ ?].
Qed.

(** X4: on a well-formed table [get_mask] returns fifteen flags, and
    [step] takes a card exactly for the actions it marks [True]: such an
    action adds one card to the history and counts one pick more, any
    other action, negative or beyond the mask included, leaves the state
    as it was. *)
Theorem get_mask_marks_picks (s : DraftEnv) :
  table_ok s ->
  exists mask, get_mask s = Ok mask /\ length mask = cards_per_pack /\
    forall action : Z,
      ((0 <= action)%Z /\ mask !! Z.to_nat action = Some true ->
         (exists cid, user_picks (step run_matches action s).2 = user_picks s ++ [cid]) /\
         progress (step run_matches action s).2 = S (progress s)) /\
      (~ ((0 <= action)%Z /\ mask !! Z.to_nat action = Some true) ->
         (step run_matches action s).2 = s).
Proof.
  intros Hok. destruct (mask_accepted s Hok) as (mask & Hmask & Hlen & Hacc).
  exists mask. split; [done|]. split; [done|]. intros action. split.
  - intros [cid Hcid]%Hacc.
    destruct (step_accept run_matches s action cid Hok Hcid)
      as (s' & -> & _ & _ & _ & Hpicks & Hprog & _). eauto.
  - intros Hnot. apply step_not_accepted; [done|]. by rewrite Hacc.
Qed.

Lemma count_true_filled (p : Pack) :
  length (filter (fun b => b = true) (slot_filled <$> p)) = filled p.
Proof.
  unfold filled. induction p as [|c p IH]; [done|].
  rewrite fmap_cons, !filter_cons. destruct c as [cid|]; cbn [slot_filled].
  - rewrite !decide_True by done. cbn [length]. by rewrite IH.
  - by rewrite !decide_False by done.
Qed.

(** X5: while a draft is in progress the mask marks as many actions as
    the packs were dealt cards, less the picks made in the round: after
    [k] picks of a round dealt from full pools, [15 - k] actions. *)
Theorem get_mask_count (cards : list CardRecord) (g : rng) (e s : DraftEnv) :
  init cards g = Ok e -> drafting e s -> done_drafting s = false ->
  exists mask, get_mask s = Ok mask /\
    length (filter (fun b => b = true) mask) = pack_fill (rarity_pools e) - pick_idx s.
Proof.
  intros Hinit Hdraft Hdone. pose proof (drafting_inv _ _ _ _ Hinit Hdraft) as Hinv.
  destruct (inv_seat_pack _ s 0 Hinv Hdone ltac:(unfold num_players; lia))
    as (p & Hsp & Hfill & _).
  exists (slot_filled <$> p). unfold get_mask. rewrite Hdone, Hsp.
  split; [done|]. by rewrite count_true_filled.
Qed.

(** X6: from the first [reset] that returned on, the history holds
    fifteen picks for every round played and one for every pick of the
    round in progress, never more than 45, and the draft is over exactly
    when it holds 45. *)
Theorem user_picks_length (cards : list CardRecord) (g : rng) (e s : DraftEnv) :
  init cards g = Ok e -> drafting e s ->
  length (user_picks s) = cards_per_pack * round_idx s + pick_idx s /\
  length (user_picks s) <= 45 /\
  (done_drafting s = true <-> length (user_picks s) = 45).
Proof.
  intros Hinit Hdraft. pose proof (drafting_inv _ _ _ _ Hinit Hdraft) as Hinv.
  pose proof (di_table _ _ Hinv) as Hok.
  pose proof (di_picks _ _ Hinv) as Hlen. pose proof (ok_pick_idx _ Hok) as Hpick.
  pose proof (ok_round _ Hok) as Hround. pose proof (progress_done s Hok) as Hdone.
  unfold progress, cards_per_pack, num_packs in *. rewrite Hlen.
  split; [lia|]. split.
  - destruct (done_drafting s); lia.
  - rewrite Hdone. lia.
Qed.

(** X7: while a draft is in progress, after [k] picks of a round every
    seat holds the pack that was dealt [k] seats to its left, counting
    around the table, and that pack holds the cards it was dealt less
    [k]. *)
Theorem seat_holds_passed_pack (cards : list CardRecord) (g : rng) (e s : DraftEnv)
    (seat : nat) :
  init cards g = Ok e -> drafting e s -> done_drafting s = false -> seat < num_players ->
  exists i p, seat_pack seat s = Ok (i, p) /\
    Z.of_nat i = ((Z.of_nat seat - Z.of_nat (pick_idx s)) mod 8)%Z /\
    filled p = pack_fill (rarity_pools e) - pick_idx s.
Proof.
  intros Hinit Hdraft Hdone Hseat. pose proof (drafting_inv _ _ _ _ Hinit Hdraft) as Hinv.
  destruct (inv_seat_pack _ s seat Hinv Hdone Hseat) as (p & Hsp & Hfill & _).
  eexists _, p. split; [done|]. split; [|done].
  unfold num_players. rewrite Nat2Z.inj_mod.
  replace (Z.of_nat (seat + 7 * pick_idx s))
    with (Z.of_nat seat - Z.of_nat (pick_idx s) + Z.of_nat (pick_idx s) * 8)%Z by lia.
  by rewrite Z_mod_plus_full.
Qed.

(** X8: when a pool is too small for [make_pack] to fill fifteen slots,
    the draft cannot be finished: whatever is submitted after [reset],
    the first round never ends, the history never holds more cards than
    a pack was dealt, and once it holds that many every action leaves
    the state as it is. *)
Theorem short_pools_never_finish (cards : list CardRecord) (g : rng) (e s : DraftEnv) :
  init cards g = Ok e -> pack_fill (rarity_pools e) < cards_per_pack -> drafting e s ->
  done_drafting s = false /\ round_idx s = 0 /\
  length (user_picks s) <= pack_fill (rarity_pools e) /\
  (length (user_picks s) = pack_fill (rarity_pools e) ->
   forall action, (step run_matches action s).2 = s).
Proof.
  intros Hinit Hshort Hdraft. pose proof (drafting_inv _ _ _ _ Hinit Hdraft) as Hinv.
  destruct (di_short _ _ Hinv Hshort) as [Hround Hdone].
  pose proof (di_picks _ _ Hinv) as Hlen. pose proof (di_bound _ _ Hinv) as Hbound.
  unfold progress in Hlen. rewrite Hround in Hlen. cbn in Hlen.
  split; [done|]. split; [done|]. split; [lia|].
  intros Hfull action. apply step_not_accepted; [apply (di_table _ _ Hinv)|].
  intros [cid (_ & _ & i & p & Hsp & Hslot)%current_slot_Some].
  destruct (inv_seat_pack _ s 0 Hinv Hdone ltac:(unfold num_players; lia))
    as (p' & Hsp' & Hfill & _).
  rewrite Hsp in Hsp'. assert (p' = p) as -> by congruence.
  assert (Hpos : 0 < filled p) by (apply filled_pos; eauto). lia.
Qed.

End DraftFacts.

(** ** The driver of [src/test.py] *)

Section DriverFacts.
Context {RS : RandomSource}.
Variable run_matches : list (option nat) -> result (list (string * nat * nat)).

Lemma enumerate_snoc {A} (l : list A) (x : A) :
  enumerate (l ++ [x]) = enumerate l ++ [(length l, x)].
Proof.
  unfold enumerate. rewrite length_app. change (length [x]) with 1. rewrite seq_app.
  change (seq (0 + length l) 1) with [length l].
  by rewrite zip_with_app by (by rewrite length_seq).
Qed.

(** The action the inner loop of [main] leaves in [action]: the last
    index the mask marks, or what [action] held when it marks none. *)
Lemma choose_action_spec (mask : list bool) (action : option Z) :
  (exists j, choose_action mask action = Some (Z.of_nat j) /\ mask !! j = Some true /\
             forall j', j < j' -> mask !! j' <> Some true) \/
  (choose_action mask action = action /\ forall j, mask !! j <> Some true).
Proof.
  unfold choose_action. induction mask as [|b mask IH] using rev_ind.
  - right. split; [done|]. intros j. by rewrite lookup_nil.
  - rewrite enumerate_snoc, foldl_app. cbn [foldl snd fst]. destruct b.
    + left. exists (length mask). split; [done|]. split.
      * rewrite lookup_app_r by lia. by rewrite Nat.sub_diag.
      * intros j' Hj'. rewrite lookup_ge_None_2; [done|]. rewrite length_app. cbn. lia.
    + destruct IH as [(j & Hj & Hm & Hlast)|[Hnone Hall]].
      * left. exists j. split; [done|]. split; [by apply lookup_app_l_Some|].
        intros j' Hj' Hc. apply lookup_app_Some in Hc as [Hc|[_ Hc]]; [by apply (Hlast j')|].
        by destruct (j' - length mask) as [|[|]].
      * right. split; [done|]. intros j Hc.
        apply lookup_app_Some in Hc as [Hc|[_ Hc]]; [by apply (Hall j)|].
        by destruct (j - length mask) as [|[|]].
Qed.

(** With packs dealt full, a draft in progress always offers a card, and
    the driver asks for one. *)
Lemma driver_choice (s : DraftEnv) (action : option Z) :
  draft_inv cards_per_pack s -> done_drafting s = false ->
  exists mask a cid,
    get_mask s = Ok mask /\ choose_action mask action = Some a /\ current_slot s a = Some cid.
Proof.
  intros Hinv Hdone. pose proof (di_table _ _ Hinv) as Hok.
  pose proof (ok_pick_idx _ Hok) as Hpick.
  destruct (mask_accepted s Hok) as (mask & Hmask & Hmlen & Hacc).
  destruct (inv_seat_pack _ s 0 Hinv Hdone ltac:(unfold num_players; lia))
    as (p & Hsp & Hfill & Hplen).
  assert (Hpos : 0 < filled p) by lia.
  apply filled_pos in Hpos as (j & cid & Hj).
  assert (Hm : mask = slot_filled <$> p).
  { unfold get_mask in Hmask. rewrite Hdone, Hsp in Hmask. congruence. }
  destruct (choose_action_spec mask action) as [(j' & Hch & Hj' & _)|[_ Hnone]].
  - assert (Ha : accepted s (Z.of_nat j')).
    { apply Hacc. rewrite Nat2Z.id. split; [lia|done]. }
    destruct Ha as [cid' Hcid']. by exists mask, (Z.of_nat j'), cid'.
  - destruct (Hnone j). by rewrite Hm, list_lookup_fmap, Hj.
Qed.

Lemma main_loop_S (n : nat) (action : option Z) (s : DraftEnv) :
  main_loop run_matches (S n) action s
    = match get_mask s with
      | Raise e => ([], Raise e, s)
      | Ok mask =>
          match choose_action mask action with
          | None => ([], Raise UnboundLocalError, s)
          | Some a =>
              match step run_matches a s with
              | (Raise e, s1) => ([a], Raise e, s1)
              | (Ok _, s1) =>
                  let '(rest, r, s2) := main_loop run_matches n (Some a) s1 in
                  (a :: rest, r, s2)
              end
          end
      end.
Proof. reflexivity. Qed.

Lemma main_loop_spec (n : nat) : forall (action : option Z) (s : DraftEnv),
  draft_inv cards_per_pack s -> progress s + S n = num_packs * cards_per_pack ->
  exists actions r s', main_loop run_matches (S n) action s = (actions, r, s') /\
    length actions = S n /\ done_drafting s' = true /\ length (user_picks s') = 45 /\
    r = match final_return run_matches s' with Ok _ => Ok tt | Raise e => Raise e end.
Proof.
  induction n as [|n IH]; intros action s Hinv Hprog.
  all: pose proof (di_table _ _ Hinv) as Hok.
  all: assert (Hdone : done_drafting s = false)
         by (destruct (done_drafting s) eqn:Hd; [apply (progress_done s Hok) in Hd; lia|done]).
  all: destruct (driver_choice s action Hinv Hdone) as (mask & a & cid & Hmask & Hch & Hcur).
  all: destruct (step_accept run_matches s a cid Hok Hcur)
         as (s1 & Hs1 & Hok1 & _ & _ & _ & Hprog1 & Hret).
  all: pose proof (step_keeps_inv run_matches _ s a Hinv) as Hinv1; rewrite Hs1 in Hinv1.
  all: rewrite main_loop_S, Hmask, Hch.
  all: destruct (step run_matches a s) as [r1 s1'] eqn:Hst; cbn [fst snd] in *; subst s1'.
  - assert (Hdone1 : done_drafting s1 = true) by (apply (progress_done s1 Hok1); lia).
    rewrite Hdone1 in Hret.
    assert (Hlen1 : length (user_picks s1) = 45).
    { rewrite (di_picks _ _ Hinv1). unfold num_packs, cards_per_pack in *. lia. }
    destruct r1 as [ret|err].
    + exists [a], (Ok tt), s1. by rewrite <- Hret.
    + exists [a], (Raise err), s1. by rewrite <- Hret.
  - assert (Hdone1 : done_drafting s1 = false).
    { destruct (done_drafting s1) eqn:Hd; [apply (progress_done s1 Hok1) in Hd; lia|done]. }
    rewrite Hdone1 in Hret. destruct Hret as (obs & _ & ->).
    destruct (IH (Some a) s1 Hinv1 ltac:(lia)) as (actions & r & s' & Hloop & Hlen & Hrest).
    rewrite Hloop. exists (a :: actions), r, s'. split; [done|]. split; [|done].
    cbn. by rewrite Hlen.
Qed.

(** X9: on a catalog whose pools fill a pack, with at least one basic
    land, ten commons, three uncommons and one rare or mythic, [main]
    submits 45 actions and every one of them takes a card: it leaves the
    draft over with 45 cards in the history, and ends with an exception
    only if the evaluation of the deck at the last pick raises it. *)
Theorem main_completes_draft (cards : list CardRecord) (g : rng) (e : DraftEnv) :
  init cards g = Ok e -> pack_fill (rarity_pools e) = cards_per_pack ->
  exists actions r s, main run_matches e = (actions, r, s) /\
    length actions = 45 /\ done_drafting s = true /\ length (user_picks s) = 45 /\
    r = match final_return run_matches s with Ok _ => Ok tt | Raise err => Raise err end.
Proof.
  intros Hinit Hfull. destruct (init_ok _ _ _ Hinit) as (Hcat & _).
  pose proof (reset_inv e None I Hcat) as Hinv. rewrite Hfull in Hinv.
  destruct (reset_ok e None I Hcat) as (obs & s0 & Hreset & _ & _ & _ & _ & _ & Hprog & _).
  unfold main. rewrite Hreset in *. cbn [snd] in Hinv.
  apply main_loop_spec; [done|]. by rewrite Hprog.
Qed.

End DriverFacts.

(** ** Decks and objects not yet reset *)

Section DeckMore.
Context {RS : RandomSource}.
Variable run_matches : list (option nat) -> result (list (string * nat * nat)).

(** The apportioning loop adds at least as many lands as it counts, each
    of them an entry of [basic_land_ids]. *)
Lemma allocate_inv (ids : by_color (option nat)) (counts : by_color nat)
    (total_colors land_count : nat) (land_ids : list (option nat)) (used : Z) :
  allocate ids counts total_colors land_count = (land_ids, used) ->
  (used <= Z.of_nat (length land_ids))%Z /\
  Forall (fun x => exists c, x = cget ids c) land_ids.
Proof.
  unfold allocate.
  match goal with |- context [foldl ?f0 _ _] => set (f := f0) end.
  assert (Hinv : forall l acc,
            ((acc.2 <= Z.of_nat (length acc.1))%Z /\
             Forall (fun x => exists c, x = cget ids c) acc.1) ->
            ((foldl f acc l).2 <= Z.of_nat (length (foldl f acc l).1))%Z /\
            Forall (fun x => exists c, x = cget ids c) (foldl f acc l).1).
  { induction l as [|[c n] l IH]; intros [li u] [Hu Hli]; [done|].
    cbn [foldl]. apply IH. unfold f. cbn [fst snd] in *.
    destruct (cget ids c) as [land_id|] eqn:Hc; cbn [fst snd]; [|done]. split.
    - rewrite length_app, length_replicate. lia.
    - apply Forall_app. split; [done|]. apply Forall_replicate. exists c. by rewrite Hc. }
  intros Heq. specialize (Hinv (items counts) ([], 0%Z)).
  rewrite Heq in Hinv. apply Hinv. split; [done|constructor].
Qed.

(** X10: [build_deck] returns the first [main_count] picks followed by
    at least [land_count] entries, every one of them an entry of
    [basic_land_ids]: rounding may add lands, it never leaves the deck
    short. *)
Theorem build_deck_at_least (s : DraftEnv) (main_count land_count : nat) :
  exists land_ids,
    build_deck s main_count land_count = (Some <$> take main_count (user_picks s)) ++ land_ids /\
    land_count <= length land_ids /\
    Forall (fun x => exists c, x = cget (basic_land_ids s) c) land_ids.
Proof.
  unfold build_deck. destruct (decide _) as [Hzero|Hcolors].
  - eexists. split; [done|]. split; [by rewrite length_replicate|].
    apply Forall_replicate. by exists Color.U.
  - destruct (allocate _ _ _ _) as [land_ids used] eqn:Halloc.
    apply allocate_inv in Halloc as [Hused Hall].
    destruct (0 <? Z.of_nat land_count - used)%Z eqn:Hdiff.
    + eexists. split; [done|]. split.
      * rewrite length_app, length_replicate. apply Z.ltb_lt in Hdiff. lia.
      * apply Forall_app. split; [done|]. apply Forall_replicate.
        unfold py_or. destruct (cget (basic_land_ids s) (top_color_of _)) as [[|n]|] eqn:Htop.
        -- by exists Color.U.
        -- eexists. by rewrite Htop.
        -- by exists Color.U.
    + eexists. split; [done|]. split; [|done]. apply Z.ltb_ge in Hdiff. lia.
Qed.

(** X11: an object that has been built but never reset has no table:
    [step], [get_mask] and [_build_observation] raise [AttributeError],
    [step] leaving the object as it was, and [build_deck] returns
    [land_count] entries [None]. *)
Theorem fresh_object_has_no_table (cards : list CardRecord) (g : rng) (e : DraftEnv) :
  init cards g = Ok e ->
  (forall action, step run_matches action e = (Raise AttributeError, e)) /\
  get_mask e = Raise AttributeError /\
  _build_observation e = Raise AttributeError /\
  (forall main_count land_count,
     build_deck e main_count land_count = replicate land_count None).
Proof.
  intros Hinit. destruct (init_ok _ _ _ Hinit) as (_ & Hnone & Hdone & Hids & _).
  assert (Hpicks : user_picks e = []).
  { unfold init in Hinit. destruct (_build_maps cards); [|done]. by injection Hinit as <-. }
  assert (Hsp : seat_pack 0 e = Raise AttributeError) by (unfold seat_pack; by rewrite Hnone).
  split; [|split; [|split]].
  - intros action. by apply step_before_reset.
  - unfold get_mask. by rewrite Hdone, Hsp.
  - unfold _build_observation. rewrite Hpicks, Hdone, Hsp. done.
  - intros main_count land_count. unfold build_deck.
    rewrite Hpicks, take_nil, Hids. cbn [count_colors foldl].
    rewrite decide_True by done. done.
Qed.

(** X12: from the first [reset] that returned on, the entry of
    [basic_land_ids] for a color is the last identity of the basic-land
    pool whose color identity is that color alone, and [None] when there
    is none; neither [step] nor a further [reset], returning or raising,
    changes it. *)
Theorem basic_land_ids_registered (cards : list CardRecord) (g : rng) (e s : DraftEnv)
    (c : Color.t) :
  init cards g = Ok e -> drafting run_matches e s ->
  cget (basic_land_ids s) c
    = last (lands_of (card_color_identity e) c (basic_land (rarity_pools e))).
Proof.
  intros Hinit Hdraft. destruct (init_ok _ _ _ Hinit) as (Hcat & Hnone & Hdone & Hids & _).
  assert (Hreset : forall seed s, reachable run_matches e s -> seed_ok seed ->
            cget (basic_land_ids (reset seed s).2) c
              = last (lands_of (card_color_identity e) c (basic_land (rarity_pools e)))).
  { intros seed s0 Hreach Hseed.
    destruct (reachable_inv run_matches e s0 Hcat Hnone Hdone Hreach) as [Hsame Hinv _].
    pose proof (catalog_ok_same _ _ Hsame Hcat) as Hcat'.
    destruct (rounds_from_ok (rarity_pools s0) (num_cards_total s0) num_packs
                (reset_rng seed s0)) as (packs & g' & Hdeal & _).
    { intros k cid Hin. by apply (Hcat' k cid). }
    destruct (populate_ids_ok (card_color_identity s0) (basic_land (rarity_pools s0))
                (basic_land_ids s0)) as [ids' Hpop].
    { apply Forall_forall. intros land_id Hin. by apply (Hcat' BasicLand land_id). }
    rewrite (reset_spec s0 seed packs g' ids' Hseed Hdeal Hpop).
    cbn [snd basic_land_ids fresh_table].
    destruct Hsame as (_ & _ & Hpools & Hcci & _). rewrite Hpools, Hcci, Hinv in Hpop.
    rewrite (populate_ids_spec _ _ _ _ Hpop c), Hids. by destruct c, (last _). }
  induction Hdraft as [seed s Hreach Hret|seed s Hdraft IH|action s Hdraft IH].
  - apply (Hreset seed s Hreach). by apply (reset_returns s).
  - destruct (decide (seed_ok seed)) as [Hseed|Hbad].
    + apply (Hreset seed s); [by apply (drafting_reachable run_matches)|done].
    + by destruct (reset_refused_state s seed Hbad) as (err & g1 & ->).
  - pose proof (di_table _ _ (drafting_inv run_matches _ _ _ _ Hinit Hdraft)) as Hok.
    destruct (current_slot s action) as [cid|] eqn:Hcur.
    + destruct (step_accept run_matches s action cid Hok Hcur)
        as (s' & -> & _ & _ & -> & _). exact IH.
    + rewrite step_not_accepted; [done|done|]. unfold accepted. rewrite Hcur. by intros [? ?].
Qed.

End DeckMore.

(** ** The observation and its renderer ([src/render.py]) *)

Section Renderer.
Context {RS : RandomSource}.
Variable run_matches : list (option nat) -> result (list (string * nat * nat)).

(** [np.where(row == 1.0)[0]]: the indices at which the row holds [1.0]. *)
Definition where_one (row : list float) : list nat :=
  fst <$> filter (fun ic => PrimFloat.eqb ic.2 1%float = true) (enumerate row).

(** One turn of the loop over rows 0..44 of [render]. *)
Definition pick_row (id_card_map : gmap nat string) (obs : Obs)
    (user_picks : list string) (pick_idx : nat) : result (list string) :=
  match index obs pick_idx with
  | Raise e => Raise e
  | Ok row =>
      match where_one row with
      | [] => Ok user_picks
      | picked_id :: _ =>
          match id_card_map !! picked_id with
          | Some card_name => Ok (user_picks ++ [card_name])
          | None => Raise KeyError
          end
      end
  end.

(** One turn of the loop over rows 45..59. *)
Definition slot_row (id_card_map : gmap nat string) (obs : Obs)
    (current_pack : list (option string)) (slot_idx : nat) : result (list (option string)) :=
  match index obs (45 + slot_idx) with
  | Raise e => Raise e
  | Ok row =>
      match where_one row with
      | [] => Ok (current_pack ++ [None])
      | card_id :: _ =>
          match id_card_map !! card_id with
          | Some card_name => Ok (current_pack ++ [Some card_name])
          | None => Raise KeyError
          end
      end
  end.

Definition parse_picks (id_card_map : gmap nat string) (obs : Obs) : result (list string) :=
  foldM (pick_row id_card_map obs) (seq 0 45) [].

Definition parse_pack (id_card_map : gmap nat string) (obs : Obs)
    : result (list (option string)) :=
  foldM (slot_row id_card_map obs) (seq 0 15) [].

(** ["=" * 40] *)
Definition rule : string := "========================================".

(** [_render_text]: the lines it prints, one per call of [print]. *)
Definition _render_text (user_picks : list string) (current_pack : list (option string))
    : list string :=
  [rule; "          MTG DRAFT VIEW          "; rule; "CURRENT PACK (slots 0..14):"]
  ++ ((fun '(i, card_name) =>
         match card_name with
         | None => "  Slot " +:+ pretty i +:+ ": [EMPTY]"
         | Some n => "  Slot " +:+ pretty i +:+ ": " +:+ n
         end) <$> enumerate current_pack)
  ++ [EmptyString; "YOUR PICKS (so far):"]
  ++ match user_picks with
     | [] => ["  No picks yet."]
     | _ => (fun '(i, pick_name) => "  Pick " +:+ pretty (i + 1) +:+ ": " +:+ pick_name)
              <$> enumerate user_picks
     end
  ++ [rule; EmptyString].

(** [DraftRenderer(id_card_map).render(obs)]: the lines printed. *)
Definition render (id_card_map : gmap nat string) (obs : Obs) : result (list string) :=
  match parse_picks id_card_map obs with
  | Raise e => Raise e
  | Ok user_picks =>
      match parse_pack id_card_map obs with
      | Raise e => Raise e
      | Ok current_pack => Ok (_render_text user_picks current_pack)
      end
  end.

(** The row that encodes a cell: all [0.0], but [1.0] at the identity
    the cell holds. *)
Definition row_of (n : nat) (cell : option nat) : list float :=
  match cell with
  | Some c => <[c := 1%float]> (replicate n 0%float)
  | None => replicate n 0%float
  end.

Lemma foldM_app {A B} (f : B -> A -> result B) (l1 l2 : list A) (b : B) :
  foldM f (l1 ++ l2) b
    = match foldM f l1 b with
      | Ok b' => foldM f l2 b'
      | Raise e => Raise e
      end.
Proof.
  revert b. induction l1 as [|x l1 IH]; intros b; cbn; [done|].
  destruct (f b x); [apply IH|done].
Qed.

(** The two marking loops of [_build_observation], at once: cells are
    written to the rows from [base] on, below [limit]. *)
Lemma foldM_paint {A} (f : Obs -> nat * A -> result Obs) (cell : A -> option nat)
    (base limit n : nat) :
  (forall obs i x,
     f obs (i, x) = match cell x with
                    | Some c => if decide (base + i < limit) then set_one obs (base + i) c
                                else Ok obs
                    | None => Ok obs
                    end) ->
  forall (l : list A) (obs : Obs),
    limit <= length obs ->
    (forall r, base <= r < limit -> obs !! r = Some (replicate n 0%float)) ->
    (forall i x c, l !! i = Some x -> cell x = Some c -> c < n) ->
    exists obs', foldM f (enumerate l) obs = Ok obs' /\ length obs' = length obs /\
      forall r, obs' !! r
                = if decide (base <= r < limit /\ r - base < length l)
                  then Some (row_of n (l !! (r - base) ≫= cell))
                  else obs !! r.
Proof.
  intros Hf l obs Hlimit Hzero. induction l as [|x l IH] using rev_ind; intros Hcells.
  - exists obs. split; [done|]. split; [done|]. intros r.
    rewrite decide_False; [done|]. cbn. lia.
  - destruct IH as (obs1 & Hfold & Hlen1 & Hrows1).
    { intros i y c Hy. apply (Hcells i y c). by apply lookup_app_l_Some. }
    rewrite enumerate_snoc, foldM_app, Hfold. cbn [foldM]. rewrite Hf.
    assert (Hlast : (l ++ [x]) !! length l = Some x).
    { rewrite lookup_app_r by lia. by rewrite Nat.sub_diag. }
    assert (Hold : forall r, r - base < length l -> (l ++ [x]) !! (r - base) = l !! (r - base)).
    { intros r Hr. by rewrite lookup_app_l. }
    destruct (cell x) as [c|] eqn:Hc.
    + destruct (decide (base + length l < limit)) as [Hin|Hout].
      * unfold set_one. rewrite Hrows1, decide_False by lia.
        rewrite Hzero by lia. rewrite length_replicate.
        rewrite decide_True by (by apply (Hcells (length l) x c)).
        eexists. split; [done|]. split; [by rewrite length_insert|]. intros r.
        rewrite length_app. cbn [length].
        destruct (decide (r = base + length l)) as [->|Hne].
        -- rewrite list_lookup_insert_eq by lia. rewrite decide_True by lia.
           replace (base + length l - base) with (length l) by lia.
           rewrite Hlast. cbn [mbind option_bind]. by rewrite Hc.
        -- rewrite list_lookup_insert_ne by done. rewrite Hrows1.
           destruct (decide (base <= r < limit /\ r - base < length l)) as [Hr|Hr].
           ++ rewrite decide_True by lia. by rewrite Hold by lia.
           ++ rewrite decide_False by lia. done.
      * exists obs1. split; [done|]. split; [done|]. intros r. rewrite Hrows1.
        rewrite length_app. cbn [length].
        destruct (decide (base <= r < limit /\ r - base < length l)) as [Hr|Hr].
        -- rewrite decide_True by lia. by rewrite Hold by lia.
        -- rewrite decide_False by lia. done.
    + exists obs1. split; [done|]. split; [done|]. intros r. rewrite Hrows1.
      rewrite length_app. cbn [length].
      destruct (decide (base <= r < limit /\ r - base < length l)) as [Hr|Hr].
      * rewrite decide_True by lia. by rewrite Hold by lia.
      * destruct (decide (base <= r < limit /\ r - base < length l + 1)) as [Hr'|Hr']; [|done].
        replace (r - base) with (length l) by lia. rewrite Hlast. cbn [mbind option_bind]. rewrite Hc.
        apply Hzero. lia.
Qed.

(** The pack on offer to the controlled seat; none once the draft is
    over. *)
Definition offered (s : DraftEnv) : Pack :=
  if done_drafting s then []
  else match seat_pack 0 s with
       | Ok (_, user_pack) => user_pack
       | Raise _ => []
       end.

Lemma bind_Some {A} (x : option A) : x ≫= Some = x.
Proof. by destruct x. Qed.

Lemma build_observation_rows (s : DraftEnv) :
  table_ok s ->
  exists obs, _build_observation s = Ok obs /\ length obs = 60 /\
    (forall i, i < 45 -> obs !! i = Some (row_of (num_cards_total s) (user_picks s !! i))) /\
    (forall j, j < 15 ->
       obs !! (45 + j) = Some (row_of (num_cards_total s) (mjoin (offered s !! j)))).
Proof.
  intros Hok. unfold _build_observation, offered.
  destruct (foldM_paint
              (fun obs '(i, card_id) =>
                 if decide (i < 45) then set_one obs i card_id else Ok obs)
              Some 0 45 (num_cards_total s) ltac:(done) (user_picks s)
              (zeros 60 (num_cards_total s)))
    as (obs1 & Hfold1 & Hlen1 & Hrows1).
  { unfold zeros. rewrite length_replicate. lia. }
  { intros r Hr. unfold zeros. apply lookup_replicate_2. lia. }
  { intros i x c Hx [= <-]. apply (Forall_lookup_1 _ _ _ _ (ok_picks _ Hok) Hx). }
  change (mark_picks (user_picks s) (zeros 60 (num_cards_total s)) = Ok obs1) in Hfold1.
  rewrite Hfold1.
  assert (Hpicks : forall i, i < 45 ->
            obs1 !! i = Some (row_of (num_cards_total s) (user_picks s !! i))).
  { intros i Hi. rewrite Hrows1, Nat.sub_0_r, bind_Some.
    destruct (decide (0 <= i < 45 /\ i < length (user_picks s))) as [Hin|Hout]; [done|].
    rewrite (lookup_ge_None_2 (user_picks s)) by lia.
    unfold zeros. apply lookup_replicate_2. lia. }
  assert (Hzero : forall r, 45 <= r < 60 ->
            obs1 !! r = Some (replicate (num_cards_total s) 0%float)).
  { intros r Hr. rewrite Hrows1, decide_False by lia.
    unfold zeros. apply lookup_replicate_2. lia. }
  unfold zeros in Hlen1. rewrite length_replicate in Hlen1.
  pose proof (ok_round _ Hok) as Hround.
  destruct (done_drafting s).
  - exists obs1. split; [done|]. split; [done|]. split; [done|].
    intros j Hj. rewrite lookup_nil. apply Hzero. lia.
  - destruct (seat_pack_ok s 0 Hok Hround ltac:(unfold num_players; lia))
      as (i & p & packs & rp & -> & _ & [Hplen Hslots] & _).
    destruct (foldM_paint
                (fun obs '(slot_i, cid) =>
                   match cid with
                   | Some c =>
                       if decide (45 + slot_i < 60) then set_one obs (45 + slot_i) c else Ok obs
                   | None => Ok obs
                   end)
                id 45 60 (num_cards_total s) ltac:(done) p obs1)
      as (obs2 & Hfold2 & Hlen2 & Hrows2).
    { lia. }
    { done. }
    { intros j x c Hx Hc. cbn in Hc. subst x. apply (Forall_lookup_1 _ _ _ _ Hslots Hx). }
    change (mark_pack p obs1 = Ok obs2) in Hfold2. rewrite Hfold2. exists obs2.
    split; [done|]. split; [lia|]. split.
    + intros j Hj. rewrite Hrows2, decide_False by lia. by apply Hpicks.
    + intros j Hj. unfold cards_per_pack in Hplen.
      rewrite Hrows2, decide_True by lia.
      replace (45 + j - 45) with j by lia. by destruct (p !! j) as [[c|]|].
Qed.

(** X13: on a well-formed table the observation has 60 rows of
    [num_cards_total] entries: row [i] below 45 holds [1.0] at the
    identity of the [i]-th pick and nowhere else, and is all [0.0] when
    fewer picks were made; row [45 + j] does the same for slot [j] of the
    pack on offer, and is all [0.0] for an empty slot and once the draft
    is over. *)
Theorem build_observation_one_hot (s : DraftEnv) :
  table_ok s ->
  exists obs, _build_observation s = Ok obs /\ length obs = 60 /\
    (forall i, i < 45 -> obs !! i = Some (row_of (num_cards_total s) (user_picks s !! i))) /\
    (forall j, j < 15 ->
       obs !! (45 + j) = Some (row_of (num_cards_total s) (mjoin (offered s !! j)))).
Proof. apply build_observation_rows. Qed.

(** *** Reading the rows back *)

Definition where_from (k : nat) (row : list float) : list nat :=
  fst <$> filter (fun ic : nat * float => PrimFloat.eqb ic.2 1%float = true)
                 (zip (seq k (length row)) row).

Lemma where_from_cons (k : nat) (x : float) (row : list float) :
  where_from k (x :: row)
    = if PrimFloat.eqb x 1%float then k :: where_from (S k) row else where_from (S k) row.
Proof.
  unfold where_from. cbn [length seq zip_with]. rewrite filter_cons. cbn [snd].
  destruct (PrimFloat.eqb x 1%float); [by rewrite decide_True|by rewrite decide_False].
Qed.

Lemma where_from_zeros (n : nat) : forall k, where_from k (replicate n 0%float) = [].
Proof.
  induction n as [|n IH]; intros k; [done|].
  cbn [replicate]. rewrite where_from_cons.
  change (PrimFloat.eqb 0%float 1%float) with false. apply IH.
Qed.

Lemma where_from_one_hot (n : nat) : forall c k,
  c < n -> where_from k (<[c := 1%float]> (replicate n 0%float)) = [k + c].
Proof.
  induction n as [|n IH]; intros c k Hc; [lia|].
  destruct c as [|c]; cbn [replicate insert list_insert]; rewrite where_from_cons.
  - change (PrimFloat.eqb 1%float 1%float) with true.
    by rewrite where_from_zeros, Nat.add_0_r.
  - change (PrimFloat.eqb 0%float 1%float) with false.
    replace (k + S c) with (S k + c) by lia. apply IH. lia.
Qed.

Lemma where_one_row (n : nat) (cell : option nat) :
  (forall c, cell = Some c -> c < n) ->
  where_one (row_of n cell) = match cell with Some c => [c] | None => [] end.
Proof.
  intros Hc. change (where_one (row_of n cell)) with (where_from 0 (row_of n cell)).
  destruct cell as [c|]; cbn [row_of].
  - by rewrite where_from_one_hot by eauto.
  - apply where_from_zeros.
Qed.

Lemma parse_picks_upto (names : gmap nat string) (obs : Obs) (picks : list nat) (n k : nat) :
  (forall i, i < 45 -> obs !! i = Some (row_of n (picks !! i))) ->
  Forall (fun c => c < n /\ is_Some (names !! c)) picks ->
  k <= 45 ->
  exists l, foldM (pick_row names obs) (seq 0 k) [] = Ok l /\
    Some <$> l = (names !!.) <$> take k picks.
Proof.
  intros Hrows Hpicks. induction k as [|k IH]; intros Hk.
  - exists []. by rewrite take_0.
  - destruct IH as (l & Hl & Hnames); [lia|].
    rewrite seq_S, foldM_app, Hl. cbn [foldM Nat.add]. unfold pick_row, index.
    rewrite Hrows by lia. rewrite where_one_row; cycle 1.
    { intros c Hc. by destruct (Forall_lookup_1 _ _ _ _ Hpicks Hc). }
    destruct (picks !! k) as [c|] eqn:Hc.
    + destruct (Forall_lookup_1 _ _ _ _ Hpicks Hc) as [_ [name Hname]]. rewrite Hname.
      exists (l ++ [name]). split; [done|].
      rewrite (take_S_r _ _ _ Hc), !fmap_app, Hnames. cbn. by rewrite Hname.
    + exists l. split; [done|]. apply lookup_ge_None_1 in Hc.
      rewrite Hnames. by rewrite !take_ge by lia.
Qed.

Lemma parse_pack_upto (names : gmap nat string) (obs : Obs) (pack : Pack) (n k : nat) :
  (forall j, j < 15 -> obs !! (45 + j) = Some (row_of n (mjoin (pack !! j)))) ->
  Forall (fun cell => forall c, cell = Some c -> c < n /\ is_Some (names !! c)) pack ->
  k <= 15 ->
  foldM (slot_row names obs) (seq 0 k) []
    = Ok ((fun j => mjoin (pack !! j) ≫= (names !!.)) <$> seq 0 k).
Proof.
  intros Hrows Hpack. induction k as [|k IH]; intros Hk; [done|].
  rewrite seq_S, foldM_app, IH by lia. cbn [foldM Nat.add]. unfold slot_row, index.
  rewrite Hrows by lia. rewrite fmap_app. cbn [fmap list_fmap].
  destruct (pack !! k) as [[c|]|] eqn:Hc; cbn [mjoin option_join mbind option_bind].
  - destruct (Forall_lookup_1 _ _ _ _ Hpack Hc c eq_refl) as [Hlt [name Hname]].
    rewrite where_one_row by (by intros ? [= <-]). by rewrite Hname.
  - by rewrite where_one_row.
  - by rewrite where_one_row.
Qed.

(** Every identity of a catalog has a name. *)
Lemma init_names (cards : list CardRecord) (g : rng) (e : DraftEnv) :
  init cards g = Ok e ->
  forall cid, cid < num_cards_total e -> is_Some (id_card_map e !! cid).
Proof.
  unfold init. destruct (_build_maps cards) as [m|] eqn:Hb; [|done]. intros [= <-] cid. cbn.
  destruct (build_maps_inv _ _ Hb) as [_ Hinv]. rewrite (inv_size _ _ Hinv).
  apply (build_loop_dense cards empty_maps m); [|done]. intros c Hc. cbn in Hc. lia.
Qed.

(** X14: [render] reads back what [_build_observation] wrote. From
    [reset] on, on the observation of the table, it raises nothing, and
    what it hands to [_render_text] is the names of the picks made, in
    order, and for each of the fifteen slots the name of the card on
    offer there, [None] for an empty slot and for every slot once the
    draft is over. *)
Theorem render_recovers_table (cards : list CardRecord) (g : rng) (e s : DraftEnv) :
  init cards g = Ok e -> drafting run_matches e s ->
  exists obs picks pack,
    _build_observation s = Ok obs /\
    parse_picks (id_card_map e) obs = Ok picks /\
    parse_pack (id_card_map e) obs = Ok pack /\
    render (id_card_map e) obs = Ok (_render_text picks pack) /\
    Some <$> picks = (id_card_map e !!.) <$> user_picks s /\
    pack = (fun j => mjoin (offered s !! j) ≫= (id_card_map e !!.)) <$> seq 0 15.
Proof.
  intros Hinit Hdraft. pose proof (drafting_inv run_matches _ _ _ _ Hinit Hdraft) as Hinv.
  pose proof (di_table _ _ Hinv) as Hok.
  destruct (init_ok _ _ _ Hinit) as (Hcat & Hnone & Hdone & _).
  destruct (reachable_inv run_matches e s Hcat Hnone Hdone
              (drafting_reachable run_matches _ _ Hdraft)) as [(_ & _ & _ & _ & Hn) _ _].
  pose proof (init_names _ _ _ Hinit) as Hnames. rewrite <- Hn in Hnames.
  destruct (build_observation_rows s Hok) as (obs & Hobs & _ & Hrows & Hslots).
  assert (Hlen : length (user_picks s) <= 45).
  { rewrite (di_picks _ _ Hinv). pose proof (ok_pick_idx _ Hok). pose proof (ok_round _ Hok).
    unfold progress, cards_per_pack, num_packs in *. destruct (done_drafting s); lia. }
  destruct (parse_picks_upto (id_card_map e) obs (user_picks s) (num_cards_total s) 45)
    as (picks & Hpicks & Hpnames); [done| |done|].
  { eapply Forall_impl; [apply (ok_picks _ Hok)|]. intros c Hc. cbn in Hc. eauto. }
  rewrite take_ge in Hpnames by done.
  assert (Hpack : parse_pack (id_card_map e) obs
                  = Ok ((fun j => mjoin (offered s !! j) ≫= (id_card_map e !!.)) <$> seq 0 15)).
  { apply (parse_pack_upto _ _ _ (num_cards_total s)); [done| |done].
    unfold offered. pose proof (ok_round _ Hok) as Hround.
    destruct (done_drafting s); [constructor|].
    destruct (seat_pack_ok s 0 Hok Hround ltac:(unfold num_players; lia))
      as (i & p & packs & rp & -> & _ & [_ Hp] & _).
    eapply Forall_impl; [exact Hp|]. intros cell Hcell c ->. cbn in Hcell. eauto. }
  eexists obs, picks, _. unfold render. fold (parse_picks (id_card_map e) obs) in Hpicks.
  rewrite Hpicks, Hpack. done.
Qed.

End Renderer.

(** ** Worked tables *)

(** The demo table after the pick of slot 14. *)
Abbreviation second_pick := ((step Demo.matches 14%Z Demo.start).2).

(** An environment over the demo catalog without its basic lands: a pack
    is dealt fourteen cards. *)
Abbreviation landless := (Demo.build Demo.no_lands (@rng_seed lcg 7)).

Lemma init_landless : init (RS:=lcg) Demo.no_lands (@rng_seed lcg 7) = Ok landless.
Proof. apply Demo.build_ok. vm_compute. reflexivity. Qed.

Lemma drafting_start : drafting Demo.matches Demo.env Demo.start.
Proof.
  assert (Hret : is_ok (reset (Some 42%Z) Demo.env).1 = true) by (vm_compute; reflexivity).
  exact (draft_reset Demo.matches Demo.env (Some 42%Z) Demo.env (reach_new Demo.matches _) Hret).
Qed.

Lemma drafting_second_pick : drafting Demo.matches Demo.env second_pick.
Proof. exact (draft_step Demo.matches Demo.env 14%Z Demo.start drafting_start). Qed.

Lemma build_maps_dense_witness :
  exists m,
    _build_maps [card_record "Opt" ["U"] "common" false;
                 card_record "Shock" ["R"] "common" false;
                 card_record "Opt" ["U"] "uncommon" false] = Ok m /\
    (forall cid, cid < size (m_card_id_map m) <-> is_Some (m_id_card_map m !! cid)) /\
    m_card_id_map m !! "Shock" = Some 1.
Proof.
  eexists. split; [reflexivity|].
  destruct (build_maps_dense
              [card_record "Opt" ["U"] "common" false;
               card_record "Shock" ["R"] "common" false;
               card_record "Opt" ["U"] "uncommon" false] _ eq_refl) as [Hdense Hfirst].
  split; [exact Hdense|].
  assert (Hnew : "Shock" ∉ known_names [card_record "Opt" ["U"] "common" false]).
  { intros Hin. apply list_elem_of_In in Hin. cbn in Hin. destruct Hin as [Heq|[]].
    discriminate Heq. }
  exact (Hfirst [card_record "Opt" ["U"] "common" false]
           (card_record "Shock" ["R"] "common" false)
           [card_record "Opt" ["U"] "uncommon" false] "Shock" eq_refl eq_refl Hnew).
Defined.

Lemma build_maps_last_colors_witness :
  exists m cid,
    _build_maps [card_record "Opt" ["U"] "common" false;
                 card_record "Shock" ["R"] "common" false;
                 card_record "Opt" ["U"; "R"] "uncommon" false] = Ok m /\
    m_card_id_map m !! "Opt" = Some cid /\
    m_card_color_identity m !! cid = Some ["U"; "R"].
Proof.
  eexists.
  assert (Hlast : "Opt" ∉ known_names []) by apply not_elem_of_nil.
  destruct (build_maps_last_colors
              [card_record "Opt" ["U"] "common" false;
               card_record "Shock" ["R"] "common" false;
               card_record "Opt" ["U"; "R"] "uncommon" false] _ eq_refl
              [card_record "Opt" ["U"] "common" false;
               card_record "Shock" ["R"] "common" false]
              (card_record "Opt" ["U"; "R"] "uncommon" false) [] "Opt"
              eq_refl eq_refl Hlast) as (cid & Hcid & Hcolors).
  exists cid. split; [reflexivity|]. split; [exact Hcid|exact Hcolors].
Defined.

Lemma get_mask_marks_picks_witness :
  exists mask, get_mask Demo.start = Ok mask /\ length mask = cards_per_pack /\
    forall action : Z,
      ((0 <= action)%Z /\ mask !! Z.to_nat action = Some true ->
         (exists cid, user_picks (step Demo.matches action Demo.start).2
                      = user_picks Demo.start ++ [cid]) /\
         progress (step Demo.matches action Demo.start).2 = S (progress Demo.start)) /\
      (~ ((0 <= action)%Z /\ mask !! Z.to_nat action = Some true) ->
         (step Demo.matches action Demo.start).2 = Demo.start).
Proof. exact (get_mask_marks_picks Demo.matches Demo.start Demo.start_ok). Defined.

Lemma get_mask_count_witness :
  exists mask, get_mask second_pick = Ok mask /\
    length (filter (fun b => b = true) mask)
      = pack_fill (rarity_pools Demo.env) - pick_idx second_pick.
Proof.
  assert (Hdone : done_drafting second_pick = false) by (vm_compute; reflexivity).
  exact (get_mask_count Demo.matches Demo.catalog (@rng_seed lcg 7) Demo.env second_pick
           Demo.init_env drafting_second_pick Hdone).
Defined.

Lemma user_picks_length_witness :
  length (user_picks second_pick) = cards_per_pack * round_idx second_pick + pick_idx second_pick /\
  length (user_picks second_pick) <= 45 /\
  (done_drafting second_pick = true <-> length (user_picks second_pick) = 45).
Proof.
  exact (user_picks_length Demo.matches Demo.catalog (@rng_seed lcg 7) Demo.env second_pick
           Demo.init_env drafting_second_pick).
Defined.

Lemma seat_holds_passed_pack_witness :
  exists i p, seat_pack 0 second_pick = Ok (i, p) /\
    Z.of_nat i = ((Z.of_nat 0 - Z.of_nat (pick_idx second_pick)) mod 8)%Z /\
    filled p = pack_fill (rarity_pools Demo.env) - pick_idx second_pick.
Proof.
  assert (Hdone : done_drafting second_pick = false) by (vm_compute; reflexivity).
  assert (Hseat : 0 < num_players) by (unfold num_players; lia).
  exact (seat_holds_passed_pack Demo.matches Demo.catalog (@rng_seed lcg 7) Demo.env
           second_pick 0 Demo.init_env drafting_second_pick Hdone Hseat).
Defined.

Lemma short_pools_never_finish_witness :
  let s := (step Demo.matches 3%Z (reset (Some 1%Z) landless).2).2 in
  done_drafting s = false /\ round_idx s = 0 /\
  length (user_picks s) <= pack_fill (rarity_pools landless) /\
  (length (user_picks s) = pack_fill (rarity_pools landless) ->
   forall action, (step Demo.matches action s).2 = s).
Proof.
  assert (Hshort : pack_fill (rarity_pools landless) < cards_per_pack)
    by (vm_compute; lia).
  assert (Hret : is_ok (reset (Some 1%Z) landless).1 = true) by (vm_compute; reflexivity).
  exact (short_pools_never_finish Demo.matches Demo.no_lands (@rng_seed lcg 7) landless _
           init_landless Hshort
           (draft_step Demo.matches landless 3%Z _
              (draft_reset Demo.matches landless (Some 1%Z) landless
                 (reach_new Demo.matches _) Hret))).
Defined.

Lemma main_completes_draft_witness :
  exists actions r s, main Demo.matches Demo.env = (actions, r, s) /\
    length actions = 45 /\ done_drafting s = true /\ length (user_picks s) = 45 /\
    r = match final_return Demo.matches s with Ok _ => Ok tt | Raise err => Raise err end.
Proof.
  assert (Hfull : pack_fill (rarity_pools Demo.env) = cards_per_pack)
    by (vm_compute; reflexivity).
  exact (main_completes_draft Demo.matches Demo.catalog (@rng_seed lcg 7) Demo.env
           Demo.init_env Hfull).
Defined.

Lemma fresh_object_has_no_table_witness :
  (forall action, step Demo.matches action Demo.env = (Raise AttributeError, Demo.env)) /\
  get_mask Demo.env = Raise AttributeError /\
  _build_observation Demo.env = Raise AttributeError /\
  (forall main_count land_count,
     build_deck Demo.env main_count land_count = replicate land_count None).
Proof.
  exact (fresh_object_has_no_table Demo.matches Demo.catalog (@rng_seed lcg 7) Demo.env
           Demo.init_env).
Defined.

Lemma basic_land_ids_registered_witness :
  cget (basic_land_ids second_pick) Color.G
    = last (lands_of (card_color_identity Demo.env) Color.G
              (basic_land (rarity_pools Demo.env))).
Proof.
  exact (basic_land_ids_registered Demo.matches Demo.catalog (@rng_seed lcg 7) Demo.env
           second_pick Color.G Demo.init_env drafting_second_pick).
Defined.

Lemma build_observation_one_hot_witness :
  exists obs, _build_observation second_pick = Ok obs /\ length obs = 60 /\
    (forall i, i < 45 ->
       obs !! i = Some (row_of (num_cards_total second_pick) (user_picks second_pick !! i))) /\
    (forall j, j < 15 ->
       obs !! (45 + j)
         = Some (row_of (num_cards_total second_pick) (mjoin (offered second_pick !! j)))).
Proof.
  exact (build_observation_one_hot second_pick
           (di_table _ _ (drafting_inv Demo.matches _ _ _ _ Demo.init_env drafting_second_pick))).
Defined.

Lemma render_recovers_table_witness :
  exists obs picks pack,
    _build_observation second_pick = Ok obs /\
    parse_picks (id_card_map Demo.env) obs = Ok picks /\
    parse_pack (id_card_map Demo.env) obs = Ok pack /\
    render (id_card_map Demo.env) obs = Ok (_render_text picks pack) /\
    Some <$> picks = (id_card_map Demo.env !!.) <$> user_picks second_pick /\
    pack = (fun j => mjoin (offered second_pick !! j) ≫= (id_card_map Demo.env !!.))
             <$> seq 0 15.
Proof.
  exact (render_recovers_table Demo.matches Demo.catalog (@rng_seed lcg 7) Demo.env
           second_pick Demo.init_env drafting_second_pick).
Defined.

(** ** The deck file *)

Section DeckFile.
Context {RS : RandomSource}.

(** One more occurrence of [x] in a [Counter]. *)
Definition count_entry (counter : list (option nat * nat)) (x : option nat)
    : list (option nat * nat) :=
  if bool_decide (x ∈ counter.*1)
  then (fun '(y, k) => if decide (y = x) then (y, S k) else (y, k)) <$> counter
  else counter ++ [(x, 1)].

(** [Counter(deck_ids).items()]: every distinct entry with the number of
    its occurrences, in the order of first occurrence. *)
Definition Counter (deck_ids : list (option nat)) : list (option nat * nat) :=
  foldl count_entry [] deck_ids.

(** The keys of [sorted]: [self.id_card_map[item[0]]] for every item. *)
Fixpoint sort_keys (id_card_map : gmap nat string) (items : list (option nat * nat))
    : result (list (string * (option nat * nat))) :=
  match items with
  | [] => Ok []
  | item :: rest =>
      match item.1 ≫= (id_card_map !!.) with
      | None => Raise KeyError
      | Some key =>
          match sort_keys id_card_map rest with
          | Raise e => Raise e
          | Ok keyed => Ok ((key, item) :: keyed)
          end
      end
  end.

(** [a < b] on [str]. *)
Definition str_lt (a b : string) : bool :=
  match String_as_OT.compare a b with Lt => true | _ => false end.

(** A stable sort by key: an item goes in front of the first item
    whose key is greater than its own. *)
Fixpoint insert_by_key {B} (x : string * B) (l : list (string * B)) : list (string * B) :=
  match l with
  | [] => [x]
  | y :: l' => if str_lt x.1 y.1 then x :: y :: l' else y :: insert_by_key x l'
  end.

Definition sorted_by_key {B} (l : list (string * B)) : list (string * B) :=
  foldl (fun acc x => insert_by_key x acc) [] l.

(** [f"{count} {card_name}|{set_code}|{collector_num}"] *)
Definition card_line (count : nat) (card_name : string) : string :=
  pretty count +:+ " " +:+ card_name +:+ "|FDN|1".

(** The loop over [sorted_deck]. *)
Definition card_lines (id_card_map : gmap nat string) (sorted_deck : list (option nat * nat))
    : result (list string) :=
  foldM (fun lines '(cid, count) =>
           match cid ≫= (id_card_map !!.) with
           | Some card_name => Ok (lines ++ [card_line count card_name])
           | None => Raise KeyError
           end) sorted_deck [].

Definition sections : list string :=
  ["[Sideboard]"; EmptyString; "[Avatar]"; EmptyString; "[Planes]"; EmptyString;
   "[Schemes]"; EmptyString; "[Conspiracy]"; EmptyString; "[Dungeon]"; EmptyString;
   "[Attractions]"; EmptyString; "[Contraptions]"; EmptyString].

(** The lines [_save_deck_to_dck_file] writes, each followed by a
    newline. *)
Definition deck_file (id_card_map : gmap nat string) (deck_ids : list (option nat))
    (deck_name : string) : result (list string) :=
  let deck_counter := Counter deck_ids in
  match sort_keys id_card_map deck_counter with
  | Raise e => Raise e
  | Ok keyed =>
      let sorted_deck := snd <$> sorted_by_key keyed in
      match card_lines id_card_map sorted_deck with
      | Raise e => Raise e
      | Ok lines =>
          Ok (["[metadata]"; "Name=" +:+ deck_name; "[Main]"] ++ lines ++ sections)
      end
  end.

(** *** [Counter] *)

Definition occurrences (x : option nat) (l : list (option nat)) : nat :=
  length (filter (fun y => y = x) l).

Definition bump (x : option nat) (entry : option nat * nat) : option nat * nat :=
  let '(y, k) := entry in if decide (y = x) then (y, S k) else (y, k).

Lemma bump_keys (x : option nat) (counter : list (option nat * nat)) :
  (bump x <$> counter).*1 = counter.*1.
Proof.
  induction counter as [|[y k] counter IH]; [done|].
  cbn. rewrite IH. by destruct (decide (y = x)).
Qed.

Lemma bump_absent (x : option nat) (counter : list (option nat * nat)) :
  x ∉ counter.*1 -> bump x <$> counter = counter.
Proof.
  induction counter as [|[y k] counter IH]; [done|]. cbn.
  intros [Hne Hnot]%not_elem_of_cons. rewrite IH by done.
  by rewrite decide_False by congruence.
Qed.

Lemma bump_sum (x : option nat) (counter : list (option nat * nat)) :
  NoDup counter.*1 -> x ∈ counter.*1 ->
  sum_list (bump x <$> counter).*2 = S (sum_list counter.*2).
Proof.
  induction counter as [|[y k] counter IH]; cbn.
  - by intros _ ?%elem_of_nil.
  - intros [Hnot Hnd]%NoDup_cons Hin. destruct (decide (y = x)) as [->|Hne]; cbn.
    + by rewrite bump_absent.
    + apply elem_of_cons in Hin as [?|Hin]; [congruence|]. rewrite IH by done. lia.
Qed.

Record counter_ok (l : list (option nat)) (counter : list (option nat * nat)) : Prop := {
  co_nodup : NoDup counter.*1;
  co_keys : forall x, x ∈ counter.*1 <-> x ∈ l;
  co_count : forall x k, (x, k) ∈ counter -> k = occurrences x l;
  co_sum : sum_list counter.*2 = length l
}.

Lemma occurrences_snoc (x y : option nat) (l : list (option nat)) :
  occurrences x (l ++ [y]) = occurrences x l + (if decide (y = x) then 1 else 0).
Proof.
  unfold occurrences. rewrite filter_app, length_app, filter_cons, filter_nil.
  by destruct (decide (y = x)).
Qed.

Lemma occurrences_absent (x : option nat) (l : list (option nat)) :
  x ∉ l -> occurrences x l = 0.
Proof.
  unfold occurrences. induction l as [|y l IH]; [done|].
  intros [Hne Hnot]%not_elem_of_cons. rewrite filter_cons, decide_False by congruence.
  by apply IH.
Qed.

Lemma Counter_ok (l : list (option nat)) : counter_ok l (Counter l).
Proof.
  unfold Counter. induction l as [|x l IH] using rev_ind.
  - split; cbn; [constructor|done| |done]. by intros x k ?%elem_of_nil.
  - rewrite foldl_app. cbn [foldl]. destruct IH as [Hnd Hkeys Hcount Hsum].
    set (counter := foldl count_entry [] l) in *. unfold count_entry.
    fold (bump x). destruct (bool_decide_reflect (x ∈ counter.*1)) as [Hin|Hnot].
    + split.
      * by rewrite bump_keys.
      * intros y. rewrite bump_keys, Hkeys, elem_of_app, list_elem_of_singleton.
        split; [by left|]. intros [? | ->]; [done|]. by apply Hkeys.
      * intros y k [[y' k'] [Heq Hin']]%list_elem_of_fmap. rewrite occurrences_snoc.
        unfold bump in Heq. apply Hcount in Hin'.
        destruct (decide (y' = x)) as [->|Hne]; simplify_eq.
        -- rewrite decide_True by done. lia.
        -- rewrite decide_False by done. lia.
      * rewrite bump_sum by done. rewrite length_app. cbn. lia.
    + split.
      * rewrite fmap_app. apply NoDup_app. split; [done|]. split; [|apply NoDup_singleton].
        intros y Hy ->%list_elem_of_singleton. done.
      * intros y. rewrite fmap_app, !elem_of_app, Hkeys. done.
      * intros y k [Hin|Hin]%elem_of_app.
        -- rewrite occurrences_snoc. rewrite decide_False.
           ++ apply Hcount in Hin. lia.
           ++ intros ->. apply Hnot, list_elem_of_fmap. by exists (y, k).
        -- apply list_elem_of_singleton in Hin. simplify_eq.
           rewrite occurrences_snoc, decide_True by done.
           rewrite occurrences_absent; [done|]. by rewrite <- Hkeys.
      * rewrite fmap_app, sum_list_with_app, length_app, Hsum. done.
Qed.

(** *** [sorted] *)

Lemma str_lt_asym (a b : string) : str_lt a b = true -> str_lt b a = false.
Proof.
  unfold str_lt. destruct (String_as_OT.compare a b) eqn:Hab; try done. intros _.
  destruct (String_as_OT.compare b a) eqn:Hba; try done. exfalso.
  apply (StrictOrder_Irreflexive (R:=String_as_OT.lt) a).
  by apply (StrictOrder_Transitive (R:=String_as_OT.lt) a b a).
Qed.

(** In the order of [sorted]: the second key is not less than the first. *)
Definition key_le {B} (a b : string * B) : Prop := str_lt b.1 a.1 = false.

Lemma insert_by_key_perm {B} (x : string * B) (l : list (string * B)) :
  insert_by_key x l ≡ₚ x :: l.
Proof.
  induction l as [|y l IH]; cbn; [done|]. destruct (str_lt x.1 y.1); [done|].
  rewrite IH. apply Permutation_swap.
Qed.

Lemma sorted_by_key_perm {B} (l : list (string * B)) : sorted_by_key l ≡ₚ l.
Proof.
  unfold sorted_by_key.
  assert (H : forall acc, foldl (fun acc x => insert_by_key x acc) acc l ≡ₚ acc ++ l).
  { induction l as [|x l IH]; intros acc; cbn; [by rewrite app_nil_r|].
    rewrite IH, insert_by_key_perm. apply Permutation_middle. }
  apply (H []).
Qed.

Lemma insert_by_key_sorted {B} (x : string * B) (l : list (string * B)) :
  Sorted key_le l -> Sorted key_le (insert_by_key x l).
Proof.
  induction l as [|y l IH]; intros Hs; cbn; [by repeat constructor|].
  destruct (str_lt x.1 y.1) eqn:Hlt.
  - constructor; [done|]. constructor. by apply str_lt_asym.
  - apply Sorted_inv in Hs as [Hs Hhd]. constructor; [by apply IH|].
    destruct l as [|z l]; cbn; [by constructor|].
    destruct (str_lt x.1 z.1); constructor; [done|]. by inversion Hhd.
Qed.

Lemma sorted_by_key_sorted {B} (l : list (string * B)) : Sorted key_le (sorted_by_key l).
Proof.
  unfold sorted_by_key.
  assert (H : forall acc, Sorted key_le acc ->
            Sorted key_le (foldl (fun acc x => insert_by_key x acc) acc l)).
  { induction l as [|x l IH]; intros acc Hacc; cbn; [done|].
    by apply IH, insert_by_key_sorted. }
  apply H. constructor.
Qed.

(** *** The file *)

Definition named_entry (id_card_map : gmap nat string) (x : option nat) : Prop :=
  is_Some (x ≫= (id_card_map !!.)).

Lemma sort_keys_ok (names : gmap nat string) (items : list (option nat * nat)) :
  Forall (fun item => named_entry names item.1) items ->
  exists keyed, sort_keys names items = Ok keyed /\ keyed.*2 = items /\
    Forall (fun ki => ki.2.1 ≫= (names !!.) = Some ki.1) keyed.
Proof.
  induction 1 as [|item items [key Hkey] _ (keyed & IH & Hitems & Hall)]; cbn.
  - by exists [].
  - rewrite Hkey, IH. exists ((key, item) :: keyed). cbn. rewrite Hitems.
    split; [done|]. split; [done|]. by constructor.
Qed.

Lemma sort_keys_raise (names : gmap nat string) (items : list (option nat * nat)) :
  Exists (fun item => ~ named_entry names item.1) items ->
  sort_keys names items = Raise KeyError.
Proof.
  induction 1 as [item items Hbad|item items _ IH]; cbn.
  - destruct (item.1 ≫= (names !!.)) eqn:Hkey; [|done]. destruct Hbad. unfold named_entry. by rewrite Hkey.
  - rewrite IH. by destruct (item.1 ≫= (names !!.)).
Qed.

Lemma card_lines_ok (names : gmap nat string) (keyed : list (string * (option nat * nat))) :
  Forall (fun ki => ki.2.1 ≫= (names !!.) = Some ki.1) keyed ->
  card_lines names keyed.*2 = Ok ((fun ki => card_line ki.2.2 ki.1) <$> keyed).
Proof.
  unfold card_lines. intros Hall.
  assert (H : forall acc,
            foldM (fun lines '(cid, count) =>
                     match cid ≫= (names !!.) with
                     | Some card_name => Ok (lines ++ [card_line count card_name])
                     | None => Raise KeyError
                     end) keyed.*2 acc
            = Ok (acc ++ ((fun ki => card_line ki.2.2 ki.1) <$> keyed))).
  { induction Hall as [|[key [cid count]] keyed Hkey _ IH]; intros acc; cbn.
    - by rewrite app_nil_r.
    - cbn in Hkey. rewrite Hkey, IH. by rewrite <- app_assoc. }
  apply (H []).
Qed.

Lemma save_deck_named (s : DraftEnv) (deck_ids : list (option nat)) :
  _save_deck_to_dck_file s deck_ids
    = if decide (Forall (named_entry (id_card_map s)) deck_ids) then Ok tt else Raise KeyError.
Proof.
  unfold _save_deck_to_dck_file.
  destruct (forallb _ deck_ids) eqn:Hall.
  - rewrite decide_True; [done|]. rewrite forallb_forall in Hall.
    apply Forall_forall. intros x Hx. apply list_elem_of_In, Hall in Hx.
    destruct x as [cid|]; [|done]. by apply bool_decide_eq_true in Hx.
  - rewrite decide_False; [done|]. intros HF.
    assert (forallb (fun e => match e with
                              | Some cid => bool_decide (is_Some (id_card_map s !! cid))
                              | None => false
                              end) deck_ids = true); [|congruence].
    apply forallb_forall. intros x Hx%list_elem_of_In.
    rewrite Forall_forall in HF. specialize (HF x Hx).
    destruct x as [cid|]; [by apply bool_decide_eq_true|]. by destruct HF.
Qed.

(** X15: [_save_deck_to_dck_file] raises [KeyError] when an entry of the
    deck is [None] or has no name, and otherwise writes the three header
    lines, one line [count name|FDN|1] for every distinct card and the
    sixteen lines of the empty sections. The card lines are sorted by
    name, every card of the deck has exactly one, with the number of its
    copies, and the counts add up to the size of the deck. *)
Theorem deck_file_counts (s : DraftEnv) (deck_ids : list (option nat)) (deck_name : string) :
  (Forall (named_entry (id_card_map s)) deck_ids ->
   exists entries : list (string * (option nat * nat)),
     deck_file (id_card_map s) deck_ids deck_name
       = Ok (["[metadata]"; "Name=" +:+ deck_name; "[Main]"]
             ++ ((fun e => card_line e.2.2 e.1) <$> entries) ++ sections) /\
     _save_deck_to_dck_file s deck_ids = Ok tt /\
     Sorted key_le entries /\
     NoDup entries.*2.*1 /\
     (forall x, x ∈ entries.*2.*1 <-> x ∈ deck_ids) /\
     (forall e, e ∈ entries ->
        e.2.1 ≫= (id_card_map s !!.) = Some e.1 /\ e.2.2 = occurrences e.2.1 deck_ids) /\
     sum_list entries.*2.*2 = length deck_ids) /\
  (~ Forall (named_entry (id_card_map s)) deck_ids ->
   deck_file (id_card_map s) deck_ids deck_name = Raise KeyError /\
   _save_deck_to_dck_file s deck_ids = Raise KeyError).
Proof.
  destruct (Counter_ok deck_ids) as [Hnd Hkeys Hcount Hsum]. split.
  - intros Hall.
    destruct (sort_keys_ok (id_card_map s) (Counter deck_ids)) as (keyed & Hsort & Hitems & Hk).
    { apply Forall_forall. intros [x k] Hin. cbn.
      rewrite Forall_forall in Hall. apply Hall, Hkeys, list_elem_of_fmap. by exists (x, k). }
    pose proof (sorted_by_key_perm keyed) as Hperm.
    assert (Hperm2 : (sorted_by_key keyed).*2 ≡ₚ Counter deck_ids).
    { by rewrite Hperm, Hitems. }
    exists (sorted_by_key keyed). split; [|split; [|split; [|split; [|split; [|split]]]]].
    + unfold deck_file. rewrite Hsort. cbn zeta.
      rewrite card_lines_ok; [done|]. by rewrite Hperm.
    + rewrite save_deck_named. by rewrite decide_True.
    + apply sorted_by_key_sorted.
    + by rewrite Hperm2.
    + intros x. by rewrite Hperm2.
    + intros e He. rewrite Hperm in He. split.
      * by apply (proj1 (Forall_forall _ _) Hk).
      * apply Hcount. rewrite <- Hitems. apply list_elem_of_fmap. exists e.
        split; [by destruct e as [? [? ?]]|done].
    + by rewrite Hperm2.
  - intros Hnot. rewrite save_deck_named, decide_False by done. split; [|done].
    unfold deck_file. rewrite sort_keys_raise; [done|].
    apply not_Forall_Exists in Hnot; [|intros x; apply _].
    apply Exists_exists in Hnot as (x & Hx & Hbad). apply Exists_exists.
    apply Hkeys, list_elem_of_fmap in Hx as ([y k] & -> & Hin). by exists (y, k).
Qed.

End DeckFile.

(** ** Restarting and finishing a draft *)

Section DraftEnds.
Context {RS : RandomSource}.
Variable run_matches : list (option nat) -> result (list (string * nat * nat)).

(** X16: [reset] may be called in any state an object reaches, before a
    draft, in the middle of one or after its end. Without a seed, or with
    a seed from [0] to [2**32 - 1], it raises nothing and leaves a new
    table: round and pick zero, no picks, seat [i] holding pack [i], three
    rounds of eight packs of fifteen slots, every pack holding as many
    cards as the pools allow; the observation returned is the observation
    of that table. (Any other seed is refused: [reset_refused].) *)
Theorem reset_restarts_draft (cards : list CardRecord) (g : rng) (e s : DraftEnv)
    (seed : option Z) :
  init cards g = Ok e -> reachable run_matches e s -> seed_ok seed ->
  exists obs s' packs,
    reset seed s = (Ok obs, s') /\ _build_observation s' = Ok obs /\
    round_idx s' = 0 /\ pick_idx s' = 0 /\ done_drafting s' = false /\ user_picks s' = [] /\
    pack_holder s' = Some (Some <$> seq 0 num_players) /\
    all_packs_by_round s' = Some packs /\ length packs = num_packs /\
    Forall (fun round_packs =>
              length round_packs = num_players /\
              Forall (fun p => length p = cards_per_pack /\
                               filled p = pack_fill (rarity_pools e)) round_packs) packs.
Proof.
  intros Hinit Hreach Hseed. destruct (init_ok _ _ _ Hinit) as (Hcat & Hnone & Hdone & _).
  destruct (reachable_inv run_matches e s Hcat Hnone Hdone Hreach) as [Hsame _ _].
  pose proof (catalog_ok_same _ _ Hsame Hcat) as Hcat'.
  destruct Hsame as (_ & _ & Hpools & _).
  destruct (rounds_from_ok (rarity_pools s) (num_cards_total s) num_packs (reset_rng seed s))
    as (packs & g' & Hdeal & Hlen & Hall).
  { intros k cid Hin. by apply (Hcat' k cid). }
  destruct (populate_ids_ok (card_color_identity s) (basic_land (rarity_pools s))
              (basic_land_ids s)) as [ids' Hids].
  { apply Forall_forall. intros land_id Hin. by apply (Hcat' BasicLand land_id). }
  pose proof (rounds_from_fill _ _ _ _ _ Hdeal) as Hfull. rewrite Hpools in Hfull.
  destruct (build_observation_ok _ (fresh_table_ok s packs ids' g' (conj Hlen Hall)))
    as [obs Hobs].
  exists obs, (fresh_table s packs ids' g'), packs.
  rewrite (reset_spec s seed packs g' ids' Hseed Hdeal Hids), Hobs.
  repeat (split; [done|]).
  apply Forall_lookup. intros r round_packs Hr.
  destruct (Forall_lookup_1 _ _ _ _ Hall Hr) as [Hrlen Hrall]. split; [done|].
  pose proof (Forall_lookup_1 _ _ _ _ Hfull Hr) as Hrfull.
  apply Forall_lookup. intros i p Hp.
  destruct (Forall_lookup_1 _ _ _ _ Hrall Hp) as [Hplen _]. split; [done|].
  apply (Forall_lookup_1 _ _ _ _ Hrfull Hp).
Qed.

(** X17: a pick that is not the last of the draft returns the
    observation of the table it leaves, reward [0.0] and both flags
    [False]. *)
Theorem pick_returns_new_table (s : DraftEnv) (action : Z) :
  table_ok s -> accepted s action -> S (progress s) < num_packs * cards_per_pack ->
  exists obs s',
    step run_matches action s = (Ok (Tuple5 obs 0%float false false), s') /\
    _build_observation s' = Ok obs /\ done_drafting s' = false /\
    progress s' = S (progress s).
Proof.
  intros Hok [cid Hcid] Hlt.
  destruct (step_accept run_matches s action cid Hok Hcid)
    as (s' & Hs' & Hok' & _ & _ & _ & Hprog & Hret).
  assert (Hdone : done_drafting s' = false).
  { destruct (done_drafting s') eqn:Hd; [|done]. apply (progress_done s' Hok') in Hd. lia. }
  rewrite Hdone in Hret. destruct Hret as (obs & Hobs & Hfst).
  exists obs, s'. destruct (step run_matches action s) as [r s1]. cbn in *. by subst.
Qed.


End DraftEnds.

(** ** The pools of a catalog *)

Section CatalogPools.

(** The entry a record adds to the pool [k]: its identity, when the
    record is filed under [k]. *)
Definition filed (ids : gmap string nat) (k : pool_key) (card : CardRecord) : option nat :=
  if decide (bucket_of card = Some k) then name card ≫= (ids !!.) else None.

Lemma build_card_pools (m m' : Maps) (card : CardRecord) :
  build_card m card = Ok m' ->
  exists n cid, name card = Some n /\ m_card_id_map m' !! n = Some cid /\
    m_rarity_pools m' = match bucket_of card with
                        | Some k => pool_append (m_rarity_pools m) k cid
                        | None => m_rarity_pools m
                        end.
Proof.
  unfold build_card. destruct (name card) as [n|]; [|done].
  unfold register_name. destruct (m_card_id_map m !! n) as [cid|] eqn:Hn.
  - rewrite Hn. intros [= <-]. by exists n, cid.
  - cbn. rewrite lookup_insert_eq. intros [= <-]. exists n, (m_idx m). cbn.
    by rewrite lookup_insert_eq.
Qed.

Lemma pool_pool_append (p : RarityPools) (k k' : pool_key) (cid : nat) :
  pool (pool_append p k cid) k' = pool p k' ++ (if decide (k = k') then [cid] else []).
Proof. destruct k, k'; cbn; by rewrite ?app_nil_r. Qed.

Lemma omap_ext_in {A B} (f g : A -> option B) (l : list A) :
  (forall x, x ∈ l -> f x = g x) -> omap f l = omap g l.
Proof.
  induction l as [|x l IH]; intros H; [done|]. cbn.
  rewrite (H x) by left. rewrite IH; [done|]. intros y Hy. apply H. by right.
Qed.

Lemma build_loop_pools (cards : list CardRecord) : forall seen m m',
  maps_inv seen m ->
  (forall k, pool (m_rarity_pools m) k = omap (filed (m_card_id_map m) k) seen) ->
  build_loop m cards = Ok m' ->
  forall k, pool (m_rarity_pools m') k = omap (filed (m_card_id_map m') k) (seen ++ cards).
Proof.
  induction cards as [|card rest IH]; intros seen m m' Hinv Hpools; cbn.
  - intros [= <-] k. by rewrite app_nil_r.
  - destruct (build_card m card) as [m1|] eqn:Hcard; [|done]. intros Hloop k.
    pose proof Hcard as (n & cid & Hname & Hcid & Hp1)%build_card_pools.
    destruct (build_card_inv seen m card n Hinv Hname) as (m1' & Hcard' & Hinv1 & _).
    rewrite Hcard in Hcard'. injection Hcard' as <-.
    rewrite (app_assoc seen [card] rest : seen ++ card :: rest = (seen ++ [card]) ++ rest).
    apply (IH (seen ++ [card]) m1 m' Hinv1); [|done]. intros k'.
    assert (Hone : omap (filed (m_card_id_map m1) k') [card]
                   = if decide (bucket_of card = Some k') then [cid] else []).
    { cbn. unfold filed. rewrite Hname. cbn. rewrite Hcid. by destruct (decide _). }
    rewrite omap_app, Hone, Hp1.
    assert (Hseen : omap (filed (m_card_id_map m1) k') seen
                    = omap (filed (m_card_id_map m) k') seen).
    { apply omap_ext_in. intros c Hc. unfold filed.
      destruct (decide (bucket_of c = Some k')); [|done].
      destruct (name c) as [n'|] eqn:Hn'; [|done]. cbn.
      assert (Hdom : n' ∈ dom (m_card_id_map m)).
      { rewrite (inv_dom _ _ Hinv). apply elem_of_list_to_set, list_elem_of_omap. eauto. }
      apply elem_of_dom in Hdom as [c' Hc']. rewrite Hc'.
      by apply (build_card_keeps m m1 card). }
    rewrite Hseen, <- Hpools.
    destruct (bucket_of card) as [k0|].
    + rewrite pool_pool_append. destruct (decide (k0 = k')) as [->|Hne].
      * by rewrite decide_True.
      * rewrite decide_False by congruence. done.
    + rewrite decide_False by done. by rewrite app_nil_r.
Qed.

(** X19: a pool lists the identities of the records filed under it, in
    the order of the catalog and once for every record: a card printed
    twice under a rarity is in that pool twice. A record is filed under
    [basic_land] when it is flagged as a basic land, otherwise under its
    rarity in lower case when that is the name of a pool, and otherwise
    nowhere. *)
Theorem build_maps_pools (cards : list CardRecord) (m : Maps) (k : pool_key) :
  _build_maps cards = Ok m ->
  pool (m_rarity_pools m) k = omap (filed (m_card_id_map m) k) cards.
Proof.
  intros Hb. apply (build_loop_pools cards [] empty_maps m maps_inv_empty); [|done].
  by intros [].
Qed.

End CatalogPools.

(** The demo table one pick before the end of the draft. *)
Abbreviation last_table := ((run Demo.matches (take 44 Demo.actions) Demo.start).2).


Lemma reset_restarts_draft_witness :
  exists obs s' packs,
    reset (Some 7%Z) second_pick = (Ok obs, s') /\ _build_observation s' = Ok obs /\
    round_idx s' = 0 /\ pick_idx s' = 0 /\ done_drafting s' = false /\ user_picks s' = [] /\
    pack_holder s' = Some (Some <$> seq 0 num_players) /\
    all_packs_by_round s' = Some packs /\ length packs = num_packs /\
    Forall (fun round_packs =>
              length round_packs = num_players /\
              Forall (fun p => length p = cards_per_pack /\
                               filled p = pack_fill (rarity_pools Demo.env)) round_packs) packs.
Proof.
  assert (Hseed : seed_ok (Some 7%Z)) by (cbn; lia).
  exact (reset_restarts_draft Demo.matches Demo.catalog (@rng_seed lcg 7) Demo.env second_pick
           (Some 7%Z) Demo.init_env (drafting_reachable Demo.matches _ _ drafting_second_pick)
           Hseed).
Defined.

Lemma pick_returns_new_table_witness :
  exists obs s',
    step Demo.matches 14%Z Demo.start = (Ok (Tuple5 obs 0%float false false), s') /\
    _build_observation s' = Ok obs /\ done_drafting s' = false /\
    progress s' = S (progress Demo.start).
Proof.
  assert (Hacc : accepted Demo.start 14%Z) by (eexists; vm_compute; reflexivity).
  assert (Hlt : S (progress Demo.start) < num_packs * cards_per_pack) by (vm_compute; lia).
  exact (pick_returns_new_table Demo.matches Demo.start 14%Z Demo.start_ok Hacc Hlt).
Defined.


Lemma build_maps_pools_witness :
  exists m,
    _build_maps [card_record "Opt" ["U"] "common" false;
                 card_record "Island" ["U"] "common" true;
                 card_record "Opt" ["U"] "Common" false] = Ok m /\
    pool (m_rarity_pools m) Common
      = omap (filed (m_card_id_map m) Common)
          [card_record "Opt" ["U"] "common" false;
           card_record "Island" ["U"] "common" true;
           card_record "Opt" ["U"] "Common" false].
Proof.
  eexists. split; [reflexivity|].
  exact (build_maps_pools
           [card_record "Opt" ["U"] "common" false;
            card_record "Island" ["U"] "common" true;
            card_record "Opt" ["U"] "Common" false] _ Common eq_refl).
Defined.

Section DeckFileChecks.
Context {RS : RandomSource}.

Lemma saved_named (s : DraftEnv) (deck_ids : list (option nat)) :
  is_ok (_save_deck_to_dck_file s deck_ids) = true ->
  Forall (named_entry (id_card_map s)) deck_ids.
Proof.
  rewrite save_deck_named. by destruct (decide (Forall (named_entry (id_card_map s)) deck_ids)).
Qed.

End DeckFileChecks.

Lemma make_pack_composition_witness :
  exists (pack : Pack) (g' : @rng lcg),
    make_pack landless = (Ok pack, set_random_state g' landless) /\
    filled pack = pack_fill (rarity_pools landless) /\
    (exists drawn, length drawn = pack_fill (rarity_pools landless) /\
       pack = (Some <$> drawn)
              ++ replicate (cards_per_pack - pack_fill (rarity_pools landless)) None) /\
    (forall i cid, pack !! i = Some (Some cid) ->
       exists k, cid ∈ pool (rarity_pools landless) k) /\
    (pack_fill (rarity_pools landless) = cards_per_pack ->
     exists l cs us r, pack = Some <$> (l :: cs ++ us ++ [r]) /\
       l ∈ basic_land (rarity_pools landless) /\
       length cs = 10 /\ cs ⊆ common (rarity_pools landless) /\
       length us = 3 /\ us ⊆ uncommon (rarity_pools landless) /\
       r ∈ rare (rarity_pools landless) ++ mythic (rarity_pools landless)).
Proof. exact (make_pack_composition landless). Defined.

Lemma build_deck_at_least_witness :
  exists land_ids,
    build_deck Demo.final 33 27 = (Some <$> take 33 (user_picks Demo.final)) ++ land_ids /\
    27 <= length land_ids /\
    Forall (fun x => exists c, x = cget (basic_land_ids Demo.final) c) land_ids.
Proof. exact (build_deck_at_least Demo.final 33 27). Defined.

Lemma deck_file_counts_witness :
  exists entries : list (string * (option nat * nat)),
    deck_file (id_card_map Demo.final) (build_deck Demo.final 33 27) "draft_deck"
      = Ok (["[metadata]"; "Name=" +:+ "draft_deck"; "[Main]"]
            ++ ((fun e => card_line e.2.2 e.1) <$> entries) ++ sections) /\
    _save_deck_to_dck_file Demo.final (build_deck Demo.final 33 27) = Ok tt /\
    Sorted key_le entries /\
    NoDup entries.*2.*1 /\
    (forall x, x ∈ entries.*2.*1 <-> x ∈ build_deck Demo.final 33 27) /\
    (forall e, e ∈ entries ->
       e.2.1 ≫= (id_card_map Demo.final !!.) = Some e.1 /\
       e.2.2 = occurrences e.2.1 (build_deck Demo.final 33 27)) /\
    sum_list entries.*2.*2 = length (build_deck Demo.final 33 27).
Proof.
  assert (Hall : Forall (named_entry (id_card_map Demo.final)) (build_deck Demo.final 33 27)).
  { apply saved_named. vm_compute. reflexivity. }
  destruct (deck_file_counts Demo.final (build_deck Demo.final 33 27) "draft_deck")
    as [Hwritten _].
  exact (Hwritten Hall).
Defined.

(** What [render] prints for the table after the first pick, and the
    deck file of the finished draft. *)
Example render_second_pick :
  (match _build_observation second_pick with
   | Ok obs => render (id_card_map Demo.env) obs
   | Raise e => Raise e
   end)
  = Ok [rule; "          MTG DRAFT VIEW          "; rule;
        "CURRENT PACK (slots 0..14):"; "  Slot 0: Island";
        "  Slot 1: Giant Growth"; "  Slot 2: [EMPTY]";
        "  Slot 3: Deputy of Detention"; "  Slot 4: Campus Guide";
        "  Slot 5: Negate"; "  Slot 6: Vampire Neonate";
        "  Slot 7: Healer's Hawk"; "  Slot 8: Duress";
        "  Slot 9: Ajani's Pridemate"; "  Slot 10: Shock";
        "  Slot 11: Bake into a Pie"; "  Slot 12: Angel of Vitality";
        "  Slot 13: Essence Scatter"; "  Slot 14: Muldrotha, the Gravetide";
        EmptyString; "YOUR PICKS (so far):"; "  Pick 1: Scavenging Ooze";
        rule; EmptyString] /\
  deck_file (id_card_map Demo.final) (build_deck Demo.final 33 27) "draft_deck"
  = Ok (["[metadata]"; "Name=draft_deck"; "[Main]";
         "1 Ajani's Pridemate|FDN|1"; "5 Angel of Vitality|FDN|1";
         "3 Bake into a Pie|FDN|1"; "2 Burst Lightning|FDN|1";
         "6 Day of Judgment|FDN|1"; "1 Duress|FDN|1";
         "2 Essence Scatter|FDN|1"; "8 Forest|FDN|1";
         "1 Giant Growth|FDN|1"; "5 Island|FDN|1"; "1 Mountain|FDN|1";
         "5 Muldrotha, the Gravetide|FDN|1"; "1 Negate|FDN|1";
         "8 Plains|FDN|1"; "6 Scavenging Ooze|FDN|1"; "6 Swamp|FDN|1"]
        ++ sections).
Proof. split; vm_compute; reflexivity. Qed.
